(** * v-animate: the plugin registry, the shared frame clock, the orchestrator
    session and the stagger delay calculation

  A shallow embedding of
  - [src/staggerDelays.ts]      ([calculateStaggerDelays]),
  - [src/registry.ts]           ([AnimationPluginRegistry]),
  - the [RafCoordinator] class  (the shared per-frame clock),
  - [src/useAnimation.ts]       (play / pause / stop / resume / cleanup),
  with the properties of the specification stated over it. *)

From Stdlib Require Import ZArith Floats Ascii String.
From stdpp Require Import gmap strings list sorting.

Local Open Scope Z_scope.

(** ** JavaScript numbers

  A JS number is an IEEE 754 binary64 value: Rocq's primitive [float].
  Loop indices and element counts are integers in the source; they are kept
  as [nat] / [Z] and converted where the source uses them as numbers. *)

Module Num.

Definition of_Z (z : Z) : float :=
  if z <? 0 then PrimFloat.opp (PrimFloat.of_uint63 (Uint63.of_Z (- z)))
  else PrimFloat.of_uint63 (Uint63.of_Z z).

Definition of_nat (n : nat) : float := of_Z (Z.of_nat n).

(** [Math.pow(x, 2)]: the square of [x]. *)
Definition sq (x : float) : float := PrimFloat.mul x x.

(** [i % cols] for an integer index [i >= 0] and an integer [cols]:
    the remainder has the sign of the dividend, and [i % 0] is [NaN]. *)
Definition rem (i : nat) (cols : Z) : float :=
  if cols =? 0 then PrimFloat.nan else of_Z (Z.rem (Z.of_nat i) cols).

(** [Math.floor(i / cols)] for an integer index [i >= 0] and an integer
    [cols]: [0 / 0] is [NaN], [i / 0] is [Infinity] for [i > 0]. *)
Definition floor_div (i : nat) (cols : Z) : float :=
  if cols =? 0 then
    (if Nat.eqb i 0 then PrimFloat.nan else PrimFloat.infinity)
  else of_Z (Z.of_nat i / cols).

(** [x || 1] on numbers: [0] and [NaN] are falsy. *)
Definition or_one (x : float) : float :=
  if PrimFloat.eqb x PrimFloat.zero then PrimFloat.one
  else if PrimFloat.is_nan x then PrimFloat.one
  else x.

End Num.

(** ** [calculateStaggerDelays] *)

Module Stagger.

Inductive StaggerFrom := FromStart | FromEnd | FromCenter.

(** The fields of [UseAnimationStaggerOptions] that the calculation
    reads.  [from], [ease] and [grid] are optional. *)
Record UseAnimationStaggerOptions := {
  delay : float;
  from : option StaggerFrom;
  ease : option string;
  grid : option (Z * Z);
}.

Definition from_or_default (o : UseAnimationStaggerOptions) : StaggerFrom :=
  default FromStart (from o).

Definition ease_or_default (o : UseAnimationStaggerOptions) : string :=
  default "linear"%string (ease o).

(** The distance of element [i] in the 2D grid branch. *)
Definition gridDistance (fr : StaggerFrom) (cols rows : Z) (i : nat) : float :=
  let col := Num.rem i cols in
  let row := Num.floor_div i cols in
  match fr with
  | FromCenter =>
      PrimFloat.sqrt
        (PrimFloat.add
           (Num.sq (PrimFloat.sub col (PrimFloat.div (Num.of_Z cols) 2%float)))
           (Num.sq (PrimFloat.sub row (PrimFloat.div (Num.of_Z rows) 2%float))))
  | FromEnd =>
      PrimFloat.add (PrimFloat.sub (Num.of_Z cols) col)
                    (PrimFloat.sub (Num.of_Z rows) row)
  | FromStart => PrimFloat.add col row
  end.

(** The position of element [i] in the 1D branch. *)
Definition linearPosition (fr : StaggerFrom) (count i : nat) : float :=
  match fr with
  | FromStart => Num.of_nat i
  | FromEnd =>
      PrimFloat.sub (PrimFloat.sub (Num.of_nat count) 1%float) (Num.of_nat i)
  | FromCenter =>
      PrimFloat.abs
        (PrimFloat.sub (Num.of_nat i) (PrimFloat.div (Num.of_nat count) 2%float))
  end.

(** The eased fraction: ['ease-in'] squares, ['ease-out'] is
    [1 - (1 - t)^2], and every other name (['cubic-bezier(...)'] included)
    leaves [t] as it is. *)
Definition easedT (e : string) (t : float) : float :=
  if String.eqb e "ease-in" then PrimFloat.mul t t
  else if String.eqb e "ease-out" then
    PrimFloat.sub 1%float (Num.sq (PrimFloat.sub 1%float t))
  else if String.prefix "cubic-bezier" e then t
  else t.

Definition linearDelay (o : UseAnimationStaggerOptions) (count i : nat) : float :=
  let position := linearPosition (from_or_default o) count i in
  let e := ease_or_default o in
  if String.eqb e "linear" then PrimFloat.mul position (delay o)
  else
    let t :=
      PrimFloat.div position
        (Num.or_one (PrimFloat.sub (Num.of_nat count) 1%float)) in
    PrimFloat.mul (PrimFloat.mul (easedT e t) (delay o)) (Num.of_nat count).

(** The loop [for (let i = 0; i < count; i++) delays.push(...)]. *)
Definition calculateStaggerDelays
    (count : nat) (o : UseAnimationStaggerOptions) : list float :=
  match grid o with
  | Some (cols, rows) =>
      (fun i => PrimFloat.mul (gridDistance (from_or_default o) cols rows i) (delay o))
        <$> seq 0 count
  | None => linearDelay o count <$> seq 0 count
  end.

End Stagger.

(** ** Results of code that may throw *)

Inductive Outcome (A : Type) : Type :=
| Ok (a : A)
| Throw (msg : string).
Arguments Ok {A} a.
Arguments Throw {A} msg.

#[global] Instance outcome_ret : MRet Outcome := fun A a => Ok a.
#[global] Instance outcome_bind : MBind Outcome := fun A B k m =>
  match m with
  | Ok a => k a
  | Throw msg => Throw msg
  end.

(** [s] occurs in [msg]. *)
Definition mentions (msg s : string) : Prop :=
  exists pre post : string, msg = (pre ++ s ++ post)%string.

(** ** [Array.prototype.sort]

    The sort is stable (ECMAScript 2019): elements that the comparator does
    not separate keep their relative order.  With a comparator that is a
    consistent ordering the result is determined by that, whichever algorithm
    the engine runs; here it is computed by insertion, an element moving past
    exactly the elements that the comparator puts strictly before it. *)

Section JsSort.
Context {A : Type} (cmp : A -> A -> Z).

Fixpoint sort_insert (x : A) (l : list A) : list A :=
  match l with
  | [] => [x]
  | y :: ys => if 0 <? cmp x y then y :: sort_insert x ys else x :: y :: ys
  end.

Definition js_sort (l : list A) : list A := foldr sort_insert [] l.

End JsSort.

(** ** The plugin registry ([src/registry.ts]) *)

Module Registry.

(** The values a configuration can hold under a key, as far as the registry
    looks at them ([=== undefined], [=== null], [typeof === 'boolean']). *)
Inductive JSValue :=
| VUndefined
| VNull
| VBool (b : bool)
| VNumber (x : float)
| VString (s : string)
| VObject (ref : nat).

(** [UseAnimationOptions] read as [Record<string, unknown>]: a property that
    is not there reads as [undefined]. *)
Definition readOption (options : gmap string JSValue) (k : string) : JSValue :=
  default VUndefined (options !! k).

(** The object returned by a plugin's [setup]: which of the optional
    lifecycle methods it exposes. *)
Record PluginSystem := {
  sys_play : bool;
  sys_pause : bool;
  sys_resume : bool;
  sys_stop : bool;
  sys_cleanup : bool;
}.

(** [AnimationPlugin], with the fields the registry reads.  [setup] is given
    the plugin's extracted options (the context argument is left out) and
    either returns a system or throws.  The registry's [Map] of plugins,
    keyed by name, is the list of its values in insertion order, the order in
    which [this.plugins.forEach] visits them. *)
Record AnimationPlugin := {
  name : string;
  version : string;
  setup : JSValue -> Outcome PluginSystem;
  shouldActivate : option (gmap string JSValue -> bool);
  optionsKey : option string;
  requires : option (list string);
  conflicts : option (list string);
  priority : option Z;
  cleanupPriority : option Z;
}.

(** [plugin.optionsKey || plugin.name] *)
Definition keyOf (p : AnimationPlugin) : string :=
  match optionsKey p with
  | Some k => if String.eqb k "" then name p else k
  | None => name p
  end.

Definition hasPluginOptions (p : AnimationPlugin) (options : gmap string JSValue)
  : bool :=
  match readOption options (keyOf p) with
  | VUndefined | VNull => false
  | VBool b => b
  | _ => true
  end.

Definition extractPluginOptions (p : AnimationPlugin)
    (options : gmap string JSValue) : JSValue :=
  readOption options (keyOf p).

(** [plugin.shouldActivate?.(options) ?? this.hasPluginOptions(plugin, options)] *)
Definition activates (options : gmap string JSValue) (p : AnimationPlugin) : bool :=
  match shouldActivate p with
  | Some f => f options
  | None => hasPluginOptions p options
  end.

Definition getActivePlugins (plugins : list AnimationPlugin)
    (options : gmap string JSValue) : list AnimationPlugin :=
  filter (fun p => activates options p = true) plugins.

(** [new Set(activePlugins.map(p => p.name))] *)
Definition activeNames (active : list AnimationPlugin) : gset string :=
  list_to_set (name <$> active).

(** [required.split('.')[0]] *)
Fixpoint requiredPlugin (required : string) : string :=
  match required with
  | EmptyString => EmptyString
  | String c rest =>
      if Ascii.eqb c "."%char then EmptyString else String c (requiredPlugin rest)
  end.

(** No character of [s] is a dot. *)
Fixpoint dotFree (s : string) : bool :=
  match s with
  | EmptyString => true
  | String c rest => negb (Ascii.eqb c ".") && dotFree rest
  end.

(** [key] is a plain plugin name or a namespaced key [plugin.capability]:
    the dot-free name [plugin] followed by nothing or by a dot and anything. *)
Definition namespacedKey (plugin key : string) : Prop :=
  dotFree plugin = true
  /\ exists suffix : string,
       key = (plugin ++ suffix)%string
       /\ (suffix = EmptyString \/ exists capability, suffix = String "." capability).

Definition requiresError (plugin required : string) : string :=
  ("Plugin '" ++ plugin ++ "' requires '" ++ required
     ++ "' but it is not enabled. Add " ++ required
     ++ ": {...} to your options.")%string.

Definition conflictError (plugin conflict : string) : string :=
  ("Plugin '" ++ plugin ++ "' conflicts with '" ++ conflict
     ++ "'. You cannot use both plugins simultaneously.")%string.

(** [xs.forEach(x => { if (bad x) throw ... })]: the first offending element
    throws. *)
Fixpoint forEachCheck {X} (check : X -> Outcome unit) (xs : list X) : Outcome unit :=
  match xs with
  | [] => Ok tt
  | x :: rest => check x ;; forEachCheck check rest
  end.

Definition validateDependencies (activePlugins : list AnimationPlugin)
  : Outcome unit :=
  let names := activeNames activePlugins in
  forEachCheck
    (fun plugin =>
       match requires plugin with
       | None => Ok tt
       | Some reqs =>
           forEachCheck
             (fun required =>
                let requiredName := requiredPlugin required in
                if bool_decide (requiredName ∈ names) then Ok tt
                else Throw (requiresError (name plugin) requiredName))
             reqs
       end)
    activePlugins.

Definition checkConflicts (activePlugins : list AnimationPlugin) : Outcome unit :=
  let names := activeNames activePlugins in
  forEachCheck
    (fun plugin =>
       match conflicts plugin with
       | None => Ok tt
       | Some cs =>
           forEachCheck
             (fun conflictName =>
                if bool_decide (conflictName ∈ names)
                then Throw (conflictError (name plugin) conflictName)
                else Ok tt)
             cs
       end)
    activePlugins.

Definition priorityOf (p : AnimationPlugin) : Z := default 50 (priority p).

(** [a.cleanupPriority ?? a.priority ?? 50] *)
Definition cleanupPriorityOf (p : AnimationPlugin) : Z :=
  default (priorityOf p) (cleanupPriority p).

(** Orders on plugins: by priority, by cleanup priority. *)
Definition byPriority (a b : AnimationPlugin) : Prop := priorityOf a <= priorityOf b.
Definition byCleanupPriority (a b : AnimationPlugin) : Prop :=
  cleanupPriorityOf a <= cleanupPriorityOf b.

(** The plugin does not give a [cleanupPriority]. *)
Definition noOverride (p : AnimationPlugin) : Prop := cleanupPriority p = None.

(** [[...plugins].sort((a, b) => priorityB - priorityA)] *)
Definition sortByPriority (plugins : list AnimationPlugin) : list AnimationPlugin :=
  js_sort (fun a b => priorityOf b - priorityOf a) plugins.

Definition getCleanupOrder (plugins : list AnimationPlugin) : list AnimationPlugin :=
  js_sort (fun a b => cleanupPriorityOf a - cleanupPriorityOf b)
          (sortByPriority plugins).

(** [systems.set(plugin.name, system)] on the [Map] of systems. *)
Fixpoint systemsSet (n : string) (s : PluginSystem)
    (systems : list (string * PluginSystem)) : list (string * PluginSystem) :=
  match systems with
  | [] => [(n, s)]
  | (m, t) :: rest =>
      if String.eqb m n then (n, s) :: rest else (m, t) :: systemsSet n s rest
  end.

(** Step 5 of [setupPlugins]: the loop over the sorted plugins.  [calls] is
    the list of plugins whose [setup] has been invoked so far, oldest first;
    a [setup] that throws ends the loop and the error is thrown again. *)
Fixpoint setupLoop (options : gmap string JSValue) (sorted : list AnimationPlugin)
    (calls : list string) (systems : list (string * PluginSystem))
  : list string * Outcome (list (string * PluginSystem)) :=
  match sorted with
  | [] => (calls, Ok systems)
  | plugin :: rest =>
      let pluginOptions := extractPluginOptions plugin options in
      match setup plugin pluginOptions with
      | Ok system =>
          setupLoop options rest (calls ++ [name plugin])
                    (systemsSet (name plugin) system systems)
      | Throw e => (calls ++ [name plugin], Throw e)
      end
  end.

Record SetupResult := {
  systems : list (string * PluginSystem);
  sortedPlugins : list AnimationPlugin;
}.

(** [setupPlugins]: the names of the plugins whose [setup] was invoked, in
    order, and the value returned or the error thrown. *)
Definition setupPlugins (plugins : list AnimationPlugin)
    (options : gmap string JSValue) : list string * Outcome SetupResult :=
  let activePlugins := getActivePlugins plugins options in
  match validateDependencies activePlugins with
  | Throw e => ([], Throw e)
  | Ok _ =>
      match checkConflicts activePlugins with
      | Throw e => ([], Throw e)
      | Ok _ =>
          let sorted := sortByPriority activePlugins in
          match setupLoop options sorted [] [] with
          | (calls, Ok sys) =>
              (calls, Ok {| systems := sys; sortedPlugins := sorted |})
          | (calls, Throw e) => (calls, Throw e)
          end
      end
  end.

(** ECMAScript [ToBoolean], the meaning of "truthy". *)
Definition truthy (v : JSValue) : bool :=
  match v with
  | VUndefined | VNull => false
  | VBool b => b
  | VNumber x => negb (PrimFloat.eqb x PrimFloat.zero || PrimFloat.is_nan x)
  | VString s => negb (String.eqb s "")
  | VObject _ => true
  end.

(** What is wrong with a configuration: [p] requires [other], which (cut at
    its first dot) is not the name of an active plugin, or [p] declares a
    conflict with the active plugin [other]. *)
Definition unmet (active : list AnimationPlugin) (p : AnimationPlugin)
    (other : string) : Prop :=
  exists reqs r, requires p = Some reqs /\ r ∈ reqs
                 /\ requiredPlugin r = other /\ other ∉ activeNames active.

Definition clash (active : list AnimationPlugin) (p : AnimationPlugin)
    (other : string) : Prop :=
  exists cs, conflicts p = Some cs /\ other ∈ cs /\ other ∈ activeNames active.

End Registry.

(** ** The shared frame clock ([RafCoordinator])

    The coordinator keeps a [Map] from subscription symbols to callbacks and
    the handle of the frame request it made last.  The host's scheduler
    ([requestAnimationFrame] / [cancelAnimationFrame], or the timer fallback)
    is modelled by the list of outstanding requests. *)

Module Raf.

(** A subscriber's callback, as far as the coordinator is concerned: when
    invoked it may subscribe further callbacks and unsubscribe symbols.
    [label] tells callbacks apart in the record of invocations. *)
Inductive FrameCallback :=
| Callback (label : nat) (body : list Cmd)
with Cmd :=
| CAdd (cb : FrameCallback)
| CRemove (id : nat).

Definition body_of (cb : FrameCallback) : list Cmd :=
  match cb with Callback _ b => b end.

(** - [callbacks]: the entries of the [Map], in insertion order; [delete]
      empties an entry in place and [set] of a new key appends one, which is
      how [Map.prototype.forEach] sees changes made while it runs.
    - [rafId]: the handle stored by the coordinator, [None] for [null].
    - [pending]: the frame requests outstanding at the host.
    - [nextSymbol], [nextHandle]: sources of fresh symbols and handles.
    - [invoked]: which subscription was called with which timestamp, latest
      first. *)
Record State := {
  callbacks : list (option (nat * FrameCallback));
  rafId : option nat;
  pending : list nat;
  nextSymbol : nat;
  nextHandle : nat;
  invoked : list (nat * Z);
}.

Definition initial : State :=
  {| callbacks := []; rafId := None; pending := [];
     nextSymbol := 0; nextHandle := 1; invoked := [] |}.

Definition is_entry (id : nat) (e : option (nat * FrameCallback)) : bool :=
  match e with
  | Some (i, _) => Nat.eqb i id
  | None => false
  end.

(** [this.callbacks.size] *)
Definition size (st : State) : nat :=
  length (filter (fun e => is_Some e) (callbacks st)).

(** [this.callbacks.has(id)] *)
Definition has (id : nat) (st : State) : bool :=
  existsb (is_entry id) (callbacks st).

(** [raf(step)]: a new outstanding request; its handle is returned. *)
Definition raf (st : State) : State * nat :=
  ({| callbacks := callbacks st; rafId := rafId st;
      pending := pending st ++ [nextHandle st];
      nextSymbol := nextSymbol st; nextHandle := S (nextHandle st);
      invoked := invoked st |},
   nextHandle st).

(** [caf(id)]: the request is no longer outstanding (nothing happens for a
    handle that has fired already). *)
Definition caf (h : nat) (st : State) : State :=
  {| callbacks := callbacks st; rafId := rafId st;
     pending := filter (fun h' => h' ≠ h) (pending st);
     nextSymbol := nextSymbol st; nextHandle := nextHandle st;
     invoked := invoked st |}.

Definition set_rafId (r : option nat) (st : State) : State :=
  {| callbacks := callbacks st; rafId := r; pending := pending st;
     nextSymbol := nextSymbol st; nextHandle := nextHandle st;
     invoked := invoked st |}.

Definition ensureLoop (st : State) : State :=
  match rafId st with
  | Some _ => st
  | None => let '(st', h) := raf st in set_rafId (Some h) st'
  end.

(** [add(callback)]: the new symbol is returned. *)
Definition add (cb : FrameCallback) (st : State) : State * nat :=
  let id := nextSymbol st in
  (ensureLoop
     {| callbacks := callbacks st ++ [Some (id, cb)]; rafId := rafId st;
        pending := pending st; nextSymbol := S id;
        nextHandle := nextHandle st; invoked := invoked st |},
   id).

Definition delete_entry (id : nat) (st : State) : State :=
  {| callbacks :=
       (fun e => if is_entry id e then None else e) <$> callbacks st;
     rafId := rafId st; pending := pending st;
     nextSymbol := nextSymbol st; nextHandle := nextHandle st;
     invoked := invoked st |}.

Definition remove (id : nat) (st : State) : State :=
  if has id st then
    let st1 := delete_entry id st in
    match rafId st1 with
    | Some h => if Nat.eqb (size st1) 0 then set_rafId None (caf h st1) else st1
    | None => st1
    end
  else st.

Definition exec (st : State) (c : Cmd) : State :=
  match c with
  | CAdd cb => fst (add cb st)
  | CRemove id => remove id st
  end.

Definition record_call (id : nat) (timestamp : Z) (st : State) : State :=
  {| callbacks := callbacks st; rafId := rafId st; pending := pending st;
     nextSymbol := nextSymbol st; nextHandle := nextHandle st;
     invoked := (id, timestamp) :: invoked st |}.

(** [cb(timestamp)] for the subscription [id]. *)
Definition invoke (id : nat) (cb : FrameCallback) (timestamp : Z) (st : State)
  : State :=
  foldl exec (record_call id timestamp st) (body_of cb).

(** [this.callbacks.forEach(cb => cb(timestamp))], from entry [i] on: emptied
    entries are skipped and entries appended meanwhile are visited.  [None]
    when [fuel] calls did not reach the end of the entries. *)
Fixpoint forEach (fuel : nat) (i : nat) (timestamp : Z) (st : State)
  : option State :=
  match callbacks st !! i with
  | None => Some st
  | Some e =>
      match fuel with
      | O => None
      | S fuel' =>
          match e with
          | None => forEach fuel' (S i) timestamp st
          | Some (id, cb) => forEach fuel' (S i) timestamp (invoke id cb timestamp st)
          end
      end
  end.

(** The end of [step]: request the next frame while there are subscribers. *)
Definition reschedule (st : State) : State :=
  if Nat.ltb 0 (size st)
  then let '(st', h) := raf st in set_rafId (Some h) st'
  else set_rafId None st.

(** The closure [step] that [ensureLoop] hands to the scheduler. *)
Definition step (fuel : nat) (timestamp : Z) (st : State) : option State :=
  reschedule <$> forEach fuel 0 timestamp st.

Definition take_request (h : nat) (st : State) : State := caf h st.

(** The host runs the frame callbacks: every request that was outstanding
    when the frame began, and is still outstanding at its turn, is taken off
    the list and its callback is run with the frame's timestamp. *)
Fixpoint runRequests (fuel : nat) (timestamp : Z) (handles : list nat) (st : State)
  : option State :=
  match handles with
  | [] => Some st
  | h :: rest =>
      if bool_decide (h ∈ pending st) then
        st' ← step fuel timestamp (take_request h st);
        runRequests fuel timestamp rest st'
      else runRequests fuel timestamp rest st
  end.

Definition frame (fuel : nat) (timestamp : Z) (st : State) : option State :=
  runRequests fuel timestamp (pending st) st.

(** The operations a client performs between frames, and the frames. *)
Inductive Op :=
| OpAdd (cb : FrameCallback)
| OpRemove (id : nat)
| OpFrame (timestamp : Z).

Definition perform (fuel : nat) (st : State) (op : Op) : option State :=
  match op with
  | OpAdd cb => Some (fst (add cb st))
  | OpRemove id => Some (remove id st)
  | OpFrame timestamp => frame fuel timestamp st
  end.

Fixpoint performAll (fuel : nat) (st : State) (ops : list Op) : option State :=
  match ops with
  | [] => Some st
  | op :: rest => st' ← perform fuel st op; performAll fuel st' rest
  end.

(** A callback that never subscribes: its body only unsubscribes. *)
Definition unsubscribes_only (cb : FrameCallback) : Prop :=
  Forall (fun c => match c with CRemove _ => True | CAdd _ => False end) (body_of cb).

Definition op_unsubscribes_only (op : Op) : Prop :=
  match op with
  | OpAdd cb => unsubscribes_only cb
  | _ => True
  end.

(** The clock's invariant between operations: one outstanding request, the
    one the coordinator remembers, exactly when there are subscribers. *)
Definition one_request (st : State) : Prop :=
  if Nat.ltb 0 (size st)
  then exists h, pending st = [h] /\ rafId st = Some h
  else pending st = [] /\ rafId st = None.

(** How many entries the invocation of a callback can lead to: the callback
    itself and whatever the callbacks it subscribes lead to in turn. *)
Fixpoint cb_weight (cb : FrameCallback) : nat :=
  match cb with
  | Callback _ body =>
      S ((fix cmds_weight (cmds : list Cmd) : nat :=
            match cmds with
            | [] => 0%nat
            | c :: rest => (cmd_weight c + cmds_weight rest)%nat
            end) body)
  end
with cmd_weight (c : Cmd) : nat :=
  match c with
  | CAdd cb => cb_weight cb
  | CRemove _ => 0%nat
  end.

Definition cmds_weight (cmds : list Cmd) : nat := sum_list_with cmd_weight cmds.

Definition entry_weight (e : option (nat * FrameCallback)) : nat :=
  match e with
  | Some (_, cb) => cb_weight cb
  | None => 1%nat
  end.

(** A bound on the number of entries [forEach] still has to go through when
    it stands at entry [i]; it serves as fuel. *)
Definition remaining (i : nat) (st : State) : nat :=
  sum_list_with entry_weight (drop i (callbacks st)).

(** Every subscribed callback only unsubscribes. *)
Definition quiet (st : State) : Prop :=
  Forall (fun e => match e with
                   | Some (_, cb) => unsubscribes_only cb
                   | None => True
                   end) (callbacks st).

(** What holds while a frame's callbacks run, when none of them subscribes:
    the request that fired is gone, none has been made yet, and the handle
    has only been forgotten if the last subscriber has left. *)
Definition mid_frame (st : State) : Prop :=
  pending st = [] /\ (rafId st = None -> size st = 0%nat).

(** [st'] comes after [st]: calls have been recorded on top of those of
    [st], an entry of the [Map] that is filled in [st'] at a position that
    [st] has was the same in [st], and no entry has gone away. *)
Definition follows (st st' : State) : Prop :=
  (exists newer, invoked st' = newer ++ invoked st)
  /\ (forall j e, (j < length (callbacks st))%nat ->
                  callbacks st' !! j = Some (Some e) ->
                  callbacks st !! j = Some (Some e))
  /\ (length (callbacks st) <= length (callbacks st'))%nat.

End Raf.

(** ** The orchestrator session ([useAnimation])

    The closure variables of one [useAnimation] call: the playing and paused
    flags of the context, [manualOverride], the array [cleanupHandlers], the
    entry of [stateConsumers] for the session's [stateName], and, as what the
    session does to the outside, the calls it makes, in order.  Hooks, plugin
    systems, watchers and handlers are opaque: a call to one of them is
    recorded, and what it does on its own (a plugin writing the flags when
    its animation ends, say) is not part of [useAnimation]. *)

Module Session.

Inductive Reason := Manual | Auto.

Inductive Override := OverridePlay | OverrideStop.

(** Calls the session makes: a lifecycle hook or callback of the options
    (through [safeCall], which swallows what it throws), a method of a plugin
    system, a watcher's stop handle, a registered cleanup handler, the
    release of the shared state. *)
Inductive Event :=
| EHook (hook : string)
| EPlay (system : string)
| EPause (system : string)
| EStop (system : string)
| EResume (system : string)
| ECleanup (system : string)
| EWatcherStop (watcher : nat)
| EHandler (handler : nat)
| EReleaseState (stateName : string).

#[global] Instance Event_eq_dec : EqDecision Event.
Proof. solve_decision. Defined.

(** What is fixed when the session is built. *)
Record Config := {
  playableSystems : list string;
  pausableSystems : list string;
  stoppableSystems : list string;
  resumableSystems : list string;
  cleanableSystems : list string;
  pluginWatchers : list nat;
  localWatchers : list nat;
  definedHooks : list string;
  stateName : option string;
  consumerId : nat;
}.

Record State := {
  isPlaying : bool;
  isPaused : bool;
  manualOverride : option Override;
  cleanupHandlers : list nat;
  stateConsumers : option (gset nat);
  trace : list Event;
}.

(** [systemsArray.filter(s => s.play)] and its siblings. *)
Definition systemsWith (method : Registry.PluginSystem -> bool)
    (systems : list (string * Registry.PluginSystem)) : list string :=
  fst <$> filter (fun x => method x.2 = true) systems.

Definition configOf (systems : list (string * Registry.PluginSystem))
    (watchers locals : list nat) (hooks : list string)
    (stateName : option string) (consumer : nat) : Config :=
  {| playableSystems := systemsWith Registry.sys_play systems;
     pausableSystems := systemsWith Registry.sys_pause systems;
     stoppableSystems := systemsWith Registry.sys_stop systems;
     resumableSystems := systemsWith Registry.sys_resume systems;
     cleanableSystems := systemsWith Registry.sys_cleanup systems;
     pluginWatchers := watchers;
     localWatchers := locals;
     definedHooks := hooks;
     stateName := stateName;
     consumerId := consumer |}.

Definition initial (handlers : list nat) (consumers : option (gset nat)) : State :=
  {| isPlaying := false; isPaused := false; manualOverride := None;
     cleanupHandlers := handlers; stateConsumers := consumers; trace := [] |}.

Definition update (playing paused : bool) (override : option Override)
    (events : list Event) (s : State) : State :=
  {| isPlaying := playing; isPaused := paused; manualOverride := override;
     cleanupHandlers := cleanupHandlers s; stateConsumers := stateConsumers s;
     trace := trace s ++ events |}.

(** [safeCall(fn, hookName)] / [safeCallAsync]: nothing when [fn] is not
    defined. *)
Definition safeCall (cfg : Config) (hook : string) : list Event :=
  if bool_decide (hook ∈ definedHooks cfg) then [EHook hook] else [].

(** [runPlay(reason)].  The flags and the override are written before the
    first [await]; what follows the awaits only makes calls, which are
    recorded here in their order. *)
Definition runPlay (cfg : Config) (reason : Reason) (s : State) : State :=
  match reason, manualOverride s with
  | Auto, Some OverrideStop => s
  | _, _ =>
      if isPlaying s then s
      else
        update true false
          (match reason with
           | Manual => Some OverridePlay
           | Auto => manualOverride s
           end)
          (safeCall cfg "beforePlay" ++ safeCall cfg "onStart"
             ++ (EPlay <$> playableSystems cfg) ++ safeCall cfg "afterPlay")
          s
  end.

Definition play (cfg : Config) (s : State) : State := runPlay cfg Manual s.

Definition pause (cfg : Config) (s : State) : State :=
  if negb (isPlaying s) || isPaused s then s
  else
    update (isPlaying s) true (manualOverride s)
      (safeCall cfg "beforePause" ++ (EPause <$> pausableSystems cfg)
         ++ safeCall cfg "afterPause")
      s.

Definition stop (cfg : Config) (reason : Reason) (s : State) : State :=
  match reason, manualOverride s with
  | Auto, Some OverridePlay => s
  | _, _ =>
      if negb (isPlaying s) && negb (isPaused s) then s
      else
        update false false
          (match reason with
           | Manual => Some OverrideStop
           | Auto => manualOverride s
           end)
          (safeCall cfg "beforeStop" ++ (EStop <$> stoppableSystems cfg)
             ++ safeCall cfg "afterStop" ++ safeCall cfg "onStop")
          s
  end.

Definition resume (cfg : Config) (s : State) : State :=
  if negb (isPaused s) then s
  else
    update (isPlaying s) false (manualOverride s)
      (safeCall cfg "beforeResume" ++ (EResume <$> resumableSystems cfg)
         ++ safeCall cfg "afterResume")
      s.

(** [playAuto], stored as ['orchestrator.play']: [playWhen] is the current
    value of [options.playWhen], [None] when the option is not given. *)
Definition playAuto (cfg : Config) (playWhen : option bool) (s : State) : State :=
  match playWhen with
  | Some false => s
  | _ => runPlay cfg Auto s
  end.

(** [stopAuto], stored as ['orchestrator.stop']. *)
Definition stopAuto (cfg : Config) (s : State) : State := stop cfg Auto s.

(** The callback of the [playWhen] watcher. *)
Definition playWhenChanged (cfg : Config) (shouldPlay : bool) (s : State) : State :=
  let s0 := update (isPlaying s) (isPaused s) None [] s in
  if shouldPlay then
    if negb (isPlaying s0) && negb (isPaused s0) then runPlay cfg Auto s0 else s0
  else
    if isPlaying s0 then stop cfg Auto s0 else s0.

(** The calls one [cleanup()] makes in state [s]. *)
Definition cleanupEvents (cfg : Config) (s : State) : list Event :=
  (EWatcherStop <$> pluginWatchers cfg) ++ (EWatcherStop <$> localWatchers cfg)
    ++ (ECleanup <$> cleanableSystems cfg)
    ++ (EHandler <$> cleanupHandlers s)
    ++ match stateName cfg, stateConsumers s with
       | Some n, Some _ => if String.eqb n "" then [] else [EReleaseState n]
       | _, _ => []
       end.

(** [stateConsumers] after the session has removed itself from its entry and
    [cleanupSharedState] has dropped an entry left empty. *)
Definition releaseConsumer (cfg : Config) (s : State) : option (gset nat) :=
  match stateName cfg, stateConsumers s with
  | Some n, Some consumers =>
      if String.eqb n "" then Some consumers
      else
        let rest := consumers ∖ {[consumerId cfg]} in
        if bool_decide (rest = ∅) then None else Some rest
  | _, other => other
  end.

Definition cleanup (cfg : Config) (s : State) : State :=
  {| isPlaying := false; isPaused := false;
     manualOverride := manualOverride s;
     cleanupHandlers := [];
     stateConsumers := releaseConsumer cfg s;
     trace := trace s ++ cleanupEvents cfg s |}.

(** What can happen to a session without an explicit [play()] or [stop()]
    and without a change of [playWhen]: the automatic play and stop triggers
    of the plugins, and [pause()] / [resume()]. *)
Inductive Trigger :=
| TAutoPlay (playWhen : option bool)
| TAutoStop
| TPause
| TResume.

Definition fire (cfg : Config) (s : State) (t : Trigger) : State :=
  match t with
  | TAutoPlay playWhen => playAuto cfg playWhen s
  | TAutoStop => stopAuto cfg s
  | TPause => pause cfg s
  | TResume => resume cfg s
  end.

Definition count (e : Event) (l : list Event) : nat :=
  length (filter (fun e' => e' = e) l).

(** How often [x] is listed in [l]. *)
Definition occurrences `{EqDecision X} (x : X) (l : list X) : nat :=
  length (filter (fun y => y = x) l).

End Session.

(** ** Concrete inputs used below *)

Module Examples.
Import Registry.

(** Stagger options with [delay: 100], linear easing, no grid. *)
Definition linearOptions (fr : Stagger.StaggerFrom) : Stagger.UseAnimationStaggerOptions :=
  {| Stagger.delay := 100%float; Stagger.from := Some fr;
     Stagger.ease := Some "linear"%string; Stagger.grid := None |}.

(** Stagger options with [delay: 100] and [grid: [2, 2]]. *)
Definition gridOptions (fr : Stagger.StaggerFrom) : Stagger.UseAnimationStaggerOptions :=
  {| Stagger.delay := 100%float; Stagger.from := Some fr;
     Stagger.ease := None; Stagger.grid := Some (2, 2) |}.

Definition plainSystem : PluginSystem :=
  {| sys_play := true; sys_pause := true; sys_resume := true;
     sys_stop := true; sys_cleanup := true |}.

(** A plugin that activates on its own name and whose setup succeeds. *)
Definition plugin (n : string) (reqs cfl : option (list string)) (prio : option Z)
  : AnimationPlugin :=
  {| name := n; version := "1.0.0"; setup := fun _ => Ok plainSystem;
     shouldActivate := None; optionsKey := None;
     requires := reqs; conflicts := cfl;
     priority := prio; cleanupPriority := None |}.

(** [{ fade: 0 }]: a falsy value under the key of the plugin ["fade"]. *)
Definition zeroOptions : gmap string JSValue := {[ "fade"%string := VNumber 0%float ]}.

(** [{ fade: '' }] *)
Definition emptyStringOptions : gmap string JSValue :=
  {[ "fade"%string := VString "" ]}.

(** [{ consumer: true }]: only ["consumer"] is activated. *)
Definition consumerOnly : gmap string JSValue :=
  {[ "consumer"%string := VBool true ]}.

(** [{ consumer: true, responsive: {} }] *)
Definition consumerAndResponsive : gmap string JSValue :=
  <[ "consumer"%string := VBool true ]> {[ "responsive"%string := VObject 0 ]}.

(** A registry in which ["consumer"] requires the namespaced key
    ['responsive.scale']. *)
Definition namespacedRegistry : list AnimationPlugin :=
  [ plugin "responsive" None None (Some 100);
    plugin "consumer" (Some ["responsive.scale"%string]) None None ].

(** Two plugins of equal (default) priority, registered as [first], [second]. *)
Definition equalPriorityRegistry : list AnimationPlugin :=
  [ plugin "first" None None None; plugin "second" None None None ].

(** A callback that does nothing to the coordinator. *)
Definition idle (label : nat) : Raf.FrameCallback := Raf.Callback label [].

(** A callback that, holding the first subscription (symbol 0), pauses and
    resumes within one frame: it unsubscribes itself and subscribes again. *)
Definition restarting : Raf.FrameCallback :=
  Raf.Callback 1 [Raf.CRemove 0; Raf.CAdd (idle 2)].

(** A callback that subscribes another one when it is invoked. *)
Definition spawning : Raf.FrameCallback := Raf.Callback 1 [Raf.CAdd (idle 2)].

(** The clock after [restarting] has subscribed and one frame has run. *)
Definition afterRestart : Raf.State :=
  {| Raf.callbacks := [None; Some (1%nat, idle 2)];
     Raf.rafId := Some 3%nat;
     Raf.pending := [2%nat; 3%nat];
     Raf.nextSymbol := 2;
     Raf.nextHandle := 4;
     Raf.invoked := [(1%nat, 16); (0%nat, 16)] |}.

(** The clock after [spawning] has subscribed and one frame has run. *)
Definition afterSpawn : Raf.State :=
  {| Raf.callbacks := [Some (0%nat, spawning); Some (1%nat, idle 2)];
     Raf.rafId := Some 2%nat;
     Raf.pending := [2%nat];
     Raf.nextSymbol := 2;
     Raf.nextHandle := 3;
     Raf.invoked := [(1%nat, 16); (0%nat, 16)] |}.

(** A session with one plugin system, [fade], that has every method. *)
Definition oneSystem : Session.Config :=
  Session.configOf [("fade"%string, plainSystem)] [7%nat] [] [] None 0.

End Examples.

(** ** The rest of the registry ([src/registry.ts]) and [createRegistry] *)

Module RegistryOps.
Import Registry.

(** [this.plugins.get(name)] *)
Fixpoint getPlugin (plugins : list AnimationPlugin) (n : string)
  : option AnimationPlugin :=
  match plugins with
  | [] => None
  | p :: rest => if String.eqb (name p) n then Some p else getPlugin rest n
  end.

(** [this.plugins.has(name)] *)
Definition hasPlugin (plugins : list AnimationPlugin) (n : string) : bool :=
  bool_decide (is_Some (getPlugin plugins n)).

(** [this.plugins.set(plugin.name, plugin)]: the value of an existing key is
    replaced where it stands, a new key goes to the end. *)
Fixpoint mapSet (p : AnimationPlugin) (plugins : list AnimationPlugin)
  : list AnimationPlugin :=
  match plugins with
  | [] => [p]
  | q :: rest =>
      if String.eqb (name q) (name p) then p :: rest else q :: mapSet p rest
  end.

(** [this.plugins.delete(name)] *)
Fixpoint mapDelete (n : string) (plugins : list AnimationPlugin)
  : list AnimationPlugin :=
  match plugins with
  | [] => []
  | q :: rest => if String.eqb (name q) n then rest else q :: mapDelete n rest
  end.

(** [systems.get(name)] on the [Map] of systems. *)
Fixpoint systemsGet (n : string) (systems : list (string * PluginSystem))
  : option PluginSystem :=
  match systems with
  | [] => None
  | (m, s) :: rest => if String.eqb m n then Some s else systemsGet n rest
  end.

(** What is written to the console with [console.warn]. *)
Inductive Warning :=
| AlreadyRegistered (plugin : string)
| NotFound (plugin : string).

Record Registered := {
  warnings : list Warning;
  registry : list AnimationPlugin;
}.

(** [register(plugin)].  [received] stands for the text
    [JSON.stringify({ name, version, hasSetup })] of the error message. *)
Definition register (received : AnimationPlugin -> string) (p : AnimationPlugin)
    (plugins : list AnimationPlugin) : Outcome Registered :=
  if String.eqb (name p) "" || String.eqb (version p) "" then
    Throw ("Invalid plugin: missing required fields (name, version, setup). "
             ++ "Received: " ++ received p)%string
  else
    Ok {| warnings :=
            if hasPlugin plugins (name p) then [AlreadyRegistered (name p)] else [];
          registry := mapSet p plugins |}.

(** [unregister(name)]: whether the plugin was there, and what is left. *)
Definition unregister (n : string) (plugins : list AnimationPlugin)
  : bool * list AnimationPlugin :=
  (hasPlugin plugins n, mapDelete n plugins).

(** [getRegisteredPlugins()] *)
Definition getRegisteredPlugins (plugins : list AnimationPlugin) : list string :=
  name <$> plugins.

(** Every plugin has a name and a version, and no two have the same name:
    what a registry filled through [register] looks like. *)
Definition wellFormed (plugins : list AnimationPlugin) : Prop :=
  NoDup (name <$> plugins)
  /\ Forall (fun p => name p <> ""%string /\ version p <> ""%string) plugins.

(** Phases 2 and 3 read two more fields of a plugin, [registerWatchers] and
    [contributeToAPI]; they are given here as functions of the plugin.  A
    watcher's stop handle is a number, the contributed API an object. *)
Section Phases.
Variable registerWatchersOf : AnimationPlugin -> option (list nat).
Variable contributeToAPIOf :
  AnimationPlugin -> option (list (string * PluginSystem) -> gmap string JSValue).

(** [sortedPlugins ?? this.sortByPriority(this.getActivePlugins(options))] *)
Definition pluginsOr (plugins : list AnimationPlugin) (options : gmap string JSValue)
    (sorted : option (list AnimationPlugin)) : list AnimationPlugin :=
  default (sortByPriority (getActivePlugins plugins options)) sorted.

Definition registerWatchers (plugins : list AnimationPlugin)
    (options : gmap string JSValue) (sorted : option (list AnimationPlugin))
  : list nat :=
  foldl (fun watchers plugin =>
           match registerWatchersOf plugin with
           | Some ws => watchers ++ ws
           | None => watchers
           end)
        [] (pluginsOr plugins options sorted).

(** [Object.assign(api, plugin.contributeToAPI(systems))]: the keys of the
    contribution replace those of [api]. *)
Definition buildAPI (plugins : list AnimationPlugin)
    (options : gmap string JSValue) (systems : list (string * PluginSystem))
    (sorted : option (list AnimationPlugin)) : gmap string JSValue :=
  foldl (fun api plugin =>
           match contributeToAPIOf plugin with
           | Some contribute => contribute systems ∪ api
           | None => api
           end)
        ∅ (pluginsOr plugins options sorted).

(** The plugin contributes the key [k] to the API. *)
Definition contributes (systems : list (string * PluginSystem))
    (plugin : AnimationPlugin) (k : string) : Prop :=
  exists contribute,
    contributeToAPIOf plugin = Some contribute /\ is_Some (contribute systems !! k).

Record PluginSetupResult := {
  resultSystems : list (string * PluginSystem);
  resultApi : gmap string JSValue;
  resultWatchers : list nat;
}.

(** [setupAll]: the three phases in a row. *)
Definition setupAll (plugins : list AnimationPlugin) (options : gmap string JSValue)
  : list string * Outcome PluginSetupResult :=
  match setupPlugins plugins options with
  | (calls, Ok res) =>
      (calls,
       Ok {| resultSystems := systems res;
             resultApi := buildAPI plugins options (systems res) (Some (sortedPlugins res));
             resultWatchers := registerWatchers plugins options (Some (sortedPlugins res)) |})
  | (calls, Throw e) => (calls, Throw e)
  end.

End Phases.

(** The loop of [createRegistry] over the requested names. *)
Fixpoint createLoop (received : AnimationPlugin -> string)
    (globalRegistry : list AnimationPlugin) (names : list string)
    (acc : Registered) : Outcome Registered :=
  match names with
  | [] => Ok acc
  | n :: rest =>
      match getPlugin globalRegistry n with
      | Some plugin =>
          match register received plugin (registry acc) with
          | Ok r =>
              createLoop received globalRegistry rest
                {| warnings := warnings acc ++ warnings r; registry := registry r |}
          | Throw e => Throw e
          end
      | None =>
          createLoop received globalRegistry rest
            {| warnings := warnings acc ++ [NotFound n]; registry := registry acc |}
      end
  end.

(** [createRegistry(pluginNames)] of [useAnimation.ts]: the global registry
    itself when no names are given, else a new registry with the plugins of
    the global one that are named. *)
Definition createRegistry (received : AnimationPlugin -> string)
    (globalRegistry : list AnimationPlugin) (pluginNames : option (list string))
  : Outcome Registered :=
  match pluginNames with
  | None | Some [] => Ok {| warnings := []; registry := globalRegistry |}
  | Some names =>
      createLoop received globalRegistry names {| warnings := []; registry := [] |}
  end.

End RegistryOps.

(** ** [createRafControls]: a pausable timer on the shared clock *)

Module Timer.

(** The symbols subscribed to the coordinator, in insertion order. *)
Definition symbols (st : Raf.State) : list nat :=
  omap (fun e => fst <$> e) (Raf.callbacks st).

(** Symbols are handed out once: every subscribed symbol is older than the
    next one, and no symbol is subscribed twice. *)
Definition fresh_symbols (st : Raf.State) : Prop :=
  Forall (fun id => id < Raf.nextSymbol st)%nat (symbols st) /\ NoDup (symbols st).

(** The closure variables of one [createRafControls] call, and the calls
    made to the user's callback: timestamp and delta. *)
Record Controls := {
  subscriptionId : option nat;
  lastTimestamp : float;
  reported : list (float * float);
}.

(** A number used as a condition: [0] and [NaN] are falsy. *)
Definition numberTruthy (x : float) : bool :=
  negb (PrimFloat.eqb x 0%float || PrimFloat.is_nan x).

Definition wrappedCallback (timestamp : float) (c : Controls) : Controls :=
  let delta :=
    if numberTruthy (lastTimestamp c)
    then PrimFloat.sub timestamp (lastTimestamp c)
    else 0%float in
  {| subscriptionId := subscriptionId c;
     lastTimestamp := timestamp;
     reported := reported c ++ [(timestamp, delta)] |}.

(** [resume()].  [cb] is what the wrapped callback does to the coordinator
    when the clock invokes it. *)
Definition resume (cb : Raf.FrameCallback) (x : Controls * Raf.State)
  : Controls * Raf.State :=
  match subscriptionId x.1 with
  | Some _ => x
  | None =>
      let '(st', id) := Raf.add cb x.2 in
      ({| subscriptionId := Some id; lastTimestamp := 0%float;
          reported := reported x.1 |}, st')
  end.

(** [pause()] *)
Definition pause (x : Controls * Raf.State) : Controls * Raf.State :=
  match subscriptionId x.1 with
  | None => x
  | Some id =>
      ({| subscriptionId := None; lastTimestamp := 0%float;
          reported := reported x.1 |}, Raf.remove id x.2)
  end.

(** [createRafControls(callback, options)]: [immediate] is
    [options?.immediate], [None] when it is not given. *)
Definition createRafControls (cb : Raf.FrameCallback) (immediate : option bool)
    (st : Raf.State) : Controls * Raf.State :=
  let fresh := {| subscriptionId := None; lastTimestamp := 0%float; reported := [] |} in
  match immediate with
  | Some false => (fresh, st)
  | _ => resume cb (fresh, st)
  end.

Inductive Call := CallPause | CallResume.

Definition call (cb : Raf.FrameCallback) (x : Controls * Raf.State) (c : Call)
  : Controls * Raf.State :=
  match c with
  | CallPause => pause x
  | CallResume => resume cb x
  end.

(** [1] while the timer holds a subscription, else [0]. *)
Definition held (c : Controls) : nat :=
  match subscriptionId c with Some _ => 1 | None => 0 end.

(** What holds of a timer and the clock it was created on, in state [st0]:
    the clock has the subscriptions of [st0] and, at the end, the timer's
    own while it holds one. *)
Definition timer_ok (st0 : Raf.State) (x : Controls * Raf.State) : Prop :=
  fresh_symbols x.2
  /\ (Raf.nextSymbol st0 <= Raf.nextSymbol x.2)%nat
  /\ symbols x.2 = symbols st0 ++ option_list (subscriptionId x.1)
  /\ (forall id, subscriptionId x.1 = Some id -> (Raf.nextSymbol st0 <= id)%nat).

End Timer.

(** ** The event bus ([getEventBus]) used by [emit] and [on] of a session

    A handler is a function object, told apart by a number; a [Set] of
    handlers is the list of its members in insertion order. *)

Module EventBus.

(** [set.add(h)] *)
Definition setAdd (h : nat) (hs : list nat) : list nat :=
  if bool_decide (h ∈ hs) then hs else hs ++ [h].

(** [set.delete(h)] *)
Definition setDelete (h : nat) (hs : list nat) : list nat :=
  filter (fun h' => h' <> h) hs.

(** [on(event, handler)]: the [Map] of handlers afterwards.  The function it
    returns is [off event handler]. *)
Definition on (event : string) (h : nat) (handlers : gmap string (list nat))
  : gmap string (list nat) :=
  <[ event := setAdd h (default [] (handlers !! event)) ]> handlers.

(** The unsubscribe function returned by [on(event, handler)]. *)
Definition off (event : string) (h : nat) (handlers : gmap string (list nat))
  : gmap string (list nat) :=
  match handlers !! event with
  | None => handlers
  | Some hs =>
      match setDelete h hs with
      | [] => delete event handlers
      | rest => <[ event := rest ]> handlers
      end
  end.

(** [emit(event, payload)]: the handlers called, in order, each with the
    payload. *)
Definition emit {P : Type} (event : string) (payload : P)
    (handlers : gmap string (list nat)) : list (nat * P) :=
  (fun h => (h, payload)) <$> default [] (handlers !! event).

(** No handler is twice in a set, and no empty set is kept. *)
Definition tidy (handlers : gmap string (list nat)) : Prop :=
  forall event hs, handlers !! event = Some hs -> NoDup hs /\ hs <> [].

End EventBus.

(** ** Shared state and its consumers ([src/context.ts], [useAnimation])

    The module-level maps [stateCache], [initialStateCache] and
    [stateConsumers], and the callbacks handed to [nextTick] that have not
    run yet, each standing for the state name it will check. *)

Module SharedState.
Import Registry.

(** [options.initialState || {}], of which the two caches keep copies. *)
Inductive Resolved :=
| EmptyObject
| Given (initialState : JSValue).

Definition resolve (initialState : JSValue) : Resolved :=
  if truthy initialState then Given initialState else EmptyObject.

Record Caches := {
  stateCache : gmap string Resolved;
  initialStateCache : gmap string Resolved;
  stateConsumers : gmap string (gset nat);
  deferred : list string;
}.

Definition empty : Caches :=
  {| stateCache := ∅; initialStateCache := ∅; stateConsumers := ∅; deferred := [] |}.

(** A state name used as a condition: absent and [''] are falsy. *)
Definition named (stateName : option string) : option string :=
  match stateName with
  | Some n => if String.eqb n "" then None else Some n
  | None => None
  end.

(** [createAnimationContext], the part on the cache: the state of a name
    that is not cached is seeded from [initialState]. *)
Definition seedState (stateName : option string) (initialState : JSValue)
    (c : Caches) : Caches :=
  match named stateName with
  | None => c
  | Some n =>
      match stateCache c !! n with
      | Some _ => c
      | None =>
          {| stateCache := <[ n := resolve initialState ]> (stateCache c);
             initialStateCache :=
               <[ n := resolve initialState ]> (initialStateCache c);
             stateConsumers := stateConsumers c;
             deferred := deferred c |}
      end
  end.

(** [useAnimation]: the session adds itself to the consumers of its state. *)
Definition registerConsumer (stateName : option string) (consumerId : nat)
    (c : Caches) : Caches :=
  match named stateName with
  | None => c
  | Some n =>
      {| stateCache := stateCache c;
         initialStateCache := initialStateCache c;
         stateConsumers :=
           <[ n := {[ consumerId ]} ∪ default ∅ (stateConsumers c !! n) ]>
             (stateConsumers c);
         deferred := deferred c |}
  end.

(** What a new session does to the maps. *)
Definition acquire (stateName : option string) (initialState : JSValue)
    (consumerId : nat) (c : Caches) : Caches :=
  registerConsumer stateName consumerId (seedState stateName initialState c).

Definition dropState (n : string) (c : Caches) : Caches :=
  {| stateCache := delete n (stateCache c);
     initialStateCache := delete n (initialStateCache c);
     stateConsumers := delete n (stateConsumers c);
     deferred := deferred c |}.

(** [cleanupSharedState(stateName, consumers)] *)
Definition cleanupSharedState (n : string) (consumers : gset nat) (c : Caches)
  : Caches :=
  if bool_decide (size consumers = 0%nat) then dropState n c
  else
    {| stateCache := stateCache c;
       initialStateCache := initialStateCache c;
       stateConsumers := stateConsumers c;
       deferred := deferred c ++ [n] |}.

(** The end of [cleanup()]: the session leaves the consumers of its state. *)
Definition release (stateName : option string) (consumerId : nat) (c : Caches)
  : Caches :=
  match named stateName with
  | None => c
  | Some n =>
      match stateConsumers c !! n with
      | None => c
      | Some consumers =>
          let rest := consumers ∖ {[ consumerId ]} in
          cleanupSharedState n rest
            {| stateCache := stateCache c;
               initialStateCache := initialStateCache c;
               stateConsumers := <[ n := rest ]> (stateConsumers c);
               deferred := deferred c |}
      end
  end.

(** One callback of [nextTick]: the second look at the consumers. *)
Definition recheck (c : Caches) (n : string) : Caches :=
  match stateConsumers c !! n with
  | Some consumers =>
      if bool_decide (size consumers = 0%nat) then dropState n c else c
  | None => dropState n c
  end.

(** The next tick: the callbacks run in the order in which they were handed
    over. *)
Definition tick (c : Caches) : Caches :=
  foldl recheck
    {| stateCache := stateCache c; initialStateCache := initialStateCache c;
       stateConsumers := stateConsumers c; deferred := [] |}
    (deferred c).

Inductive Op :=
| Acquire (stateName : option string) (initialState : JSValue) (consumerId : nat)
| Release (stateName : option string) (consumerId : nat)
| Tick.

Definition perform (c : Caches) (op : Op) : Caches :=
  match op with
  | Acquire n init id => acquire n init id c
  | Release n id => release n id c
  | Tick => tick c
  end.

(** A state is cached exactly under the names that have consumers, and no
    empty set of consumers is kept. *)
Definition counted (c : Caches) : Prop :=
  forall n,
    (is_Some (stateCache c !! n) <-> is_Some (initialStateCache c !! n))
    /\ (is_Some (stateCache c !! n) <-> is_Some (stateConsumers c !! n))
    /\ stateConsumers c !! n <> Some ∅.

End SharedState.

(** ** Sequences of operations on a session *)

Module SessionOps.
Import Session.

Inductive Op :=
| OPlay
| OStop
| OPause
| OResume
| OAutoPlay (playWhen : option bool)
| OAutoStop
| OPlayWhen (shouldPlay : bool)
| OCleanup.

Definition perform (cfg : Config) (s : State) (op : Op) : State :=
  match op with
  | OPlay => play cfg s
  | OStop => stop cfg Manual s
  | OPause => pause cfg s
  | OResume => resume cfg s
  | OAutoPlay playWhen => playAuto cfg playWhen s
  | OAutoStop => stopAuto cfg s
  | OPlayWhen shouldPlay => playWhenChanged cfg shouldPlay s
  | OCleanup => cleanup cfg s
  end.

(** What every session keeps: it is not paused without playing, and while
    the override is [stop] it neither plays nor is paused. *)
Definition steady (s : State) : Prop :=
  (isPaused s = true -> isPlaying s = true)
  /\ (manualOverride s = Some OverrideStop ->
      isPlaying s = false /\ isPaused s = false).

End SessionOps.

(** ** The environment watcher ([createAutoPauseWatcher])

    The watcher of one session: the session, whether the [watch] is still
    running, the handle kept in [debounceHandle], and the timeouts set by
    the watcher that have neither fired nor been cleared.  Handles are
    positive numbers, as [setTimeout] returns them. *)

Module AutoPause.

Record Watcher := {
  session : Session.State;
  watching : bool;
  debounceHandle : option nat;
  timeouts : list nat;
  nextTimeout : nat;
}.

Definition clearTimeout (h : nat) (ts : list nat) : list nat :=
  filter (fun h' => h' <> h) ts.

(** [if (debounceHandle) { clearTimeout(debounceHandle); debounceHandle = null }] *)
Definition clearDebounce (w : Watcher) : Watcher :=
  match debounceHandle w with
  | Some h =>
      {| session := session w; watching := watching w; debounceHandle := None;
         timeouts := clearTimeout h (timeouts w); nextTimeout := nextTimeout w |}
  | None => w
  end.

(** [createAutoPauseWatcher(config)]: for a critical animation no [watch] is
    made. *)
Definition createAutoPauseWatcher (critical : bool) (s : Session.State)
    (next : nat) : Watcher :=
  {| session := s; watching := negb critical; debounceHandle := None;
     timeouts := []; nextTimeout := next |}.

(** The callback of the [watch] on [shouldPauseAnimations]. *)
Definition changed (cfg : Session.Config) (shouldPause : bool) (w : Watcher)
  : Watcher :=
  if negb (watching w) then w
  else
    let w1 := clearDebounce w in
    if shouldPause && Session.isPlaying (session w1) then
      {| session := session w1; watching := watching w1;
         debounceHandle := Some (nextTimeout w1);
         timeouts := timeouts w1 ++ [nextTimeout w1];
         nextTimeout := S (nextTimeout w1) |}
    else if negb shouldPause && Session.isPaused (session w1) then
      {| session := Session.resume cfg (session w1); watching := watching w1;
         debounceHandle := debounceHandle w1; timeouts := timeouts w1;
         nextTimeout := nextTimeout w1 |}
    else w1.

(** The timeout with handle [h] fires, if it is still set. *)
Definition fired (cfg : Session.Config) (h : nat) (w : Watcher) : Watcher :=
  if bool_decide (h ∈ timeouts w) then
    {| session := if Session.isPlaying (session w)
                  then Session.pause cfg (session w) else session w;
       watching := watching w; debounceHandle := None;
       timeouts := clearTimeout h (timeouts w); nextTimeout := nextTimeout w |}
  else w.

(** The function that [createAutoPauseWatcher] returns. *)
Definition stopWatcher (w : Watcher) : Watcher :=
  let w1 := clearDebounce w in
  {| session := session w1; watching := false;
     debounceHandle := debounceHandle w1; timeouts := timeouts w1;
     nextTimeout := nextTimeout w1 |}.

(** What happens around the watcher: the environment changes, a timeout
    fires, the watcher is stopped, or something is done to the session. *)
Inductive Event :=
| Changed (shouldPause : bool)
| Fired (h : nat)
| Stopped
| Does (op : SessionOps.Op).

Definition handle (cfg : Session.Config) (w : Watcher) (e : Event) : Watcher :=
  match e with
  | Changed shouldPause => changed cfg shouldPause w
  | Fired h => fired cfg h w
  | Stopped => stopWatcher w
  | Does op =>
      {| session := SessionOps.perform cfg (session w) op;
         watching := watching w; debounceHandle := debounceHandle w;
         timeouts := timeouts w; nextTimeout := nextTimeout w |}
  end.

Definition environmental (e : Event) : bool :=
  match e with
  | Changed _ | Fired _ => true
  | Stopped | Does _ => false
  end.

(** The only timeout that is set is the one whose handle is kept, and none
    is set once the watcher is stopped. *)
Definition debounced (w : Watcher) : Prop :=
  timeouts w = option_list (debounceHandle w)
  /\ (watching w = false -> debounceHandle w = None).

End AutoPause.

(** ** The pool of resize observations ([ResizeObserverManager])

    Elements and callbacks are told apart by numbers.  The browser's
    [ResizeObserver] is the set of elements it observes; [observer] is
    [None] while the manager has none.  The manager is modelled where
    [window] and [ResizeObserver] exist and the element is given. *)

Module ResizePool.

Record Manager := {
  observer : option (gset nat);
  targets : gmap nat (list nat);
}.

Definition initial : Manager :=
  {| observer := None; targets := ∅ |}.

(** [ensureObserver()] *)
Definition ensureObserver (m : Manager) : Manager :=
  match observer m with
  | Some _ => m
  | None => {| observer := Some ∅; targets := targets m |}
  end.

(** [observe(element, callback)]; the function it returns is
    [unobserve element callback]. *)
Definition observe (element callback : nat) (m : Manager) : Manager :=
  let m1 := ensureObserver m in
  let m2 :=
    match targets m1 !! element with
    | Some _ => m1
    | None =>
        {| observer := (fun observed => {[ element ]} ∪ observed) <$> observer m1;
           targets := <[ element := [] ]> (targets m1) |}
    end in
  {| observer := observer m2;
     targets := <[ element := EventBus.setAdd callback
                                (default [] (targets m2 !! element)) ]>
                  (targets m2) |}.

Definition unobserve (element callback : nat) (m : Manager) : Manager :=
  match targets m !! element with
  | None => m
  | Some callbacks =>
      let m1 :=
        match EventBus.setDelete callback callbacks with
        | [] =>
            {| observer := (fun observed => observed ∖ {[ element ]}) <$> observer m;
               targets := delete element (targets m) |}
        | rest =>
            {| observer := observer m;
               targets := <[ element := rest ]> (targets m) |}
        end in
      if bool_decide (size (targets m1) = 0%nat) && bool_decide (is_Some (observer m1))
      then {| observer := None; targets := targets m1 |}
      else m1
  end.

(** The callback of the browser's observer for one entry: the callbacks
    called, in order. *)
Definition deliver (element : nat) (m : Manager) : list nat :=
  default [] (targets m !! element).

Inductive Op :=
| Observe (element callback : nat)
| Unobserve (element callback : nat).

Definition perform (m : Manager) (op : Op) : Manager :=
  match op with
  | Observe element callback => observe element callback m
  | Unobserve element callback => unobserve element callback m
  end.

(** The browser's observer exists exactly while there are targets, and it
    observes exactly the targets; no target is kept without a callback. *)
Definition pooled (m : Manager) : Prop :=
  observer m = (if bool_decide (targets m = ∅) then None else Some (dom (targets m)))
  /\ (forall element callbacks,
        targets m !! element = Some callbacks ->
        NoDup callbacks /\ callbacks <> []).

End ResizePool.

(** ** More concrete inputs *)

Module MoreExamples.
Import Registry RegistryOps Examples.

(** A stand-in for [JSON.stringify] of the error message of [register]. *)
Definition received (p : AnimationPlugin) : string := name p.

(** A plugin whose [setup] throws. *)
Definition broken : AnimationPlugin :=
  {| name := "broken"; version := "1.0.0"; setup := fun _ => Throw "boom";
     shouldActivate := None; optionsKey := None;
     requires := None; conflicts := None;
     priority := Some 50; cleanupPriority := None |}.

(** [first] (priority 100), [broken] (50), [last] (10). *)
Definition brokenRegistry : list AnimationPlugin :=
  [ plugin "last" None None (Some 10); broken; plugin "first" None None (Some 100) ].

(** [{ first: true, broken: true, last: true }] *)
Definition allThree : gmap string JSValue :=
  <[ "first"%string := VBool true ]>
    (<[ "broken"%string := VBool true ]> {[ "last"%string := VBool true ]}).

(** [first] contributes [{ play: 1 }] to the API, [last] contributes
    [{ play: 2 }], and no other plugin contributes anything. *)
Definition contributePlay (p : AnimationPlugin)
  : option (list (string * PluginSystem) -> gmap string JSValue) :=
  if String.eqb (name p) "first" then
    Some (fun _ => {[ "play"%string := VNumber 1%float ]})
  else if String.eqb (name p) "last" then
    Some (fun _ => {[ "play"%string := VNumber 2%float ]})
  else None.

End MoreExamples.

(** * Properties *)

(** ** Stagger delays *)

Module StaggerFacts.
Import Stagger Examples.

(** C6 (the code at the inputs of the claim): from start and from end the
    delays of three elements are [0, 100, 200] and [200, 100, 0]; from the
    centre the delays of four elements are [200, 100, 0, 100], so the first
    and the last element do not get the same delay. *)
Theorem linear_delays_at_claimed_inputs :
  calculateStaggerDelays 3 (linearOptions FromStart) = [0; 100; 200]%float
  /\ calculateStaggerDelays 3 (linearOptions FromEnd) = [200; 100; 0]%float
  /\ calculateStaggerDelays 4 (linearOptions FromCenter) = [200; 100; 0; 100]%float
  /\ calculateStaggerDelays 4 (linearOptions FromCenter) !! 0%nat
     <> calculateStaggerDelays 4 (linearOptions FromCenter) !! 3%nat.
Proof.
  repeat split; try (vm_compute; reflexivity).
  vm_compute. intros H. inversion H.
Qed.

(** C7 (the code at the input of the claim): in the 2 x 2 grid from the
    centre the element at (0,0) is delayed by [sqrt 2 * 100] and the element
    at (1,1) by [0]; the four delays are non-negative. *)
Theorem grid_center_delays_at_claimed_input :
  calculateStaggerDelays 4 (gridOptions FromCenter)
  = [PrimFloat.mul (PrimFloat.sqrt 2) 100; 100; 100; 0]%float
  /\ PrimFloat.eqb (PrimFloat.mul (PrimFloat.sqrt 2) 100) 0 = false
  /\ Forall (fun d => PrimFloat.leb 0 d = true)
            (calculateStaggerDelays 4 (gridOptions FromCenter)).
Proof.
  split; [vm_compute; reflexivity|].
  split; [vm_compute; reflexivity|].
  vm_compute. repeat constructor.
Qed.

End StaggerFacts.

(** ** The registry *)

Module RegistryFacts.
Import Registry Examples.

Lemma append_assoc (a b c : string) : ((a ++ b) ++ c = a ++ (b ++ c))%string.
Proof.
  induction a as [|ch a IH]; [done|].
  change (String ch ((a ++ b) ++ c) = String ch (a ++ (b ++ c)))%string.
  by rewrite IH.
Qed.

Lemma mentions_intro (pre s post : string) : mentions (pre ++ s ++ post) s.
Proof. by exists pre, post. Qed.

Lemma requiresError_mentions plugin required :
  mentions (requiresError plugin required) plugin
  /\ mentions (requiresError plugin required) required.
Proof.
  unfold requiresError. split.
  - apply mentions_intro.
  - exists ("Plugin '" ++ plugin ++ "' requires '")%string,
      ("' but it is not enabled. Add " ++ required
         ++ ": {...} to your options.")%string.
    by rewrite !append_assoc.
Qed.

Lemma conflictError_mentions plugin conflict :
  mentions (conflictError plugin conflict) plugin
  /\ mentions (conflictError plugin conflict) conflict.
Proof.
  unfold conflictError. split.
  - apply mentions_intro.
  - exists ("Plugin '" ++ plugin ++ "' conflicts with '")%string,
      "'. You cannot use both plugins simultaneously."%string.
    by rewrite !append_assoc.
Qed.

Section ForEachCheck.
Context {X : Type} (check : X -> Outcome unit).

Lemma forEachCheck_Ok xs :
  forEachCheck check xs = Ok tt <-> forall x, x ∈ xs -> check x = Ok tt.
Proof.
  induction xs as [|x xs IH]; simpl.
  - split; [intros _ x Hx; inversion Hx | done].
  - unfold mbind, outcome_bind. destruct (check x) as [[]|msg] eqn:Hx.
    + rewrite IH. split.
      * intros H y Hy. apply elem_of_cons in Hy as [->|Hy]; auto.
      * intros H y Hy. apply H. by right.
    + split; [done|]. intros H.
      specialize (H x (list_elem_of_here _ _)). congruence.
Qed.

Lemma forEachCheck_Throw xs msg :
  forEachCheck check xs = Throw msg -> exists x, x ∈ xs /\ check x = Throw msg.
Proof.
  induction xs as [|x xs IH]; simpl; [done|].
  unfold mbind, outcome_bind. destruct (check x) as [[]|msg'] eqn:Hx.
  - intros H. destruct (IH H) as (y & Hy & Hc). exists y. split; [by right|done].
  - intros [= <-]. exists x. split; [by left|done].
Qed.

End ForEachCheck.

Lemma elem_of_activeNames n active :
  n ∈ activeNames active <-> exists p, p ∈ active /\ name p = n.
Proof.
  unfold activeNames. rewrite elem_of_list_to_set, list_elem_of_fmap.
  split; [intros (p & -> & Hp) | intros (p & Hp & <-)]; eauto.
Qed.

Lemma elem_of_getActivePlugins p plugins options :
  p ∈ getActivePlugins plugins options
  <-> p ∈ plugins /\ activates options p = true.
Proof. unfold getActivePlugins. rewrite list_elem_of_filter. tauto. Qed.

(** Dependency validation passes exactly when every required entry, cut at
    its first dot, names an active plugin. *)
Lemma validateDependencies_Ok active :
  validateDependencies active = Ok tt
  <-> forall p reqs r,
        p ∈ active -> requires p = Some reqs -> r ∈ reqs ->
        requiredPlugin r ∈ activeNames active.
Proof.
  unfold validateDependencies. rewrite forEachCheck_Ok. split.
  - intros H p reqs r Hp Hreq Hr. specialize (H p Hp). rewrite Hreq in H.
    rewrite forEachCheck_Ok in H. specialize (H r Hr).
    by case_bool_decide.
  - intros H p Hp. destruct (requires p) as [reqs|] eqn:Hreq; [|done].
    apply forEachCheck_Ok. intros r Hr.
    rewrite bool_decide_eq_true_2; [done|]. eauto.
Qed.

Lemma validateDependencies_Throw active msg :
  validateDependencies active = Throw msg ->
  exists p reqs r,
    p ∈ active /\ requires p = Some reqs /\ r ∈ reqs
    /\ (requiredPlugin r ∉ activeNames active)
    /\ msg = requiresError (name p) (requiredPlugin r).
Proof.
  unfold validateDependencies. intros H.
  apply forEachCheck_Throw in H as (p & Hp & H).
  destruct (requires p) as [reqs|] eqn:Hreq; [|done].
  apply forEachCheck_Throw in H as (r & Hr & H).
  case_bool_decide; [done|]. injection H as <-.
  by exists p, reqs, r.
Qed.

(** Dependency validation accepts the active plugins exactly when every
    entry of every [requires] list, cut at its first dot, is the name of an
    active plugin. *)
Theorem dependencies_accepted_iff active :
  validateDependencies active = Ok tt
  <-> forall p reqs r,
        p ∈ active -> requires p = Some reqs -> r ∈ reqs ->
        requiredPlugin r ∈ activeNames active.
Proof. apply validateDependencies_Ok. Qed.

Lemma checkConflicts_Ok active :
  checkConflicts active = Ok tt
  <-> forall p cs c,
        p ∈ active -> conflicts p = Some cs -> c ∈ cs ->
        c ∉ activeNames active.
Proof.
  unfold checkConflicts. rewrite forEachCheck_Ok. split.
  - intros H p cs c Hp Hcs Hc. specialize (H p Hp). rewrite Hcs in H.
    rewrite forEachCheck_Ok in H. specialize (H c Hc).
    by case_bool_decide.
  - intros H p Hp. destruct (conflicts p) as [cs|] eqn:Hcs; [|done].
    apply forEachCheck_Ok. intros c Hc.
    rewrite bool_decide_eq_false_2; [done|]. eauto.
Qed.

Lemma checkConflicts_Throw active msg :
  checkConflicts active = Throw msg ->
  exists p cs c,
    p ∈ active /\ conflicts p = Some cs /\ c ∈ cs
    /\ c ∈ activeNames active
    /\ msg = conflictError (name p) c.
Proof.
  unfold checkConflicts. intros H.
  apply forEachCheck_Throw in H as (p & Hp & H).
  destruct (conflicts p) as [cs|] eqn:Hcs; [|done].
  apply forEachCheck_Throw in H as (c & Hc & H).
  case_bool_decide; [|done]. injection H as <-.
  by exists p, cs, c.
Qed.

(** C1: when an active plugin has an unmet hard dependency or declares a
    conflict with an active plugin, [setupPlugins] throws with no [setup]
    invoked, and the message of the error names a plugin and the other name
    of such a pair. *)
Theorem setupPlugins_rejects_before_setup plugins options :
  let active := getActivePlugins plugins options in
  (exists p other, p ∈ active /\ (unmet active p other \/ clash active p other)) ->
  exists msg p other,
    setupPlugins plugins options = ([], Throw msg)
    /\ p ∈ active
    /\ (unmet active p other \/ clash active p other)
    /\ mentions msg (name p) /\ mentions msg other.
Proof.
  intros active (p & other & Hp & Hbad). unfold setupPlugins. fold active.
  destruct (validateDependencies active) as [[]|msg] eqn:Hdep.
  - destruct (checkConflicts active) as [[]|msg] eqn:Hcfl.
    + exfalso. destruct Hbad as [(reqs & r & Hreq & Hr & <- & Hnot)|(cs & Hcs & Hc & Hin)].
      * apply Hnot. eapply validateDependencies_Ok; eauto.
      * eapply checkConflicts_Ok; eauto.
    + apply checkConflicts_Throw in Hcfl as (q & cs & c & Hq & Hcs & Hc & Hin & ->).
      exists (conflictError (name q) c), q, c.
      destruct (conflictError_mentions (name q) c).
      repeat split; try done. right. by exists cs.
  - apply validateDependencies_Throw in Hdep as (q & reqs & r & Hq & Hreq & Hr & Hnot & ->).
    exists (requiresError (name q) (requiredPlugin r)), q, (requiredPlugin r).
    destruct (requiresError_mentions (name q) (requiredPlugin r)).
    repeat split; try done. left. by exists reqs, r.
Qed.

Lemma setupPlugins_rejects_witness :
  exists msg p other,
    setupPlugins namespacedRegistry consumerOnly = ([], Throw msg)
    /\ p ∈ getActivePlugins namespacedRegistry consumerOnly
    /\ (unmet (getActivePlugins namespacedRegistry consumerOnly) p other
        \/ clash (getActivePlugins namespacedRegistry consumerOnly) p other)
    /\ mentions msg (name p) /\ mentions msg other.
Proof.
  apply (setupPlugins_rejects_before_setup namespacedRegistry consumerOnly).
  exists (plugin "consumer" (Some ["responsive.scale"%string]) None None),
    "responsive"%string.
  split.
  - apply elem_of_getActivePlugins. split.
    + unfold namespacedRegistry. apply list_elem_of_further, list_elem_of_here.
    + vm_compute. reflexivity.
  - left. exists ["responsive.scale"%string], "responsive.scale"%string.
    split; [reflexivity|]. split; [apply list_elem_of_here|].
    split; [reflexivity|].
    apply (bool_decide_unpack _). vm_compute. exact I.
Defined.

(** *** Activation *)

Lemma hasPluginOptions_true p options :
  hasPluginOptions p options = true
  <-> readOption options (keyOf p) <> VUndefined
      /\ readOption options (keyOf p) <> VNull
      /\ readOption options (keyOf p) <> VBool false.
Proof.
  unfold hasPluginOptions.
  destruct (readOption options (keyOf p)) as [| |[]| | |]; split;
    try done; try (intros (? & ? & ?); congruence).
Qed.

(** A truthy value under the key always activates. *)
Lemma truthy_hasPluginOptions p options :
  truthy (readOption options (keyOf p)) = true -> hasPluginOptions p options = true.
Proof.
  unfold hasPluginOptions. by destruct (readOption options (keyOf p)).
Qed.

(** The half of the activation rule that holds for truthiness: a registered
    plugin without activation predicate is active whenever the value under
    its option key is truthy. *)
Theorem truthy_value_activates plugins options p :
  shouldActivate p = None ->
  p ∈ plugins ->
  truthy (readOption options (keyOf p)) = true ->
  p ∈ getActivePlugins plugins options.
Proof.
  intros Hnone Hin Htruthy. apply elem_of_getActivePlugins. split; [done|].
  unfold activates. rewrite Hnone. by apply truthy_hasPluginOptions.
Qed.

Lemma truthy_value_activates_witness :
  plugin "consumer" None None None
  ∈ getActivePlugins [plugin "consumer" None None None] consumerOnly.
Proof.
  apply (truthy_value_activates [plugin "consumer" None None None] consumerOnly
           (plugin "consumer" None None None)).
  - reflexivity.
  - apply list_elem_of_here.
  - vm_compute. reflexivity.
Defined.

(** C9 as stated fails: the falsy values [0] and [''] under the key of a
    plugin without activation predicate put it in the Activation Set. *)
Lemma falsy_values_activate :
  let fade := plugin "fade" None None None in
  shouldActivate fade = None
  /\ truthy (readOption zeroOptions (keyOf fade)) = false
  /\ fade ∈ getActivePlugins [fade] zeroOptions
  /\ truthy (readOption emptyStringOptions (keyOf fade)) = false
  /\ fade ∈ getActivePlugins [fade] emptyStringOptions.
Proof.
  intros fade. split; [reflexivity|].
  split; [vm_compute; reflexivity|].
  split; [apply elem_of_getActivePlugins; split;
          [apply list_elem_of_here | vm_compute; reflexivity]|].
  split; [vm_compute; reflexivity|].
  apply elem_of_getActivePlugins; split;
    [apply list_elem_of_here | vm_compute; reflexivity].
Qed.

(** C9, amended: a registered plugin without activation predicate is in the
    Activation Set exactly when the value under its option key ([optionsKey],
    or its name when that is absent or empty) is not [undefined], not [null]
    and not [false]. *)
Theorem default_activation plugins options p :
  shouldActivate p = None ->
  (p ∈ getActivePlugins plugins options
   <-> p ∈ plugins
       /\ readOption options (keyOf p) <> VUndefined
       /\ readOption options (keyOf p) <> VNull
       /\ readOption options (keyOf p) <> VBool false).
Proof.
  intros Hnone. rewrite elem_of_getActivePlugins.
  unfold activates. rewrite Hnone, hasPluginOptions_true. tauto.
Qed.

Lemma default_activation_witness :
  plugin "fade" None None None ∈ getActivePlugins [plugin "fade" None None None] zeroOptions
  <-> plugin "fade" None None None ∈ [plugin "fade" None None None]
      /\ readOption zeroOptions (keyOf (plugin "fade" None None None)) <> VUndefined
      /\ readOption zeroOptions (keyOf (plugin "fade" None None None)) <> VNull
      /\ readOption zeroOptions (keyOf (plugin "fade" None None None)) <> VBool false.
Proof.
  apply (default_activation [plugin "fade" None None None] zeroOptions
           (plugin "fade" None None None)).
  reflexivity.
Defined.

(** *** Namespaced requirements *)

Lemma requiredPlugin_namespaced plugin key :
  namespacedKey plugin key -> requiredPlugin key = plugin.
Proof.
  intros (Hfree & suffix & -> & Hsuffix).
  induction plugin as [|c plugin IH].
  - destruct Hsuffix as [->|(capability & ->)]; reflexivity.
  - simpl in Hfree. apply andb_true_iff in Hfree as [Hc Hfree].
    change (String c plugin ++ suffix)%string with (String c (plugin ++ suffix)%string).
    simpl. apply negb_true_iff in Hc. rewrite Hc. f_equal. by apply IH.
Qed.

(** The loop over the sorted plugins, when no [setup] throws: every plugin's
    [setup] is invoked, in the order of the list. *)
Lemma setupLoop_all_ok options sorted calls systems :
  (forall p, p ∈ sorted ->
     exists system, setup p (extractPluginOptions p options) = Ok system) ->
  exists systems',
    setupLoop options sorted calls systems = (calls ++ (name <$> sorted), Ok systems').
Proof.
  revert calls systems.
  induction sorted as [|p sorted IH]; intros calls systems Hok; simpl.
  - exists systems. by rewrite app_nil_r.
  - destruct (Hok p (list_elem_of_here _ _)) as [system ->].
    destruct (IH (calls ++ [name p]) (systemsSet (name p) system systems))
      as [systems' ->].
    { intros q Hq. apply Hok. by right. }
    exists systems'. by rewrite <- app_assoc.
Qed.

Lemma setupPlugins_accepts plugins options :
  let active := getActivePlugins plugins options in
  validateDependencies active = Ok tt ->
  checkConflicts active = Ok tt ->
  (forall p, p ∈ sortByPriority active ->
     exists system, setup p (extractPluginOptions p options) = Ok system) ->
  exists systems',
    setupPlugins plugins options
    = (name <$> sortByPriority active,
       Ok {| systems := systems'; sortedPlugins := sortByPriority active |}).
Proof.
  intros active Hdep Hcfl Hok. unfold setupPlugins. fold active.
  rewrite Hdep, Hcfl.
  destruct (setupLoop_all_ok options (sortByPriority active) [] [] Hok)
    as [systems' ->].
  by exists systems'.
Qed.

(** C10: dependency validation looks at the part of a required entry before
    its first dot only.  When every entry required by an active plugin is the
    name of an active plugin, alone or followed by a dot and any capability
    name at all, the dependencies are accepted: if also no conflict is
    declared between active plugins and no [setup] throws, [setupPlugins]
    invokes the setups in priority order and returns. *)
Theorem namespaced_requirement_prefix_only plugins options :
  let active := getActivePlugins plugins options in
  (forall p reqs key,
     p ∈ active -> requires p = Some reqs -> key ∈ reqs ->
     exists q, q ∈ active /\ namespacedKey (name q) key) ->
  checkConflicts active = Ok tt ->
  (forall p, p ∈ sortByPriority active ->
     exists system, setup p (extractPluginOptions p options) = Ok system) ->
  validateDependencies active = Ok tt
  /\ exists systems',
       setupPlugins plugins options
       = (name <$> sortByPriority active,
          Ok {| systems := systems'; sortedPlugins := sortByPriority active |}).
Proof.
  intros active Hreq Hcfl Hok.
  assert (Hdep : validateDependencies active = Ok tt).
  { apply validateDependencies_Ok. intros p reqs key Hp Hreqs Hkey.
    destruct (Hreq p reqs key Hp Hreqs Hkey) as (q & Hq & Hns).
    rewrite (requiredPlugin_namespaced _ _ Hns).
    apply elem_of_activeNames. eauto. }
  split; [done|]. by apply setupPlugins_accepts.
Qed.

Lemma namespaced_requirement_witness :
  validateDependencies (getActivePlugins namespacedRegistry consumerAndResponsive) = Ok tt
  /\ exists systems',
       setupPlugins namespacedRegistry consumerAndResponsive
       = (name <$> sortByPriority (getActivePlugins namespacedRegistry consumerAndResponsive),
          Ok {| systems := systems';
                sortedPlugins :=
                  sortByPriority (getActivePlugins namespacedRegistry consumerAndResponsive) |}).
Proof.
  assert (Hactive : getActivePlugins namespacedRegistry consumerAndResponsive
                    = namespacedRegistry) by (vm_compute; reflexivity).
  apply (namespaced_requirement_prefix_only namespacedRegistry consumerAndResponsive).
  - rewrite Hactive. intros p reqs key Hp Hreqs Hkey.
    exists (plugin "responsive" None None (Some 100)).
    split; [apply list_elem_of_here|].
    unfold namespacedRegistry in Hp.
    apply elem_of_cons in Hp as [->|Hp]; [discriminate Hreqs|].
    apply list_elem_of_singleton in Hp as ->.
    injection Hreqs as <-. apply list_elem_of_singleton in Hkey as ->.
    split; [reflexivity|]. exists ".scale"%string. split; [reflexivity|].
    right. by exists "scale"%string.
  - vm_compute. reflexivity.
  - rewrite Hactive.
    assert (Hsorted : sortByPriority namespacedRegistry = namespacedRegistry)
      by (vm_compute; reflexivity).
    rewrite Hsorted. intros p Hp. exists plainSystem.
    unfold namespacedRegistry in Hp.
    apply elem_of_cons in Hp as [->|Hp]; [reflexivity|].
    apply list_elem_of_singleton in Hp as ->. reflexivity.
Defined.

End RegistryFacts.

(** ** [Array.prototype.sort] with a comparator that compares keys *)

Section JsSortFacts.
Context {A : Type} (key : A -> Z) (cmp : A -> A -> Z).
Hypothesis cmp_key : forall a b, 0 < cmp a b <-> key b < key a.

Let le_key (a b : A) : Prop := key a <= key b.
Let lt_key (a b : A) : Prop := key a < key b.

Lemma sort_insert_perm x l : sort_insert cmp x l ≡ₚ x :: l.
Proof.
  induction l as [|y l IH]; simpl; [done|].
  destruct (0 <? cmp x y); [|done].
  rewrite IH. apply Permutation_swap.
Qed.

Lemma js_sort_perm l : js_sort cmp l ≡ₚ l.
Proof.
  induction l as [|x l IH]; simpl; [done|].
  unfold js_sort in *. simpl. by rewrite sort_insert_perm, IH.
Qed.

Lemma sort_insert_sorted x l :
  StronglySorted le_key l -> StronglySorted le_key (sort_insert cmp x l).
Proof.
  induction 1 as [|y l Hl IH Hy]; simpl.
  - repeat constructor.
  - destruct (0 <? cmp x y) eqn:Hc.
    + apply Z.ltb_lt, cmp_key in Hc. constructor; [done|].
      rewrite sort_insert_perm. constructor; [|done]. unfold le_key. lia.
    + apply Z.ltb_ge in Hc.
      assert (Hxy : key x <= key y).
      { destruct (Z.le_gt_cases (key x) (key y)) as [|Hgt]; [done|].
        apply Z.gt_lt_iff in Hgt. apply Z.gt_lt, cmp_key in Hgt. lia. }
      constructor; [by constructor|].
      constructor; [done|].
      eapply Forall_impl; [exact Hy|]. unfold le_key. intros z Hz. simpl in *. lia.
Qed.

Lemma js_sort_sorted l : StronglySorted le_key (js_sort cmp l).
Proof.
  induction l as [|x l IH]; [constructor|].
  unfold js_sort in *. simpl. by apply sort_insert_sorted.
Qed.

(** Stability: an element is inserted in front of the elements of the same
    key. *)
Lemma sort_insert_stable x l k :
  filter (fun a => key a = k) (sort_insert cmp x l)
  = filter (fun a => key a = k) (x :: l).
Proof.
  induction l as [|y l IH]; simpl; [done|].
  destruct (0 <? cmp x y) eqn:Hc; [|done].
  apply Z.ltb_lt, cmp_key in Hc.
  rewrite !filter_cons in *. rewrite IH.
  repeat case_decide; try done; lia.
Qed.

Lemma js_sort_stable l k :
  filter (fun a => key a = k) (js_sort cmp l) = filter (fun a => key a = k) l.
Proof.
  induction l as [|x l IH]; [done|].
  unfold js_sort in *. simpl. rewrite sort_insert_stable, !filter_cons.
  by rewrite IH.
Qed.

End JsSortFacts.

Section SortedLists.
Context {A : Type}.

Lemma StronglySorted_reverse (R : relation A) (l : list A) :
  StronglySorted R l -> StronglySorted (flip R) (reverse l).
Proof.
  induction 1 as [|x l Hl IH Hx]; [constructor|].
  rewrite reverse_cons. apply StronglySorted_app_2.
  - intros y z Hy Hz. apply list_elem_of_singleton in Hz as ->.
    rewrite elem_of_reverse in Hy. rewrite Forall_forall in Hx. by apply Hx.
  - done.
  - repeat constructor.
Qed.

Lemma StronglySorted_change (R R' : relation A) (l : list A) :
  (forall x y, x ∈ l -> y ∈ l -> R x y -> R' x y) ->
  StronglySorted R l -> StronglySorted R' l.
Proof.
  intros Himpl Hl. induction Hl as [|x l Hl IH Hx]; constructor.
  - apply IH. intros y z Hy Hz. apply Himpl; by right.
  - rewrite Forall_forall in *. intros y Hy.
    apply Himpl; [by left|by right|by apply Hx].
Qed.

Lemma filter_change (P Q : A -> Prop)
    `{!forall x, Decision (P x)} `{!forall x, Decision (Q x)} (l : list A) :
  (forall x, x ∈ l -> P x <-> Q x) -> filter P l = filter Q l.
Proof.
  induction l as [|x l IH]; intros Hiff; [done|].
  rewrite !filter_cons. rewrite IH by (intros y Hy; apply Hiff; by right).
  destruct (Hiff x (list_elem_of_here _ _)).
  repeat case_decide; tauto.
Qed.

Lemma NoDup_fmap_eq {B} (f : A -> B) (l : list A) x y :
  NoDup (f <$> l) -> x ∈ l -> y ∈ l -> f x = f y -> x = y.
Proof.
  induction l as [|z l IH]; intros Hnd Hx Hy Hf; [by inversion Hx|].
  rewrite fmap_cons in Hnd. apply NoDup_cons in Hnd as [Hz Hnd].
  apply elem_of_cons in Hx as [->|Hx]; apply elem_of_cons in Hy as [->|Hy].
  - done.
  - exfalso. apply Hz. rewrite Hf. by apply list_elem_of_fmap_2.
  - exfalso. apply Hz. rewrite <- Hf. by apply list_elem_of_fmap_2.
  - by apply IH.
Qed.

End SortedLists.

(** ** Setup order and cleanup order *)

Module OrderFacts.
Import Registry Examples.

Lemma priority_cmp a b :
  0 < priorityOf b - priorityOf a <-> - priorityOf b < - priorityOf a.
Proof. lia. Qed.

Lemma cleanup_cmp a b :
  0 < cleanupPriorityOf a - cleanupPriorityOf b
  <-> cleanupPriorityOf b < cleanupPriorityOf a.
Proof. lia. Qed.

(** Setup order: the active plugins by descending priority, plugins of equal
    priority in their registration order. *)
Lemma sortByPriority_perm_sorted_stable plugins :
  sortByPriority plugins ≡ₚ plugins
  /\ StronglySorted (flip byPriority) (sortByPriority plugins)
  /\ forall k, filter (fun p => priorityOf p = k) (sortByPriority plugins)
               = filter (fun p => priorityOf p = k) plugins.
Proof.
  unfold sortByPriority. split; [|split].
  - apply js_sort_perm.
  - eapply StronglySorted_change;
      [|apply (js_sort_sorted (fun p => - priorityOf p) _ priority_cmp)].
    unfold flip, byPriority. intros x y _ _ Hxy. simpl in Hxy. lia.
  - intros k.
    rewrite (filter_change (fun p => priorityOf p = k)
                           (fun p => - priorityOf p = - k))
      by (intros; lia).
    rewrite (js_sort_stable (fun p => - priorityOf p) _ priority_cmp).
    apply filter_change. intros; lia.
Qed.

(** The cleanup order holds the same plugins, by ascending cleanup priority. *)
Lemma getCleanupOrder_perm_sorted plugins :
  getCleanupOrder plugins ≡ₚ plugins
  /\ StronglySorted byCleanupPriority (getCleanupOrder plugins).
Proof.
  unfold getCleanupOrder. split.
  - rewrite js_sort_perm. apply js_sort_perm.
  - apply (js_sort_sorted cleanupPriorityOf _ cleanup_cmp).
Qed.

Lemma noOverride_cleanupPriorityOf p :
  noOverride p -> cleanupPriorityOf p = priorityOf p.
Proof. unfold noOverride, cleanupPriorityOf. by intros ->. Qed.

(** Without overrides, plugins of equal priority are cleaned up in their
    registration order, the order in which they are set up. *)
Lemma getCleanupOrder_ties_in_registration_order plugins k :
  Forall noOverride plugins ->
  filter (fun p => priorityOf p = k) (getCleanupOrder plugins)
  = filter (fun p => priorityOf p = k) plugins.
Proof.
  intros Hno. rewrite Forall_forall in Hno.
  destruct (sortByPriority_perm_sorted_stable plugins) as (Hperm & _ & Hstable).
  destruct (getCleanupOrder_perm_sorted plugins) as (Hperm' & _).
  rewrite <- Hstable.
  rewrite (filter_change (fun p => priorityOf p = k)
                         (fun p => cleanupPriorityOf p = k)).
  2:{ intros p Hp. rewrite noOverride_cleanupPriorityOf; [done|].
      apply Hno. by rewrite <- Hperm'. }
  unfold getCleanupOrder.
  rewrite (js_sort_stable cleanupPriorityOf _ cleanup_cmp).
  apply filter_change. intros p Hp.
  rewrite noOverride_cleanupPriorityOf; [done|]. apply Hno. by rewrite <- Hperm.
Qed.

(** Without overrides and with pairwise distinct priorities the cleanup order
    is the setup order reversed. *)
Lemma getCleanupOrder_reverse_of_setup plugins :
  Forall noOverride plugins ->
  NoDup (priorityOf <$> plugins) ->
  getCleanupOrder plugins = reverse (sortByPriority plugins).
Proof.
  intros Hno Hnd. rewrite Forall_forall in Hno.
  destruct (sortByPriority_perm_sorted_stable plugins) as (Hperm & Hdesc & _).
  destruct (getCleanupOrder_perm_sorted plugins) as (Hperm' & Hasc).
  apply (StronglySorted_unique_strong byPriority).
  - intros x y Hx Hy Hxy Hyx. unfold byPriority in *.
    apply (NoDup_fmap_eq priorityOf plugins); [done| | |lia].
    + by rewrite <- Hperm'.
    + rewrite <- Hperm. by apply elem_of_reverse.
  - eapply StronglySorted_change; [|exact Hasc].
    intros x y Hx Hy. unfold byCleanupPriority, byPriority.
    rewrite !noOverride_cleanupPriorityOf; [done|..]; apply Hno; by rewrite <- Hperm'.
  - apply StronglySorted_reverse in Hdesc.
    eapply StronglySorted_change; [|exact Hdesc]. by unfold flip.
  - by rewrite Hperm', reverse_Permutation, Hperm.
Qed.

Lemma getCleanupOrder_ties_witness :
  filter (fun p => priorityOf p = 50) (getCleanupOrder equalPriorityRegistry)
  = filter (fun p => priorityOf p = 50) equalPriorityRegistry.
Proof.
  apply (getCleanupOrder_ties_in_registration_order equalPriorityRegistry 50).
  repeat constructor.
Defined.

Lemma getCleanupOrder_reverse_of_setup_witness :
  getCleanupOrder namespacedRegistry = reverse (sortByPriority namespacedRegistry).
Proof.
  apply (getCleanupOrder_reverse_of_setup namespacedRegistry).
  - repeat constructor.
  - apply (bool_decide_unpack _). vm_compute. exact I.
Defined.

(** Setup order: [sortByPriority] returns the plugins it is given, by
    descending priority (50 when a plugin gives none), plugins of equal
    priority in their registration order. *)
Theorem setup_order_stable_descending plugins :
  sortByPriority plugins ≡ₚ plugins
  /\ StronglySorted (flip byPriority) (sortByPriority plugins)
  /\ forall k, filter (fun p => priorityOf p = k) (sortByPriority plugins)
               = filter (fun p => priorityOf p = k) plugins.
Proof. apply sortByPriority_perm_sorted_stable. Qed.

(** Cleanup order: [getCleanupOrder] returns the plugins it is given, by
    ascending cleanup priority. *)
Theorem cleanup_order_ascending plugins :
  getCleanupOrder plugins ≡ₚ plugins
  /\ StronglySorted byCleanupPriority (getCleanupOrder plugins).
Proof. apply getCleanupOrder_perm_sorted. Qed.

(** C8 (the code at two plugins of equal priority): the setup order is the
    registration order, [first] then [second], and the cleanup order is that
    same order, not its reverse. *)
Theorem equal_priority_cleanup_order :
  name <$> sortByPriority equalPriorityRegistry = ["first"; "second"]
  /\ name <$> getCleanupOrder equalPriorityRegistry = ["first"; "second"]
  /\ name <$> reverse (sortByPriority equalPriorityRegistry) = ["second"; "first"].
Proof. repeat split; vm_compute; reflexivity. Qed.

End OrderFacts.

(** ** The shared frame clock *)

Module RafFacts.
Import Raf Examples.

(** *** What the operations do to the entries and to the record of calls *)

Lemma follows_refl st : follows st st.
Proof. split; [by exists []|]. split; [done|lia]. Qed.

Lemma follows_trans st1 st2 st3 :
  follows st1 st2 -> follows st2 st3 -> follows st1 st3.
Proof.
  intros ([n1 H1] & E1 & L1) ([n2 H2] & E2 & L2). split; [|split].
  - exists (n2 ++ n1). by rewrite H2, H1, app_assoc.
  - intros j e Hj He. apply E1; [done|]. apply E2; [lia|done].
  - lia.
Qed.

Lemma ensureLoop_callbacks st : callbacks (ensureLoop st) = callbacks st.
Proof. unfold ensureLoop. by destruct (rafId st). Qed.

Lemma ensureLoop_invoked st : invoked (ensureLoop st) = invoked st.
Proof. unfold ensureLoop. by destruct (rafId st). Qed.

Lemma add_callbacks cb st :
  callbacks (add cb st).1 = callbacks st ++ [Some (nextSymbol st, cb)].
Proof. unfold add. simpl. by rewrite ensureLoop_callbacks. Qed.

Lemma add_invoked cb st : invoked (add cb st).1 = invoked st.
Proof. unfold add. simpl. by rewrite ensureLoop_invoked. Qed.

Lemma remove_invoked id st : invoked (remove id st) = invoked st.
Proof.
  unfold remove. destruct (has id st); [|done]. simpl.
  destruct (rafId st); [|done]. by destruct (size _ =? _)%nat.
Qed.

Lemma remove_callbacks id st :
  callbacks (remove id st)
  = if has id st
    then (fun e => if is_entry id e then None else e) <$> callbacks st
    else callbacks st.
Proof.
  unfold remove. destruct (has id st); [|done]. simpl.
  destruct (rafId st); [|done]. by destruct (size _ =? _)%nat.
Qed.

Lemma follows_add cb st : follows st (add cb st).1.
Proof.
  split; [|split].
  - exists []. by rewrite add_invoked.
  - intros j e Hj. rewrite add_callbacks, lookup_app_l by done. done.
  - rewrite add_callbacks, length_app. lia.
Qed.

Lemma follows_remove id st : follows st (remove id st).
Proof.
  split; [|split].
  - exists []. by rewrite remove_invoked.
  - intros j e Hj. rewrite remove_callbacks. destruct (has id st); [|done].
    rewrite list_lookup_fmap. destruct (callbacks st !! j) as [e'|]; [|done].
    simpl. destruct (is_entry id e'); [done|]. by intros [= ->].
  - rewrite remove_callbacks. destruct (has id st); [|done].
    by rewrite length_fmap.
Qed.

Lemma follows_exec st c : follows st (exec st c).
Proof. destruct c; [apply follows_add|apply follows_remove]. Qed.

Lemma follows_foldl_exec cmds st : follows st (foldl exec st cmds).
Proof.
  revert st. induction cmds as [|c cmds IH]; intros st; [apply follows_refl|].
  simpl. eapply follows_trans; [apply follows_exec|apply IH].
Qed.

Lemma invoke_follows id cb timestamp st :
  let st' := invoke id cb timestamp st in
  (exists newer, invoked st' = newer ++ (id, timestamp) :: invoked st)
  /\ follows st st'.
Proof.
  unfold invoke.
  destruct (follows_foldl_exec (body_of cb) (record_call id timestamp st))
    as ([newer Hn] & He & Hl).
  simpl in *. split; [by exists newer|]. split; [|split; [done|done]].
  exists (newer ++ [(id, timestamp)]). by rewrite <- app_assoc.
Qed.

(** [forEach] from entry [i] on calls every subscription that is in the
    [Map] at a position from [i] on when it returns. *)
Lemma forEach_calls fuel i timestamp st st' :
  forEach fuel i timestamp st = Some st' ->
  follows st st'
  /\ exists newer,
       invoked st' = newer ++ invoked st
       /\ forall j id cb,
            (i <= j)%nat -> callbacks st' !! j = Some (Some (id, cb)) ->
            (id, timestamp) ∈ newer.
Proof.
  revert i st. induction fuel as [|fuel IH]; intros i st; simpl.
  - destruct (callbacks st !! i) as [e|] eqn:Hi; [done|].
    intros [= <-]. split; [apply follows_refl|]. exists []. split; [done|].
    intros j id cb Hj Hlook. apply lookup_ge_None in Hi.
    apply lookup_lt_Some in Hlook. lia.
  - destruct (callbacks st !! i) as [e|] eqn:Hi.
    2:{ intros [= <-]. split; [apply follows_refl|]. exists []. split; [done|].
        intros j id cb Hj Hlook. apply lookup_ge_None in Hi.
        apply lookup_lt_Some in Hlook. lia. }
    pose proof (lookup_lt_Some _ _ _ Hi) as Hlt.
    destruct e as [[id0 cb0]|].
    + intros Hrun. destruct (IH _ _ Hrun) as (Hfol & newer & Hinv & Hcalls).
      destruct (invoke_follows id0 cb0 timestamp st) as ([n0 Hn0] & Hfol0).
      split; [by eapply follows_trans|].
      exists (newer ++ n0 ++ [(id0, timestamp)]). split.
      { rewrite Hinv, Hn0. by rewrite <- !app_assoc. }
      intros j id cb Hj Hlook.
      destruct (decide (j = i)) as [->|Hne].
      * destruct Hfol as (_ & Hsame & _). destruct Hfol0 as (_ & Hsame0 & Hlen0).
        apply Hsame in Hlook; [|lia]. apply Hsame0 in Hlook; [|lia].
        rewrite Hi in Hlook. injection Hlook as -> ->.
        rewrite !elem_of_app. right. right. apply list_elem_of_here.
      * apply elem_of_app. left. apply (Hcalls j id cb); [lia|done].
    + intros Hrun. destruct (IH _ _ Hrun) as (Hfol & newer & Hinv & Hcalls).
      split; [done|]. exists newer. split; [done|].
      intros j id cb Hj Hlook.
      destruct (decide (j = i)) as [->|Hne].
      * destruct Hfol as (_ & Hsame & _). apply Hsame in Hlook; [|lia].
        rewrite Hi in Hlook. discriminate.
      * apply (Hcalls j id cb); [lia|done].
Qed.

Lemma reschedule_callbacks st : callbacks (reschedule st) = callbacks st.
Proof. unfold reschedule. by destruct (0 <? size st)%nat. Qed.

Lemma reschedule_invoked st : invoked (reschedule st) = invoked st.
Proof. unfold reschedule. by destruct (0 <? size st)%nat. Qed.

(** C4 as stated fails: [spawning] subscribes [idle 2] while the frame with
    timestamp 16 runs; the new subscription (symbol 1) did not exist before
    the frame and is called with timestamp 16, in that same frame. *)
Lemma subscriber_added_in_frame_is_called :
  has 1 (add spawning initial).1 = false
  /\ frame 2 16 (add spawning initial).1 = Some afterSpawn
  /\ has 1 afterSpawn = true
  /\ (1%nat, 16) ∈ invoked afterSpawn.
Proof.
  split; [reflexivity|]. split; [vm_compute; reflexivity|].
  split; [reflexivity|]. apply list_elem_of_here.
Qed.

(** C4, amended: [Map.prototype.forEach] visits the entries appended while it
    runs.  Every subscription that is in the [Map] when the callbacks of a
    frame have run, one added during that frame included, has been called
    with the timestamp of that frame, during that frame. *)
Theorem step_calls_subscribers_added_in_frame fuel timestamp st st' id cb :
  step fuel timestamp st = Some st' ->
  Some (id, cb) ∈ callbacks st' ->
  exists newer, invoked st' = newer ++ invoked st /\ (id, timestamp) ∈ newer.
Proof.
  unfold step. intros Hstep Hin.
  destruct (forEach fuel 0 timestamp st) as [st1|] eqn:Hrun; [|done].
  simpl in Hstep. injection Hstep as <-.
  destruct (forEach_calls _ _ _ _ _ Hrun) as (_ & newer & Hinv & Hcalls).
  rewrite reschedule_callbacks in Hin. rewrite reschedule_invoked.
  exists newer. split; [done|].
  apply list_elem_of_lookup in Hin as [j Hj].
  apply (Hcalls j id cb); [lia|done].
Qed.

Lemma step_calls_subscribers_witness :
  exists newer,
    invoked afterSpawn = newer ++ invoked (take_request 1 (add spawning initial).1)
    /\ (1%nat, 16) ∈ newer.
Proof.
  apply (step_calls_subscribers_added_in_frame 2 16
           (take_request 1 (add spawning initial).1) afterSpawn 1 (idle 2)).
  - vm_compute. reflexivity.
  - apply list_elem_of_further, list_elem_of_here.
Defined.

(** C2 (the code at a callback that unsubscribes the last subscriber and
    subscribes again within one frame): before the frame there is one
    subscriber and one outstanding request; after it there is one subscriber
    and there are two outstanding requests, of which the coordinator
    remembers the second. *)
Theorem restart_in_frame_leaves_two_requests :
  one_request (add restarting initial).1
  /\ frame 2 16 (add restarting initial).1 = Some afterRestart
  /\ size afterRestart = 1%nat
  /\ pending afterRestart = [2%nat; 3%nat]
  /\ rafId afterRestart = Some 3%nat
  /\ ~ one_request afterRestart.
Proof.
  split; [by exists 1%nat|]. split; [vm_compute; reflexivity|].
  do 3 (split; [reflexivity|]).
  unfold one_request. simpl. intros (h & Hp & _). discriminate Hp.
Qed.

(** *** One request while there are subscribers *)

Lemma size_delete_entry id st : (size (delete_entry id st) <= size st)%nat.
Proof.
  unfold size, delete_entry. simpl.
  induction (callbacks st) as [|e l IH]; [done|].
  rewrite fmap_cons, !filter_cons.
  destruct e as [[i cb]|]; simpl.
  - destruct (i =? id)%nat; repeat case_decide; simpl; try lia;
      exfalso; by eauto using is_Some_None.
  - repeat case_decide; simpl; try lia; exfalso; by eauto using is_Some_None.
Qed.

Lemma has_size id st : has id st = true -> (0 < size st)%nat.
Proof.
  unfold has, size. induction (callbacks st) as [|e l IH]; simpl; [done|].
  rewrite filter_cons. destruct e as [[i cb]|]; simpl.
  - intros _. lia.
  - exact IH.
Qed.

Lemma size_add cb st : (0 < size (add cb st).1)%nat.
Proof.
  unfold size. rewrite add_callbacks, filter_app, length_app.
  rewrite filter_cons, decide_True by eauto. simpl. lia.
Qed.

Lemma one_request_initial : one_request initial.
Proof. by split. Qed.

Lemma one_request_add cb st : one_request st -> one_request (add cb st).1.
Proof.
  intros Hone. pose proof (size_add cb st) as Hsize.
  unfold one_request in *. apply Nat.ltb_lt in Hsize as Hlt. rewrite Hlt.
  unfold add, ensureLoop in *. simpl in *.
  destruct (0 <? size st)%nat.
  - destruct Hone as (h & Hp & Hr). rewrite Hr. simpl. by exists h.
  - destruct Hone as (Hp & Hr). rewrite Hr. simpl. rewrite Hp.
    by exists (nextHandle st).
Qed.

Lemma one_request_remove id st : one_request st -> one_request (remove id st).
Proof.
  intros Hone. unfold remove. destruct (has id st) eqn:Hhas; [|done].
  apply has_size, Nat.ltb_lt in Hhas. unfold one_request in Hone.
  rewrite Hhas in Hone. destruct Hone as (h & Hp & Hr).
  simpl. rewrite Hr. destruct (size (delete_entry id st) =? 0)%nat eqn:Hz.
  - apply Nat.eqb_eq in Hz. unfold one_request.
    replace (size (set_rafId None (caf h (delete_entry id st))))
      with (size (delete_entry id st)) by done.
    rewrite Hz. simpl. rewrite Hp. rewrite filter_cons, decide_False by tauto.
    done.
  - apply Nat.eqb_neq in Hz. unfold one_request.
    assert (Hpos : (0 <? size (delete_entry id st))%nat = true)
      by (apply Nat.ltb_lt; lia).
    rewrite Hpos. by exists h.
Qed.

Lemma mid_frame_remove id st : mid_frame st -> mid_frame (remove id st).
Proof.
  intros (Hp & Hr). unfold remove. destruct (has id st); [|done].
  simpl. pose proof (size_delete_entry id st) as Hle.
  destruct (rafId st) as [h|] eqn:Hraf.
  - destruct (size (delete_entry id st) =? 0)%nat eqn:Hz.
    + apply Nat.eqb_eq in Hz. split; simpl; [by rewrite Hp|done].
    + split; simpl; [done|]. by rewrite Hraf.
  - split; simpl; [done|]. intros _. specialize (Hr eq_refl).
    unfold size in *. simpl in *. lia.
Qed.

Lemma quiet_remove id st : quiet st -> quiet (remove id st).
Proof.
  unfold quiet. rewrite remove_callbacks. destruct (has id st); [|done].
  intros H. apply Forall_fmap. eapply Forall_impl; [exact H|].
  intros e He. simpl. by destruct (is_entry id e).
Qed.

Lemma quiet_add cb st : unsubscribes_only cb -> quiet st -> quiet (add cb st).1.
Proof.
  unfold quiet. rewrite add_callbacks. intros Hcb H.
  apply Forall_app. split; [done|]. by constructor.
Qed.

Lemma length_remove id st :
  length (callbacks (remove id st)) = length (callbacks st).
Proof.
  rewrite remove_callbacks. destruct (has id st); [|done]. by rewrite length_fmap.
Qed.

(** A callback that only unsubscribes keeps what holds during a frame. *)
Lemma invoke_mid_frame id cb timestamp st :
  unsubscribes_only cb -> mid_frame st -> quiet st ->
  mid_frame (invoke id cb timestamp st)
  /\ quiet (invoke id cb timestamp st)
  /\ length (callbacks (invoke id cb timestamp st)) = length (callbacks st).
Proof.
  unfold invoke, unsubscribes_only. intros Hcb Hmid Hq.
  assert (Hstart : mid_frame (record_call id timestamp st)
                   /\ quiet (record_call id timestamp st)
                   /\ length (callbacks (record_call id timestamp st))
                      = length (callbacks st)) by done.
  revert Hstart. generalize (record_call id timestamp st).
  induction Hcb as [|c cmds Hc Hcb IH]; intros st0 Hst0; [done|].
  simpl. apply IH. destruct c as [cb0|id0]; [done|]. simpl.
  destruct Hst0 as (Hm & Hq0 & Hl).
  split; [by apply mid_frame_remove|].
  split; [by apply quiet_remove|]. by rewrite length_remove.
Qed.

Lemma forEach_mid_frame fuel i timestamp st :
  mid_frame st -> quiet st -> (length (callbacks st) <= i + fuel)%nat ->
  exists st',
    forEach fuel i timestamp st = Some st'
    /\ mid_frame st' /\ quiet st'
    /\ length (callbacks st') = length (callbacks st).
Proof.
  revert i st. induction fuel as [|fuel IH]; intros i st Hmid Hq Hlen; simpl.
  - rewrite (proj2 (lookup_ge_None _ _)) by lia. by exists st.
  - destruct (callbacks st !! i) as [e|] eqn:Hi; [|by exists st].
    destruct e as [[id cb]|].
    + assert (Hcb : unsubscribes_only cb).
      { unfold quiet in Hq. rewrite Forall_forall in Hq.
        apply (Hq (Some (id, cb))). by eapply list_elem_of_lookup_2. }
      destruct (invoke_mid_frame id cb timestamp st Hcb Hmid Hq)
        as (Hmid' & Hq' & Hlen').
      destruct (IH (S i) _ Hmid' Hq') as (st' & Hrun & ? & ? & Hl); [lia|].
      exists st'. rewrite Hl, Hlen'. done.
    + destruct (IH (S i) _ Hmid Hq) as (st' & Hrun & ? & ? & Hl); [lia|].
      by exists st'.
Qed.

Lemma reschedule_one_request st : mid_frame st -> one_request (reschedule st).
Proof.
  intros (Hp & Hr). unfold one_request, reschedule.
  destruct (0 <? size st)%nat eqn:Hs.
  - replace (size (let '(st', h) := raf st in set_rafId (Some h) st'))
      with (size st) by done.
    rewrite Hs. simpl. rewrite Hp. by exists (nextHandle st).
  - replace (size (set_rafId None st)) with (size st) by done.
    by rewrite Hs.
Qed.

Lemma frame_one_request fuel timestamp st :
  one_request st -> quiet st -> (length (callbacks st) <= fuel)%nat ->
  exists st',
    frame fuel timestamp st = Some st'
    /\ one_request st' /\ quiet st'
    /\ length (callbacks st') = length (callbacks st).
Proof.
  intros Hone Hq Hlen. unfold frame. unfold one_request in Hone.
  destruct (0 <? size st)%nat eqn:Hs.
  - destruct Hone as (h & Hp & Hr). rewrite Hp. simpl.
    rewrite bool_decide_eq_true_2 by (rewrite Hp; apply list_elem_of_here).
    destruct (forEach_mid_frame fuel 0 timestamp (take_request h st))
      as (st1 & Hrun & Hmid & Hq1 & Hl1); [| done | simpl; lia |].
    { split; simpl; [|by rewrite Hr].
      rewrite Hp, filter_cons, decide_False by tauto. done. }
    unfold step. rewrite Hrun. simpl. exists (reschedule st1).
    split; [done|]. split; [by apply reschedule_one_request|].
    split; [unfold quiet; by rewrite reschedule_callbacks|].
    by rewrite reschedule_callbacks.
  - destruct Hone as (Hp & Hr). rewrite Hp. simpl. exists st.
    repeat split; try done. unfold one_request. by rewrite Hs.
Qed.

Lemma performAll_add fuel st cb ops :
  performAll fuel st (OpAdd cb :: ops) = performAll fuel (add cb st).1 ops.
Proof. reflexivity. Qed.

Lemma performAll_remove fuel st id ops :
  performAll fuel st (OpRemove id :: ops) = performAll fuel (remove id st) ops.
Proof. reflexivity. Qed.

Lemma performAll_frame fuel st timestamp ops :
  performAll fuel st (OpFrame timestamp :: ops)
  = frame fuel timestamp st ≫= fun st' => performAll fuel st' ops.
Proof. reflexivity. Qed.

Lemma performAll_one_request ops fuel st :
  one_request st -> quiet st ->
  Forall op_unsubscribes_only ops ->
  (length (callbacks st) + length ops <= fuel)%nat ->
  exists st', performAll fuel st ops = Some st' /\ one_request st' /\ quiet st'.
Proof.
  revert st. induction ops as [|op ops IH]; intros st Hone Hq Hops Hfuel.
  { by exists st. }
  apply Forall_cons in Hops as [Hop Hops]. rewrite length_cons in Hfuel.
  destruct op as [cb|id|timestamp].
  - rewrite performAll_add.
    apply IH; [by apply one_request_add|by apply quiet_add|done|].
    rewrite add_callbacks, length_app. simpl. lia.
  - rewrite performAll_remove.
    apply IH; [by apply one_request_remove|by apply quiet_remove|done|].
    rewrite length_remove. lia.
  - rewrite performAll_frame.
    destruct (frame_one_request fuel timestamp st Hone Hq)
      as (st1 & -> & Hone1 & Hq1 & Hl1); [lia|].
    simpl. apply IH; [done|done|done|]. rewrite Hl1. lia.
Qed.

(** For every sequence of subscriptions, unsubscriptions and frames in which
    no callback subscribes while a frame runs (callbacks may unsubscribe, also
    themselves), every operation returns, and afterwards there is exactly one
    outstanding request, the one the coordinator remembers, when there are
    subscribers, and no request and no remembered handle when there are none. *)
Theorem one_request_between_operations ops :
  Forall op_unsubscribes_only ops ->
  exists st, performAll (length ops) initial ops = Some st /\ one_request st.
Proof.
  intros Hops.
  destruct (performAll_one_request ops (length ops) initial one_request_initial)
    as (st & Hrun & Hone & _).
  - constructor.
  - done.
  - simpl. lia.
  - by exists st.
Qed.

Lemma one_request_between_operations_witness :
  exists st,
    performAll 5 initial
      [OpAdd (idle 1); OpAdd (Callback 2 [CRemove 1]); OpFrame 16;
       OpRemove 0; OpAdd (idle 3)] = Some st
    /\ one_request st.
Proof.
  apply (one_request_between_operations
           [OpAdd (idle 1); OpAdd (Callback 2 [CRemove 1]); OpFrame 16;
            OpRemove 0; OpAdd (idle 3)]).
  repeat constructor.
Defined.

(** *** The frame callback returns *)

Lemma cb_weight_body label body :
  cb_weight (Callback label body) = S (cmds_weight body).
Proof.
  reflexivity.
Qed.

Lemma entry_weight_pos e : (1 <= entry_weight e)%nat.
Proof.
  destruct e as [[id [label body]]|]; unfold entry_weight; [|done].
  rewrite cb_weight_body. lia.
Qed.

Lemma remaining_lookup i st e :
  callbacks st !! i = Some e ->
  remaining i st = (entry_weight e + remaining (S i) st)%nat.
Proof. unfold remaining. intros Hi. by rewrite (drop_S _ _ _ Hi). Qed.

Lemma remaining_add j cb st :
  (remaining j (add cb st).1 <= remaining j st + cb_weight cb)%nat.
Proof.
  unfold remaining. rewrite add_callbacks, drop_app, sum_list_with_app.
  apply Nat.add_le_mono_l.
  destruct (j - length (callbacks st))%nat; simpl; [lia|].
  rewrite drop_nil. simpl. lia.
Qed.

Lemma remaining_remove j id st : (remaining j (remove id st) <= remaining j st)%nat.
Proof.
  unfold remaining. rewrite remove_callbacks. destruct (has id st); [|done].
  rewrite <- fmap_drop. induction (drop j (callbacks st)) as [|e l IH]; [done|].
  rewrite fmap_cons.
  simpl. pose proof (entry_weight_pos e).
  destruct (is_entry id e); simpl; lia.
Qed.

Lemma remaining_exec j c st :
  (remaining j (exec st c) <= remaining j st + cmd_weight c)%nat.
Proof.
  destruct c as [cb|id]; simpl exec; simpl cmd_weight.
  - apply remaining_add.
  - pose proof (remaining_remove j id st). lia.
Qed.

Lemma remaining_foldl j cmds st :
  (remaining j (foldl exec st cmds) <= remaining j st + cmds_weight cmds)%nat.
Proof.
  revert st. induction cmds as [|c cmds IH]; intros st.
  - unfold cmds_weight. simpl. lia.
  - simpl foldl. specialize (IH (exec st c)).
    pose proof (remaining_exec j c st).
    unfold cmds_weight in *. simpl sum_list_with. lia.
Qed.

Lemma remaining_invoke j id cb timestamp st :
  (remaining j (invoke id cb timestamp st)
   <= remaining j st + cmds_weight (body_of cb))%nat.
Proof.
  unfold invoke.
  pose proof (remaining_foldl j (body_of cb) (record_call id timestamp st)) as H.
  exact H.
Qed.

(** With [remaining i st] as fuel, [forEach] reaches the end of the entries. *)
Lemma forEach_returns fuel i timestamp st :
  (remaining i st <= fuel)%nat ->
  exists st', forEach fuel i timestamp st = Some st'.
Proof.
  revert i st. induction fuel as [|fuel IH]; intros i st Hfuel; simpl.
  - destruct (callbacks st !! i) as [e|] eqn:Hi; [|by exists st].
    rewrite (remaining_lookup _ _ _ Hi) in Hfuel.
    pose proof (entry_weight_pos e). lia.
  - destruct (callbacks st !! i) as [e|] eqn:Hi; [|by exists st].
    rewrite (remaining_lookup _ _ _ Hi) in Hfuel.
    destruct e as [[id cb]|].
    + apply IH. pose proof (remaining_invoke (S i) id cb timestamp st) as Hinv.
      destruct cb as [label body]. unfold entry_weight in Hfuel.
      rewrite cb_weight_body in Hfuel. simpl body_of in Hinv. lia.
    + apply IH. simpl in Hfuel. lia.
Qed.


End RafFacts.

(** ** The orchestrator session *)

Module SessionFacts.
Import Session Examples.

(** *** Manual override *)

(** After an explicit [play()] that took effect, a trigger leaves the
    session playing and the override in place. *)
Lemma fire_after_manual_play cfg s t :
  isPlaying s = true -> manualOverride s = Some OverridePlay ->
  isPlaying (fire cfg s t) = true
  /\ manualOverride (fire cfg s t) = Some OverridePlay.
Proof.
  intros Hp Ho. destruct t as [[[]|]| | |]; simpl;
    unfold playAuto, stopAuto, runPlay, stop, pause, resume;
    rewrite ?Hp, ?Ho; simpl; try done.
  - by destruct (isPaused s).
  - by destruct (isPaused s).
Qed.

(** After an explicit [stop()] that took effect, a trigger does nothing. *)
Lemma fire_after_manual_stop cfg s t :
  isPlaying s = false -> isPaused s = false ->
  manualOverride s = Some OverrideStop ->
  fire cfg s t = s.
Proof.
  intros Hp Hq Ho. destruct t as [[[]|]| | |]; simpl;
    unfold playAuto, stopAuto, runPlay, stop, pause, resume;
    by rewrite ?Hp, ?Hq, ?Ho.
Qed.

Lemma triggers_after_manual_play cfg triggers s :
  isPlaying s = true -> manualOverride s = Some OverridePlay ->
  isPlaying (foldl (fire cfg) s triggers) = true
  /\ manualOverride (foldl (fire cfg) s triggers) = Some OverridePlay.
Proof.
  revert s. induction triggers as [|t triggers IH]; intros s Hp Ho; [done|].
  simpl. destruct (fire_after_manual_play cfg s t Hp Ho). by apply IH.
Qed.

Lemma triggers_after_manual_stop cfg triggers s :
  isPlaying s = false -> isPaused s = false ->
  manualOverride s = Some OverrideStop ->
  foldl (fire cfg) s triggers = s.
Proof.
  intros Hp Hq Ho. induction triggers as [|t triggers IH]; [done|].
  simpl. by rewrite fire_after_manual_stop.
Qed.

Lemma stopAuto_under_override_play cfg s :
  manualOverride s = Some OverridePlay -> stopAuto cfg s = s.
Proof. unfold stopAuto, stop. by intros ->. Qed.

(** C3 as stated fails: a session that an automatic trigger has started is
    playing with no override; an explicit [play()] then returns at "already
    playing" without setting the override, and the next automatic stop
    trigger stops the session. *)
Lemma play_while_playing_sets_no_override :
  let started := playAuto oneSystem None (initial [] None) in
  isPlaying started = true
  /\ play oneSystem started = started
  /\ manualOverride (play oneSystem started) = None
  /\ isPlaying (stopAuto oneSystem (play oneSystem started)) = false.
Proof. repeat split. Qed.

(** C3, amended: after an explicit [play()] of a session that is not
    playing, the session stays playing and an automatic stop trigger is a
    no-op, whatever automatic play and stop triggers, pauses and resumes come
    in between; after an explicit [stop()] of a playing or paused session all
    of these do nothing at all and the session stays stopped.  A change of
    [playWhen] resets the override (the session then follows [playWhen]), and
    an explicit call of the other kind takes effect. *)
Theorem manual_override_arbitration cfg s triggers :
  (isPlaying s = false ->
   let s' := foldl (fire cfg) (play cfg s) triggers in
   isPlaying s' = true
   /\ manualOverride s' = Some OverridePlay
   /\ stopAuto cfg s' = s'
   /\ isPlaying (stop cfg Manual s') = false
   /\ isPlaying (playWhenChanged cfg false s') = false)
  /\ (isPlaying s || isPaused s = true ->
      let s' := foldl (fire cfg) (stop cfg Manual s) triggers in
      s' = stop cfg Manual s
      /\ isPlaying s' = false
      /\ (forall playWhen, playAuto cfg playWhen s' = s')
      /\ isPlaying (play cfg s') = true
      /\ isPlaying (playWhenChanged cfg true s') = true).
Proof.
  split.
  - intros Hp s'.
    assert (H1 : isPlaying (play cfg s) = true
                 /\ manualOverride (play cfg s) = Some OverridePlay).
    { unfold play, runPlay. rewrite Hp. by destruct (manualOverride s). }
    destruct (triggers_after_manual_play cfg triggers _ (proj1 H1) (proj2 H1))
      as [Hplaying Hoverride]. fold s' in Hplaying, Hoverride.
    split; [done|]. split; [done|].
    split; [by apply stopAuto_under_override_play|].
    split.
    + unfold stop. rewrite Hplaying. by destruct (manualOverride s').
    + unfold playWhenChanged. simpl. by rewrite Hplaying.
  - intros Hactive s'. subst s'.
    assert (H1 : isPlaying (stop cfg Manual s) = false
                 /\ isPaused (stop cfg Manual s) = false
                 /\ manualOverride (stop cfg Manual s) = Some OverrideStop).
    { unfold stop. destruct (isPlaying s), (isPaused s);
        try discriminate Hactive; by destruct (manualOverride s). }
    destruct H1 as (Hp & Hq & Ho).
    rewrite (triggers_after_manual_stop cfg triggers _ Hp Hq Ho).
    revert Hp Hq Ho. generalize (stop cfg Manual s). intros s1 Hp Hq Ho.
    split; [done|]. split; [done|]. split; [|split].
    + intros [[]|]; unfold playAuto, runPlay; by rewrite ?Ho.
    + unfold play, runPlay. by rewrite Hp.
    + unfold playWhenChanged. simpl. rewrite Hp, Hq. simpl.
      unfold runPlay. simpl. by rewrite ?Hp.
Qed.

Lemma manual_override_arbitration_witness :
  (let s' := foldl (fire oneSystem) (play oneSystem (initial [] None))
                   [TAutoStop; TPause; TAutoStop; TAutoPlay None] in
   isPlaying s' = true
   /\ manualOverride s' = Some OverridePlay
   /\ stopAuto oneSystem s' = s'
   /\ isPlaying (stop oneSystem Manual s') = false
   /\ isPlaying (playWhenChanged oneSystem false s') = false)
  /\ (let s' := foldl (fire oneSystem)
                      (stop oneSystem Manual (play oneSystem (initial [] None)))
                      [TAutoPlay None; TResume; TAutoPlay (Some true)] in
      s' = stop oneSystem Manual (play oneSystem (initial [] None))
      /\ isPlaying s' = false
      /\ (forall playWhen, playAuto oneSystem playWhen s' = s')
      /\ isPlaying (play oneSystem s') = true
      /\ isPlaying (playWhenChanged oneSystem true s') = true).
Proof.
  split.
  - exact (proj1 (manual_override_arbitration oneSystem (initial [] None)
                    [TAutoStop; TPause; TAutoStop; TAutoPlay None]) eq_refl).
  - exact (proj2 (manual_override_arbitration oneSystem
                    (play oneSystem (initial [] None))
                    [TAutoPlay None; TResume; TAutoPlay (Some true)]) eq_refl).
Defined.

(** [pause()] twice in a row: the second call does nothing. *)
Theorem pause_twice cfg s : pause cfg (pause cfg s) = pause cfg s.
Proof.
  unfold pause. destruct (isPlaying s) eqn:Hp, (isPaused s) eqn:Hq; simpl;
    rewrite ?Hp, ?Hq; simpl; done.
Qed.

(** A change of [playWhen] always leaves the override reset. *)
Theorem playWhenChanged_resets_override cfg shouldPlay s :
  manualOverride (playWhenChanged cfg shouldPlay s) = None.
Proof.
  unfold playWhenChanged, runPlay, stop. simpl.
  destruct shouldPlay, (isPlaying s), (isPaused s); done.
Qed.

(** *** Cleanup *)

Lemma count_app e l1 l2 : count e (l1 ++ l2) = (count e l1 + count e l2)%nat.
Proof. unfold count. by rewrite filter_app, length_app. Qed.

Lemma count_fmap {X} `{EqDecision X} (C : X -> Event) x (l : list X) :
  (forall y z, C y = C z -> y = z) ->
  count (C x) (C <$> l) = occurrences x l.
Proof.
  intros Hinj. unfold count, occurrences.
  induction l as [|y l IH]; [done|].
  rewrite fmap_cons, !filter_cons.
  destruct (decide (y = x)) as [->|Hne].
  - rewrite decide_True by done. simpl. by rewrite IH.
  - rewrite decide_False by (intros H; by apply Hne, Hinj). done.
Qed.

Lemma count_fmap_other {X} (e : Event) (D : X -> Event) (l : list X) :
  (forall y, D y <> e) -> count e (D <$> l) = 0%nat.
Proof.
  intros Hne. unfold count. induction l as [|y l IH]; [done|].
  rewrite fmap_cons, filter_cons, decide_False by apply Hne. done.
Qed.

Lemma occurrences_app `{EqDecision X} (x : X) (l1 l2 : list X) :
  occurrences x (l1 ++ l2) = (occurrences x l1 + occurrences x l2)%nat.
Proof. unfold occurrences. by rewrite filter_app, length_app. Qed.

(** The release of the shared state is none of the other calls. *)
Lemma count_release cfg s e :
  (forall n, e <> EReleaseState n) ->
  count e (match stateName cfg, stateConsumers s with
           | Some n, Some _ => if String.eqb n "" then [] else [EReleaseState n]
           | _, _ => []
           end) = 0%nat.
Proof.
  intros Hne. destruct (stateName cfg) as [n|]; [|done].
  destruct (stateConsumers s); [|done].
  destruct (String.eqb n ""); [done|].
  unfold count. rewrite filter_cons, decide_False; [done|].
  intros H. by apply (Hne n).
Qed.

(** How often one [cleanup()] makes each kind of call. *)
Lemma cleanupEvents_counts cfg s :
  (forall m, count (ECleanup m) (cleanupEvents cfg s)
             = occurrences m (cleanableSystems cfg))
  /\ (forall w, count (EWatcherStop w) (cleanupEvents cfg s)
                = occurrences w (pluginWatchers cfg ++ localWatchers cfg))
  /\ (forall h, count (EHandler h) (cleanupEvents cfg s)
                = occurrences h (cleanupHandlers s)).
Proof.
  unfold cleanupEvents. split; [|split]; intros x;
    rewrite !count_app, ?occurrences_app, count_release by done.
  - rewrite (count_fmap ECleanup) by congruence.
    rewrite !count_fmap_other by done. lia.
  - rewrite !(count_fmap EWatcherStop) by congruence.
    rewrite !count_fmap_other by done. lia.
  - rewrite (count_fmap EHandler) by congruence.
    rewrite !count_fmap_other by done. lia.
Qed.

(** C5 as stated fails: after two [cleanup()] calls the cleanup function of
    the system [fade] has been invoked twice, and the watcher's stop handle
    has been called twice. *)
Lemma cleanup_twice_cleans_modules_twice :
  let s := initial [3%nat] None in
  count (ECleanup "fade") (trace (cleanup oneSystem (cleanup oneSystem s))) = 2%nat
  /\ count (EWatcherStop 7) (trace (cleanup oneSystem (cleanup oneSystem s))) = 2%nat.
Proof. split; vm_compute; reflexivity. Qed.

(** C5, amended: [cleanup()] has no guard.  Two calls in a row make the
    calls of the first and then the calls of the second: every module cleanup
    function is invoked twice and every watcher is stopped twice; only the
    registered cleanup handlers run once in total, because the first call
    empties their list.  What the second call leaves unchanged is the state:
    both flags cleared and no handlers. *)
Theorem cleanup_twice cfg s :
  let s1 := cleanup cfg s in
  let s2 := cleanup cfg s1 in
  let calls := cleanupEvents cfg s ++ cleanupEvents cfg s1 in
  trace s2 = trace s ++ calls
  /\ (forall m, count (ECleanup m) calls = (2 * occurrences m (cleanableSystems cfg))%nat)
  /\ (forall w, count (EWatcherStop w) calls
                = (2 * occurrences w (pluginWatchers cfg ++ localWatchers cfg))%nat)
  /\ (forall h, count (EHandler h) calls = occurrences h (cleanupHandlers s))
  /\ isPlaying s2 = false /\ isPaused s2 = false /\ cleanupHandlers s2 = []
  /\ (isPlaying s2, isPaused s2, manualOverride s2, cleanupHandlers s2)
     = (isPlaying s1, isPaused s1, manualOverride s1, cleanupHandlers s1).
Proof.
  intros s1 s2 calls.
  destruct (cleanupEvents_counts cfg s) as (Hm & Hw & Hh).
  destruct (cleanupEvents_counts cfg s1) as (Hm1 & Hw1 & Hh1).
  split; [unfold s2, s1, calls; simpl; by rewrite <- app_assoc|].
  split; [intros m; unfold calls; rewrite count_app, Hm, Hm1; lia|].
  split; [intros w; unfold calls; rewrite count_app, Hw, Hw1; lia|].
  split; [intros h; unfold calls; rewrite count_app, Hh, Hh1; simpl;
          unfold occurrences; simpl; lia|].
  done.
Qed.

End SessionFacts.

(** ** Registration, lookup and removal *)

Module RegistryOpsFacts.
Import Registry RegistryOps Examples.

Lemma getPlugin_Some plugins n p :
  getPlugin plugins n = Some p -> name p = n /\ p ∈ plugins.
Proof.
  induction plugins as [|q rest IH]; simpl; [done|].
  destruct (String.eqb (name q) n) eqn:Hq.
  - intros [= <-]. apply String.eqb_eq in Hq. split; [done|by left].
  - intros H. destruct (IH H). split; [done|by right].
Qed.

Lemma getPlugin_None plugins n :
  getPlugin plugins n = None <-> n ∉ name <$> plugins.
Proof.
  induction plugins as [|q rest IH]; simpl.
  - split; [intros _ H; inversion H|done].
  - rewrite not_elem_of_cons. destruct (String.eqb (name q) n) eqn:Hq.
    + apply String.eqb_eq in Hq. split; [done|]. intros [Hne _]. congruence.
    + apply String.eqb_neq in Hq. rewrite IH.
      split; [intros H; split; [congruence|exact H]|intros [_ H]; exact H].
Qed.

Lemma getPlugin_elem plugins p :
  NoDup (name <$> plugins) -> p ∈ plugins -> getPlugin plugins (name p) = Some p.
Proof.
  induction plugins as [|q rest IH]; intros Hnd Hin; [by inversion Hin|].
  rewrite fmap_cons in Hnd. apply NoDup_cons in Hnd as [Hq Hnd]. simpl.
  apply elem_of_cons in Hin as [->|Hin].
  - by rewrite String.eqb_refl.
  - destruct (String.eqb (name q) (name p)) eqn:Heq; [|by apply IH].
    apply String.eqb_eq in Heq. exfalso. apply Hq. rewrite Heq.
    by apply list_elem_of_fmap_2.
Qed.

Lemma hasPlugin_true plugins n : hasPlugin plugins n = true <-> n ∈ name <$> plugins.
Proof.
  unfold hasPlugin. rewrite bool_decide_eq_true.
  destruct (getPlugin plugins n) as [p|] eqn:Hget.
  - split; [|by eauto]. intros _. apply getPlugin_Some in Hget as [<- Hin].
    by apply list_elem_of_fmap_2.
  - split; [by intros [? ?]|]. intros Hin. by apply getPlugin_None in Hget.
Qed.

Lemma hasPlugin_false plugins n : hasPlugin plugins n = false <-> n ∉ name <$> plugins.
Proof.
  rewrite <- hasPlugin_true. destruct (hasPlugin plugins n); split; congruence.
Qed.

Lemma getPlugin_mapSet_eq p plugins : getPlugin (mapSet p plugins) (name p) = Some p.
Proof.
  induction plugins as [|q rest IH]; simpl.
  - by rewrite String.eqb_refl.
  - destruct (String.eqb (name q) (name p)) eqn:Hq; simpl.
    + by rewrite String.eqb_refl.
    + by rewrite Hq.
Qed.

Lemma getPlugin_mapSet_ne p plugins n :
  n <> name p -> getPlugin (mapSet p plugins) n = getPlugin plugins n.
Proof.
  intros Hne. induction plugins as [|q rest IH]; simpl.
  - apply String.eqb_neq in Hne. by rewrite String.eqb_sym, Hne.
  - destruct (String.eqb (name q) (name p)) eqn:Hq; simpl.
    + apply String.eqb_eq in Hq. rewrite Hq.
      assert (String.eqb (name p) n = false) as ->
        by (apply String.eqb_neq; congruence).
      done.
    + by rewrite IH.
Qed.

Lemma names_mapSet p plugins :
  name <$> mapSet p plugins
  = if hasPlugin plugins (name p) then name <$> plugins
    else (name <$> plugins) ++ [name p].
Proof.
  induction plugins as [|q rest IH]; [done|]. simpl.
  destruct (String.eqb (name q) (name p)) eqn:Hq.
  - apply String.eqb_eq in Hq.
    assert (hasPlugin (q :: rest) (name p) = true) as ->.
    { apply hasPlugin_true. rewrite fmap_cons, Hq. by left. }
    by rewrite fmap_cons, Hq.
  - apply String.eqb_neq in Hq. rewrite fmap_cons, IH.
    destruct (hasPlugin rest (name p)) eqn:Hrest.
    + assert (hasPlugin (q :: rest) (name p) = true) as ->; [|done].
      apply hasPlugin_true. rewrite fmap_cons. right. by apply hasPlugin_true.
    + assert (hasPlugin (q :: rest) (name p) = false) as ->; [|done].
      apply hasPlugin_false. rewrite fmap_cons, not_elem_of_cons.
      split; [congruence|by apply hasPlugin_false].
Qed.

Lemma elem_of_mapSet p q plugins :
  q ∈ mapSet p plugins -> q = p \/ q ∈ plugins.
Proof.
  induction plugins as [|r rest IH]; simpl.
  - intros H. apply list_elem_of_singleton in H. by left.
  - destruct (String.eqb (name r) (name p)).
    + intros H. apply elem_of_cons in H as [->|H]; [by left|]. right. by right.
    + intros H. apply elem_of_cons in H as [->|H]; [right; by left|].
      destruct (IH H); [by left|]. right. by right.
Qed.

Lemma register_Ok received p plugins :
  name p <> ""%string -> version p <> ""%string ->
  register received p plugins
  = Ok {| warnings :=
            if hasPlugin plugins (name p) then [AlreadyRegistered (name p)] else [];
          registry := mapSet p plugins |}.
Proof.
  intros Hn Hv. unfold register.
  apply String.eqb_neq in Hn, Hv. by rewrite Hn, Hv.
Qed.

Lemma register_Ok_inv received p plugins r :
  register received p plugins = Ok r ->
  name p <> ""%string /\ version p <> ""%string
  /\ registry r = mapSet p plugins
  /\ warnings r
     = if hasPlugin plugins (name p) then [AlreadyRegistered (name p)] else [].
Proof.
  unfold register.
  destruct (String.eqb (name p) "") eqn:Hn; [done|].
  destruct (String.eqb (version p) "") eqn:Hv; [done|].
  simpl. intros [= <-]. apply String.eqb_neq in Hn, Hv. done.
Qed.

Lemma wellFormed_mapSet p plugins :
  name p <> ""%string -> version p <> ""%string ->
  wellFormed plugins -> wellFormed (mapSet p plugins).
Proof.
  intros Hn Hv [Hnd Hall]. split.
  - rewrite names_mapSet. destruct (hasPlugin plugins (name p)) eqn:Hhas; [done|].
    apply hasPlugin_false in Hhas. apply NoDup_app. split; [done|].
    split; [|apply NoDup_singleton].
    intros x Hx Hx'. apply list_elem_of_singleton in Hx' as ->. done.
  - rewrite Forall_forall in *. intros q Hq.
    apply elem_of_mapSet in Hq as [->|Hq]; [done|by apply Hall].
Qed.


(** Registering keeps the registry well formed (one plugin per name, each
    with name and version).  A name that is already registered keeps its
    place in the list of registered names and a warning is written; a new
    name goes to the end without a warning. *)
Theorem register_keeps_names received p plugins r :
  wellFormed plugins ->
  register received p plugins = Ok r ->
  wellFormed (registry r)
  /\ (hasPlugin plugins (name p) = true ->
      getRegisteredPlugins (registry r) = getRegisteredPlugins plugins
      /\ warnings r = [AlreadyRegistered (name p)])
  /\ (hasPlugin plugins (name p) = false ->
      getRegisteredPlugins (registry r) = getRegisteredPlugins plugins ++ [name p]
      /\ warnings r = []).
Proof.
  intros Hwf Hreg. apply register_Ok_inv in Hreg as (Hn & Hv & -> & ->).
  split; [by apply wellFormed_mapSet|].
  unfold getRegisteredPlugins. rewrite names_mapSet.
  split; intros ->; done.
Qed.

Lemma mapDelete_absent n plugins :
  n ∉ name <$> plugins -> mapDelete n plugins = plugins.
Proof.
  induction plugins as [|q rest IH]; [done|].
  rewrite fmap_cons, not_elem_of_cons. intros [Hne Hrest]. simpl.
  assert (String.eqb (name q) n = false) as -> by (apply String.eqb_neq; congruence).
  by rewrite IH.
Qed.

Lemma getPlugin_mapDelete_ne n m plugins :
  m <> n -> getPlugin (mapDelete n plugins) m = getPlugin plugins m.
Proof.
  intros Hne. induction plugins as [|q rest IH]; [done|]. simpl.
  destruct (String.eqb (name q) n) eqn:Hq; simpl.
  - apply String.eqb_eq in Hq.
    assert (String.eqb (name q) m = false) as -> by (apply String.eqb_neq; congruence).
    done.
  - by rewrite IH.
Qed.

Lemma names_mapDelete_sub n plugins x :
  x ∈ name <$> mapDelete n plugins -> x ∈ name <$> plugins.
Proof.
  induction plugins as [|q rest IH]; [done|]. cbn [mapDelete].
  destruct (String.eqb (name q) n).
  - intros H. rewrite fmap_cons. by right.
  - rewrite !fmap_cons. intros H. apply elem_of_cons in H as [->|H]; [by left|].
    right. by apply IH.
Qed.

Lemma getPlugin_mapDelete_eq n plugins :
  NoDup (name <$> plugins) -> getPlugin (mapDelete n plugins) n = None.
Proof.
  induction plugins as [|q rest IH]; [done|].
  rewrite fmap_cons. intros Hnd. apply NoDup_cons in Hnd as [Hq Hnd]. simpl.
  destruct (String.eqb (name q) n) eqn:Heq; simpl.
  - apply String.eqb_eq in Heq. subst n. by apply getPlugin_None.
  - rewrite Heq. by apply IH.
Qed.

Lemma wellFormed_mapDelete n plugins :
  wellFormed plugins -> wellFormed (mapDelete n plugins).
Proof.
  intros [Hnd Hall]. split.
  - clear Hall. induction plugins as [|q rest IH]; [done|].
    rewrite fmap_cons in Hnd. apply NoDup_cons in Hnd as [Hq Hnd]. cbn [mapDelete].
    destruct (String.eqb (name q) n); [done|].
    rewrite fmap_cons. apply NoDup_cons. split; [|by apply IH].
    intros H. by apply Hq, (names_mapDelete_sub n).
  - clear Hnd. induction Hall as [|q rest Hq Hall IH]; [constructor|]. simpl.
    destruct (String.eqb (name q) n); [done|]. by constructor.
Qed.

Lemma mapDelete_mapSet p plugins :
  name p ∉ name <$> plugins -> mapDelete (name p) (mapSet p plugins) = plugins.
Proof.
  induction plugins as [|q rest IH]; simpl.
  - by rewrite String.eqb_refl.
  - rewrite not_elem_of_cons. intros [Hne Hrest].
    assert (String.eqb (name q) (name p) = false) as Hq
      by (apply String.eqb_neq; congruence).
    rewrite Hq. simpl. rewrite Hq. by rewrite IH.
Qed.

(** [unregister]: it tells whether the name was registered; afterwards the
    name looks up nothing and every other name looks up what it did before;
    unregistering a name that is not registered changes nothing, and
    unregistering a plugin that was newly registered gives the registry back
    as it was. *)
Theorem unregister_removes n plugins :
  wellFormed plugins ->
  (unregister n plugins).1 = hasPlugin plugins n
  /\ getPlugin (unregister n plugins).2 n = None
  /\ (forall m, m <> n ->
        getPlugin (unregister n plugins).2 m = getPlugin plugins m)
  /\ wellFormed (unregister n plugins).2
  /\ (hasPlugin plugins n = false -> (unregister n plugins).2 = plugins)
  /\ (forall received p r,
        name p = n -> hasPlugin plugins n = false ->
        register received p plugins = Ok r ->
        (unregister n (registry r)).2 = plugins).
Proof.
  intros Hwf. unfold unregister. simpl.
  split; [done|]. split; [apply getPlugin_mapDelete_eq, Hwf|].
  split; [intros m Hm; by apply getPlugin_mapDelete_ne|].
  split; [by apply wellFormed_mapDelete|].
  split; [intros Hno; apply mapDelete_absent; by apply hasPlugin_false|].
  intros received p r <- Hno Hreg.
  apply register_Ok_inv in Hreg as (_ & _ & -> & _).
  apply mapDelete_mapSet. by apply hasPlugin_false.
Qed.

(** *** [createRegistry] *)

Lemma createLoop_spec received globalRegistry names acc :
  wellFormed globalRegistry ->
  wellFormed (registry acc) ->
  (forall n p, getPlugin (registry acc) n = Some p ->
               getPlugin globalRegistry n = Some p) ->
  exists r,
    createLoop received globalRegistry names acc = Ok r
    /\ wellFormed (registry r)
    /\ (forall n,
          getPlugin (registry r) n
          = if bool_decide (n ∈ names) then getPlugin globalRegistry n
            else getPlugin (registry acc) n)
    /\ (forall n, NotFound n ∈ warnings r
                  <-> NotFound n ∈ warnings acc
                      \/ (n ∈ names /\ getPlugin globalRegistry n = None)).
Proof.
  intros Hglobal. revert acc.
  induction names as [|m names IH]; intros acc Hacc Hfrom; simpl.
  - exists acc. split; [done|]. split; [done|]. split; [done|].
    intros n. split; [by left|]. intros [H|[H _]]; [done|by inversion H].
  - destruct (getPlugin globalRegistry m) as [plugin|] eqn:Hget.
    + pose proof (getPlugin_Some _ _ _ Hget) as [Hname Hin].
      destruct Hglobal as [Hnd Hvalid]. rewrite Forall_forall in Hvalid.
      destruct (Hvalid plugin Hin) as [Hn Hv].
      rewrite (register_Ok received plugin (registry acc) Hn Hv). simpl.
      set (acc' := {| warnings := _; registry := _ |}).
      destruct (IH acc') as (r & Hrun & Hwf & Hlook & Hwarn).
      { by apply wellFormed_mapSet. }
      { intros n p. simpl. destruct (decide (n = name plugin)) as [->|Hne].
        - rewrite getPlugin_mapSet_eq. intros [= <-]. by rewrite Hname.
        - rewrite getPlugin_mapSet_ne by done. apply Hfrom. }
      exists r. split; [done|]. split; [done|]. split.
      * intros n. rewrite Hlook. simpl.
        destruct (decide (n = m)) as [->|Hne].
        -- rewrite (bool_decide_eq_true_2 (m ∈ m :: names)) by (by left).
           case_bool_decide; [done|]. rewrite <- Hname, getPlugin_mapSet_eq.
           by rewrite Hname.
        -- rewrite getPlugin_mapSet_ne by congruence.
           repeat case_bool_decide; try done.
           ++ exfalso. match goal with H : ¬ _ |- _ => apply H end. by right.
           ++ exfalso. match goal with H : _ ∈ _ :: _ |- _ =>
                apply elem_of_cons in H as [?|?] end; congruence.
      * intros n. rewrite Hwarn. simpl. rewrite elem_of_app.
        split.
        -- intros [[H|H]|[H Hnone]].
           ++ by left.
           ++ exfalso. destruct (hasPlugin (registry acc) (name plugin));
                [apply list_elem_of_singleton in H; discriminate|by inversion H].
           ++ right. split; [by right|done].
        -- intros [H|[H Hnone]]; [by left; left|].
           apply elem_of_cons in H as [->|H]; [congruence|]. by right.
    + set (acc' := {| warnings := _; registry := _ |}).
      destruct (IH acc') as (r & Hrun & Hwf & Hlook & Hwarn); [done|done|].
      exists r. split; [done|]. split; [done|]. split.
      * intros n. rewrite Hlook. simpl.
        destruct (decide (n = m)) as [->|Hne].
        -- rewrite (bool_decide_eq_true_2 (m ∈ m :: names)) by (by left).
           case_bool_decide; [done|]. rewrite Hget. symmetry.
           destruct (getPlugin (registry acc) m) as [p|] eqn:Hacc'; [|done].
           apply Hfrom in Hacc'. congruence.
        -- repeat case_bool_decide; try done.
           ++ exfalso. match goal with H : ¬ _ |- _ => apply H end. by right.
           ++ exfalso. match goal with H : _ ∈ _ :: _ |- _ =>
                apply elem_of_cons in H as [?|?] end; congruence.
      * intros n. rewrite Hwarn. simpl. rewrite elem_of_app, list_elem_of_singleton.
        split.
        -- intros [[H|H]|[H Hnone]]; [by left| |right; split; [by right|done]].
           injection H as ->. right. split; [by left|done].
        -- intros [H|[H Hnone]]; [by left; left|].
           apply elem_of_cons in H as [->|H]; [left; by right|by right].
Qed.

(** [createRegistry] with a non-empty list of names never throws on a well
    formed global registry: it returns a well formed registry in which a
    name looks up the global plugin of that name if the name was requested
    and nothing otherwise, and it warns about exactly the requested names
    that the global registry does not have. *)
Theorem createRegistry_scoped received globalRegistry names :
  wellFormed globalRegistry ->
  names <> [] ->
  exists r,
    createRegistry received globalRegistry (Some names) = Ok r
    /\ wellFormed (registry r)
    /\ (forall n,
          getPlugin (registry r) n
          = if bool_decide (n ∈ names) then getPlugin globalRegistry n else None)
    /\ (forall n, NotFound n ∈ warnings r
                  <-> n ∈ names /\ getPlugin globalRegistry n = None).
Proof.
  intros Hglobal Hnames.
  destruct (createLoop_spec received globalRegistry names
              {| warnings := []; registry := [] |} Hglobal)
    as (r & Hrun & Hwf & Hlook & Hwarn).
  { split; simpl; constructor. }
  { intros n p. simpl. done. }
  exists r. split.
  { unfold createRegistry. by destruct names. }
  split; [done|]. split; [exact Hlook|].
  intros n. rewrite Hwarn. simpl. split; [intros [H|H]; [by inversion H|done]|by right].
Qed.

(** *** Phase 1: what a throwing [setup] leaves behind, what success gives *)

Lemma NoDup_fmap_filter_names (P : AnimationPlugin -> Prop)
    `{!forall p, Decision (P p)} (plugins : list AnimationPlugin) :
  NoDup (name <$> plugins) -> NoDup (name <$> filter P plugins).
Proof.
  induction plugins as [|q rest IH]; [done|].
  rewrite fmap_cons, NoDup_cons. intros [Hq Hnd]. rewrite filter_cons.
  destruct (decide (P q)); [|by apply IH].
  rewrite fmap_cons. apply NoDup_cons. split; [|by apply IH].
  intros Hin. apply Hq. apply list_elem_of_fmap in Hin as (r & -> & Hr).
  apply list_elem_of_filter in Hr as [_ Hr]. by apply list_elem_of_fmap_2.
Qed.

Lemma setupLoop_throw options before p after calls systems e :
  (forall q, q ∈ before ->
     exists system, setup q (extractPluginOptions q options) = Ok system) ->
  setup p (extractPluginOptions p options) = Throw e ->
  setupLoop options (before ++ p :: after) calls systems
  = (calls ++ (name <$> before) ++ [name p], Throw e).
Proof.
  revert calls systems.
  induction before as [|q before IH]; intros calls systems Hok Hthrow; simpl.
  - by rewrite Hthrow.
  - destruct (Hok q (list_elem_of_here _ _)) as [system ->].
    rewrite IH; [|intros r Hr; apply Hok; by right|done].
    by rewrite <- app_assoc.
Qed.

(** A [setup] that throws ends phase 1: the setups of the plugins before it
    in priority order have been invoked, its own has, no setup after it is,
    and [setupPlugins] throws the same error. *)
Theorem setup_failure_aborts plugins options before p after e :
  let active := getActivePlugins plugins options in
  validateDependencies active = Ok tt ->
  checkConflicts active = Ok tt ->
  sortByPriority active = before ++ p :: after ->
  (forall q, q ∈ before ->
     exists system, setup q (extractPluginOptions q options) = Ok system) ->
  setup p (extractPluginOptions p options) = Throw e ->
  setupPlugins plugins options = ((name <$> before) ++ [name p], Throw e).
Proof.
  intros active Hdep Hcfl Hsorted Hok Hthrow.
  unfold setupPlugins. fold active. rewrite Hdep, Hcfl, Hsorted.
  by rewrite (setupLoop_throw options before p after [] [] e Hok Hthrow).
Qed.

Lemma systemsGet_systemsSet_eq n s systems :
  systemsGet n (systemsSet n s systems) = Some s.
Proof.
  induction systems as [|[m t] rest IH]; simpl.
  - by rewrite String.eqb_refl.
  - destruct (String.eqb m n) eqn:Hm; simpl.
    + by rewrite String.eqb_refl.
    + by rewrite Hm.
Qed.

Lemma systemsGet_systemsSet_ne n m s systems :
  m <> n -> systemsGet m (systemsSet n s systems) = systemsGet m systems.
Proof.
  intros Hne. induction systems as [|[k t] rest IH]; simpl.
  - assert (String.eqb n m = false) as -> by (apply String.eqb_neq; congruence).
    done.
  - destruct (String.eqb k n) eqn:Hk; simpl.
    + apply String.eqb_eq in Hk. subst k.
      assert (String.eqb n m = false) as -> by (apply String.eqb_neq; congruence).
      done.
    + by rewrite IH.
Qed.

Lemma setupLoop_Ok options sorted calls systems calls' systems' :
  setupLoop options sorted calls systems = (calls', Ok systems') ->
  calls' = calls ++ (name <$> sorted)
  /\ (forall n, n ∉ name <$> sorted -> systemsGet n systems' = systemsGet n systems)
  /\ (NoDup (name <$> sorted) ->
      forall p, p ∈ sorted ->
        exists system,
          setup p (extractPluginOptions p options) = Ok system
          /\ systemsGet (name p) systems' = Some system).
Proof.
  revert calls systems.
  induction sorted as [|q sorted IH]; intros calls systems; simpl.
  - intros [= <- <-]. rewrite app_nil_r. split; [done|]. split; [done|].
    intros _ p Hp. by inversion Hp.
  - destruct (setup q (extractPluginOptions q options)) as [system|e] eqn:Hq; [|done].
    intros Hrun. destruct (IH _ _ Hrun) as (Hcalls & Hother & Hall).
    split; [by rewrite Hcalls, <- app_assoc|]. split.
    + intros n Hn. apply not_elem_of_cons in Hn as [Hne Hn].
      rewrite (Hother n Hn). by apply systemsGet_systemsSet_ne.
    + intros Hnd p Hp. apply NoDup_cons in Hnd as [Hq' Hnd].
      apply elem_of_cons in Hp as [->|Hp].
      * exists system. split; [done|].
        rewrite (Hother (name q) Hq'). apply systemsGet_systemsSet_eq.
      * by apply Hall.
Qed.

(** When [setupPlugins] returns, the setup of every active plugin has been
    invoked, in priority order, and the [Map] of systems holds under each
    active plugin's name what that plugin's [setup] returned, and nothing
    under any other name. *)
Theorem setup_success_systems plugins options calls res :
  NoDup (name <$> plugins) ->
  setupPlugins plugins options = (calls, Ok res) ->
  sortedPlugins res = sortByPriority (getActivePlugins plugins options)
  /\ calls = name <$> sortedPlugins res
  /\ (forall p, p ∈ getActivePlugins plugins options ->
        exists system,
          setup p (extractPluginOptions p options) = Ok system
          /\ systemsGet (name p) (systems res) = Some system)
  /\ (forall n, n ∉ name <$> getActivePlugins plugins options ->
        systemsGet n (systems res) = None).
Proof.
  intros Hnd. unfold setupPlugins.
  set (active := getActivePlugins plugins options).
  destruct (validateDependencies active) as [[]|]; [|done].
  destruct (checkConflicts active) as [[]|]; [|done].
  destruct (setupLoop options (sortByPriority active) [] []) as [calls' [sys|e]] eqn:Hloop;
    [|done].
  intros [= <- <-]. simpl.
  destruct (setupLoop_Ok _ _ _ _ _ _ Hloop) as (Hcalls & Hother & Hall).
  assert (Hperm : sortByPriority active ≡ₚ active) by apply js_sort_perm.
  assert (Hnd' : NoDup (name <$> sortByPriority active)).
  { rewrite Hperm. unfold active, getActivePlugins.
    by apply NoDup_fmap_filter_names. }
  split; [done|]. split; [done|]. split.
  - intros p Hp. apply (Hall Hnd'). by rewrite Hperm.
  - intros n Hn. rewrite Hother; [done|]. by rewrite Hperm.
Qed.

(** *** Phases 2 and 3 *)

Section PhasesFacts.
Variable registerWatchersOf : AnimationPlugin -> option (list nat).
Variable contributeToAPIOf :
  AnimationPlugin -> option (list (string * PluginSystem) -> gmap string JSValue).

Let assign (systems : list (string * PluginSystem))
    (api : gmap string JSValue) (plugin : AnimationPlugin) : gmap string JSValue :=
  match contributeToAPIOf plugin with
  | Some contribute => contribute systems ∪ api
  | None => api
  end.

Lemma assign_silent systems l api k :
  (forall q, q ∈ l -> ~ contributes contributeToAPIOf systems q k) ->
  foldl (assign systems) api l !! k = api !! k.
Proof.
  revert api. induction l as [|q l IH]; intros api Hnone; [done|].
  simpl. rewrite IH by (intros r Hr; apply Hnone; by right).
  unfold assign. destruct (contributeToAPIOf q) as [g|] eqn:Hg; [|done].
  rewrite lookup_union_r; [done|].
  destruct (g systems !! k) eqn:Hk; [|done].
  exfalso. apply (Hnone q (list_elem_of_here _ _)). exists g. by rewrite Hk.
Qed.

(** When several plugins contribute the same key to the API, the last of
    them in priority order (the one of lowest priority) provides the value;
    a key that no plugin contributes is not in the API. *)
Theorem buildAPI_last_wins plugins options systems sorted k :
  (forall before p after contribute v,
     pluginsOr plugins options sorted = before ++ p :: after ->
     contributeToAPIOf p = Some contribute ->
     contribute systems !! k = Some v ->
     (forall q, q ∈ after -> ~ contributes contributeToAPIOf systems q k) ->
     buildAPI contributeToAPIOf plugins options systems sorted !! k = Some v)
  /\ ((forall q, q ∈ pluginsOr plugins options sorted ->
         ~ contributes contributeToAPIOf systems q k) ->
      buildAPI contributeToAPIOf plugins options systems sorted !! k = None).
Proof.
  unfold buildAPI. fold (assign systems). split.
  - intros before p after g v -> Hg Hv Hafter.
    rewrite foldl_app. simpl. rewrite assign_silent by done.
    unfold assign at 1. rewrite Hg. by apply lookup_union_Some_l.
  - intros Hnone. by rewrite assign_silent.
Qed.

Let push (watchers : list nat) (plugin : AnimationPlugin) : list nat :=
  match registerWatchersOf plugin with
  | Some ws => watchers ++ ws
  | None => watchers
  end.

Lemma push_elem l acc w :
  w ∈ foldl push acc l
  <-> w ∈ acc \/ exists p ws, p ∈ l /\ registerWatchersOf p = Some ws /\ w ∈ ws.
Proof.
  revert acc. induction l as [|q l IH]; intros acc; simpl.
  - split; [by left|]. intros [H|(p & ws & Hp & _)]; [done|by inversion Hp].
  - rewrite IH. unfold push. split.
    + intros [Hacc|(p & ws & Hp & Hws & Hw)].
      * destruct (registerWatchersOf q) as [ws|] eqn:Hq; [|by left].
        apply elem_of_app in Hacc as [H|H]; [by left|].
        right. exists q, ws. split; [by left|done].
      * right. exists p, ws. split; [by right|done].
    + intros [Hacc|(p & ws & Hp & Hws & Hw)].
      * left. destruct (registerWatchersOf q); [|done]. apply elem_of_app. by left.
      * apply elem_of_cons in Hp as [->|Hp].
        -- left. rewrite Hws. apply elem_of_app. by right.
        -- right. by exists p, ws.
Qed.

(** Phase 2 without a list handed over: the stop handles returned are
    exactly those that the watcher registrations of the active plugins
    return; an inactive plugin registers nothing. *)
Theorem registerWatchers_of_active plugins options w :
  w ∈ registerWatchers registerWatchersOf plugins options None
  <-> exists p ws,
        p ∈ plugins /\ activates options p = true
        /\ registerWatchersOf p = Some ws /\ w ∈ ws.
Proof.
  unfold registerWatchers, pluginsOr. simpl. fold push. rewrite push_elem.
  assert (Hperm : sortByPriority (getActivePlugins plugins options)
                  ≡ₚ getActivePlugins plugins options) by apply js_sort_perm.
  split.
  - intros [H|(p & ws & Hp & Hws & Hw)]; [by inversion H|].
    rewrite Hperm in Hp. apply list_elem_of_filter in Hp as [Hact Hp].
    by exists p, ws.
  - intros (p & ws & Hp & Hact & Hws & Hw). right. exists p, ws.
    split; [|done]. rewrite Hperm. by apply list_elem_of_filter.
Qed.

End PhasesFacts.

(** *** The theorems above at concrete registries *)

Lemma wellFormed_namespaced : wellFormed namespacedRegistry.
Proof.
  split.
  - apply (bool_decide_unpack _). vm_compute. exact I.
  - repeat constructor; done.
Qed.


Lemma register_keeps_names_witness :
  wellFormed (mapSet MoreExamples.broken namespacedRegistry)
  /\ (hasPlugin namespacedRegistry (name MoreExamples.broken) = true ->
      getRegisteredPlugins (mapSet MoreExamples.broken namespacedRegistry)
      = getRegisteredPlugins namespacedRegistry
      /\ (if hasPlugin namespacedRegistry (name MoreExamples.broken)
          then [AlreadyRegistered (name MoreExamples.broken)] else [])
         = [AlreadyRegistered (name MoreExamples.broken)])
  /\ (hasPlugin namespacedRegistry (name MoreExamples.broken) = false ->
      getRegisteredPlugins (mapSet MoreExamples.broken namespacedRegistry)
      = getRegisteredPlugins namespacedRegistry ++ [name MoreExamples.broken]
      /\ (if hasPlugin namespacedRegistry (name MoreExamples.broken)
          then [AlreadyRegistered (name MoreExamples.broken)] else [])
         = []).
Proof.
  apply (register_keeps_names MoreExamples.received MoreExamples.broken
           namespacedRegistry
           {| warnings :=
                if hasPlugin namespacedRegistry (name MoreExamples.broken)
                then [AlreadyRegistered (name MoreExamples.broken)] else [];
              registry := mapSet MoreExamples.broken namespacedRegistry |}).
  - exact wellFormed_namespaced.
  - reflexivity.
Defined.

Lemma unregister_removes_witness :
  (unregister "consumer" namespacedRegistry).1 = hasPlugin namespacedRegistry "consumer"
  /\ getPlugin (unregister "consumer" namespacedRegistry).2 "consumer" = None
  /\ (forall m, m <> "consumer"%string ->
        getPlugin (unregister "consumer" namespacedRegistry).2 m
        = getPlugin namespacedRegistry m)
  /\ wellFormed (unregister "consumer" namespacedRegistry).2
  /\ (hasPlugin namespacedRegistry "consumer" = false ->
      (unregister "consumer" namespacedRegistry).2 = namespacedRegistry)
  /\ (forall received p r,
        name p = "consumer"%string -> hasPlugin namespacedRegistry "consumer" = false ->
        register received p namespacedRegistry = Ok r ->
        (unregister "consumer" (registry r)).2 = namespacedRegistry).
Proof.
  apply (unregister_removes "consumer" namespacedRegistry).
  exact wellFormed_namespaced.
Defined.

Lemma createRegistry_scoped_witness :
  exists r,
    createRegistry MoreExamples.received namespacedRegistry
      (Some ["consumer"; "motionPath"; "consumer"]%string) = Ok r
    /\ wellFormed (registry r)
    /\ (forall n,
          getPlugin (registry r) n
          = if bool_decide (n ∈ ["consumer"; "motionPath"; "consumer"]%string)
            then getPlugin namespacedRegistry n else None)
    /\ (forall n, NotFound n ∈ warnings r
                  <-> n ∈ ["consumer"; "motionPath"; "consumer"]%string
                      /\ getPlugin namespacedRegistry n = None).
Proof.
  apply (createRegistry_scoped MoreExamples.received namespacedRegistry
           ["consumer"; "motionPath"; "consumer"]%string).
  - exact wellFormed_namespaced.
  - discriminate.
Defined.

Lemma setup_failure_aborts_witness :
  setupPlugins MoreExamples.brokenRegistry MoreExamples.allThree
  = ((name <$> [plugin "first" None None (Some 100)]) ++ [name MoreExamples.broken],
     Throw "boom").
Proof.
  apply (setup_failure_aborts MoreExamples.brokenRegistry MoreExamples.allThree
           [plugin "first" None None (Some 100)] MoreExamples.broken
           [plugin "last" None None (Some 10)] "boom").
  - vm_compute. reflexivity.
  - vm_compute. reflexivity.
  - vm_compute. reflexivity.
  - intros q Hq. apply list_elem_of_singleton in Hq as ->. by exists plainSystem.
  - reflexivity.
Defined.

Lemma setup_success_systems_witness :
  sortedPlugins {| systems := [("responsive", plainSystem); ("consumer", plainSystem)]%string;
                   sortedPlugins := namespacedRegistry |}
  = sortByPriority (getActivePlugins namespacedRegistry consumerAndResponsive)
  /\ ["responsive"; "consumer"]%string
     = name <$> sortedPlugins
                  {| systems := [("responsive", plainSystem); ("consumer", plainSystem)]%string;
                     sortedPlugins := namespacedRegistry |}
  /\ (forall p, p ∈ getActivePlugins namespacedRegistry consumerAndResponsive ->
        exists system,
          setup p (extractPluginOptions p consumerAndResponsive) = Ok system
          /\ systemsGet (name p)
               (systems {| systems := [("responsive", plainSystem); ("consumer", plainSystem)]%string;
                           sortedPlugins := namespacedRegistry |}) = Some system)
  /\ (forall n, n ∉ name <$> getActivePlugins namespacedRegistry consumerAndResponsive ->
        systemsGet n
          (systems {| systems := [("responsive", plainSystem); ("consumer", plainSystem)]%string;
                      sortedPlugins := namespacedRegistry |}) = None).
Proof.
  apply (setup_success_systems namespacedRegistry consumerAndResponsive
           ["responsive"; "consumer"]%string
           {| systems := [("responsive", plainSystem); ("consumer", plainSystem)]%string;
              sortedPlugins := namespacedRegistry |}).
  - apply wellFormed_namespaced.
  - vm_compute. reflexivity.
Defined.

Lemma buildAPI_last_wins_witness :
  buildAPI MoreExamples.contributePlay [] ∅ []
    (Some [plugin "first" None None (Some 100); plugin "last" None None (Some 10)])
    !! "play"
  = Some (VNumber 2%float).
Proof.
  apply (proj1 (buildAPI_last_wins MoreExamples.contributePlay [] ∅ []
                  (Some [plugin "first" None None (Some 100);
                         plugin "last" None None (Some 10)]) "play")
           [plugin "first" None None (Some 100)]
           (plugin "last" None None (Some 10)) []
           (fun _ => {[ "play"%string := VNumber 2%float ]})
           (VNumber 2%float)).
  - reflexivity.
  - reflexivity.
  - reflexivity.
  - intros q Hq. by apply elem_of_nil in Hq.
Defined.

End RegistryOpsFacts.

(** ** Subscriptions of the shared clock and the pausable timer *)

Module TimerFacts.
Import Raf Timer Examples.

Lemma symbols_has id st : has id st = true <-> id ∈ symbols st.
Proof.
  unfold has, symbols. induction (callbacks st) as [|e l IH]; simpl.
  - split; [done|intros H; inversion H].
  - destruct e as [[i cb]|]; simpl.
    + rewrite orb_true_iff, IH, elem_of_cons, Nat.eqb_eq. split; intros [?|?]; auto.
    + exact IH.
Qed.

Lemma symbols_has_false id st : has id st = false <-> id ∉ symbols st.
Proof.
  rewrite <- symbols_has. destruct (has id st); split; congruence.
Qed.

Lemma size_symbols st : size st = length (symbols st).
Proof.
  unfold size, symbols. induction (callbacks st) as [|e l IH]; [done|].
  destruct e as [[i cb]|].
  - rewrite filter_cons_True by eauto. simpl. by rewrite IH.
  - rewrite filter_cons_False by apply is_Some_None. exact IH.
Qed.

Lemma symbols_add cb st : symbols (add cb st).1 = symbols st ++ [nextSymbol st].
Proof.
  unfold symbols. rewrite RafFacts.add_callbacks, omap_app. done.
Qed.

Lemma nextSymbol_add cb st : nextSymbol (add cb st).1 = S (nextSymbol st).
Proof. unfold add, ensureLoop. simpl. by destruct (rafId st). Qed.

Lemma nextSymbol_remove id st : nextSymbol (remove id st) = nextSymbol st.
Proof.
  unfold remove. destruct (has id st); [|done]. simpl.
  destruct (rafId st); [|done]. by destruct (size _ =? _)%nat.
Qed.

Lemma symbols_tombstone id (l : list (option (nat * FrameCallback))) :
  omap (fun e => fst <$> e) ((fun e => if is_entry id e then None else e) <$> l)
  = filter (fun j => j <> id) (omap (fun e => fst <$> e) l).
Proof.
  induction l as [|e l IH]; [done|].
  rewrite fmap_cons. destruct e as [[i cb]|]; simpl.
  - destruct (Nat.eqb_spec i id) as [->|Hne]; simpl.
    + rewrite filter_cons_False by tauto. exact IH.
    + rewrite filter_cons_True by done. f_equal. exact IH.
  - exact IH.
Qed.

Lemma filter_ne_absent id (l : list nat) :
  id ∉ l -> filter (fun j => j <> id) l = l.
Proof.
  induction l as [|x l IH]; [done|].
  rewrite not_elem_of_cons. intros [Hne Hl].
  rewrite filter_cons, decide_True by congruence. by rewrite IH.
Qed.

Lemma symbols_remove id st :
  symbols (remove id st) = filter (fun j => j <> id) (symbols st).
Proof.
  unfold symbols. rewrite RafFacts.remove_callbacks.
  destruct (has id st) eqn:Hhas.
  - apply symbols_tombstone.
  - symmetry. apply filter_ne_absent. by apply symbols_has_false.
Qed.

Lemma length_filter_ne id (l : list nat) :
  NoDup l -> id ∈ l -> S (length (filter (fun j => j <> id) l)) = length l.
Proof.
  induction l as [|x l IH]; intros Hnd Hin; [by inversion Hin|].
  apply NoDup_cons in Hnd as [Hx Hnd]. rewrite filter_cons.
  destruct (decide (x = id)) as [->|Hne].
  - rewrite decide_False by tauto. rewrite filter_ne_absent by done. done.
  - rewrite decide_True by done. simpl. f_equal. apply IH; [done|].
    apply elem_of_cons in Hin as [?|?]; [congruence|done].
Qed.

Lemma fresh_symbols_add cb st : fresh_symbols st -> fresh_symbols (add cb st).1.
Proof.
  intros [Hlt Hnd]. unfold fresh_symbols.
  rewrite symbols_add, nextSymbol_add. split.
  - apply Forall_app. split; [|repeat constructor].
    eapply Forall_impl; [exact Hlt|]. intros; simpl in *; lia.
  - apply NoDup_app. split; [done|]. split; [|apply NoDup_singleton].
    intros x Hx Hx'. apply list_elem_of_singleton in Hx' as ->.
    rewrite Forall_forall in Hlt. specialize (Hlt _ Hx). simpl in Hlt. lia.
Qed.

Lemma fresh_symbols_remove id st : fresh_symbols st -> fresh_symbols (remove id st).
Proof.
  intros [Hlt Hnd]. unfold fresh_symbols.
  rewrite symbols_remove, nextSymbol_remove. split.
  - rewrite Forall_forall in *. intros x Hx.
    apply list_elem_of_filter in Hx as [_ Hx]. by apply Hlt.
  - by apply NoDup_filter.
Qed.

(** [add]: the symbol returned was not subscribed before and is subscribed
    afterwards; every earlier subscription is still there, and there is one
    subscriber more. *)
Theorem add_subscribes_fresh_symbol cb st :
  fresh_symbols st ->
  has (add cb st).2 st = false
  /\ has (add cb st).2 (add cb st).1 = true
  /\ (forall id, has id st = true -> has id (add cb st).1 = true)
  /\ size (add cb st).1 = S (size st)
  /\ fresh_symbols (add cb st).1.
Proof.
  intros Hfresh. pose proof Hfresh as [Hlt Hnd].
  assert (Hid : (add cb st).2 = nextSymbol st) by done. rewrite Hid.
  split; [|split; [|split; [|split]]].
  - apply symbols_has_false. intros Hin. rewrite Forall_forall in Hlt.
    specialize (Hlt _ Hin). simpl in Hlt. lia.
  - apply symbols_has. rewrite symbols_add, elem_of_app. right. by left.
  - intros id Hhas. apply symbols_has. rewrite symbols_add, elem_of_app.
    left. by apply symbols_has.
  - rewrite !size_symbols, symbols_add, length_app. simpl. lia.
  - by apply fresh_symbols_add.
Qed.

(** [remove]: afterwards the symbol is not subscribed, every other symbol is
    subscribed exactly if it was before, and the number of subscribers has
    gone down by one if the symbol was subscribed; removing a symbol that is
    not subscribed changes nothing at all. *)
Theorem remove_unsubscribes id st :
  fresh_symbols st ->
  has id (remove id st) = false
  /\ (forall j, j <> id -> has j (remove id st) = has j st)
  /\ (has id st = true -> S (size (remove id st)) = size st)
  /\ (has id st = false -> remove id st = st)
  /\ fresh_symbols (remove id st).
Proof.
  intros Hfresh. pose proof Hfresh as [Hlt Hnd].
  split; [|split; [|split; [|split]]].
  - apply symbols_has_false. rewrite symbols_remove, list_elem_of_filter. tauto.
  - intros j Hj. apply eq_true_iff_eq.
    rewrite !symbols_has, symbols_remove, list_elem_of_filter. tauto.
  - intros Hhas. rewrite !size_symbols, symbols_remove.
    apply length_filter_ne; [done|]. by apply symbols_has.
  - intros Hhas. unfold remove. by rewrite Hhas.
  - by apply fresh_symbols_remove.
Qed.

(** *** The timer *)

Lemma resume_None cb t st :
  subscriptionId t = None ->
  resume cb (t, st)
  = ({| subscriptionId := Some (nextSymbol st); lastTimestamp := 0%float;
        reported := reported t |}, (add cb st).1).
Proof. unfold resume. simpl. by intros ->. Qed.

Lemma resume_Some cb t st id :
  subscriptionId t = Some id -> resume cb (t, st) = (t, st).
Proof. unfold resume. simpl. by intros ->. Qed.

Lemma pause_Some t st id :
  subscriptionId t = Some id ->
  pause (t, st)
  = ({| subscriptionId := None; lastTimestamp := 0%float;
        reported := reported t |}, remove id st).
Proof. unfold pause. simpl. by intros ->. Qed.

Lemma pause_None t st : subscriptionId t = None -> pause (t, st) = (t, st).
Proof. unfold pause. simpl. by intros ->. Qed.

Lemma timer_ok_call cb st0 x c :
  fresh_symbols st0 -> timer_ok st0 x -> timer_ok st0 (call cb x c).
Proof.
  intros Hst0. destruct x as [t st]. intros (Hfresh & Hnext & Hsym & Hid).
  cbn [fst snd] in *.
  destruct c; cbn [call]; destruct (subscriptionId t) as [id|] eqn:Ht.
  - rewrite (pause_Some _ _ _ Ht). unfold timer_ok. cbn [fst snd subscriptionId].
    split; [by apply fresh_symbols_remove|].
    split; [by rewrite nextSymbol_remove|]. split; [|done].
    rewrite symbols_remove, Hsym.
    change (option_list (Some id)) with [id].
    change (option_list (@None nat)) with (@nil nat).
    rewrite filter_app. rewrite filter_ne_absent.
    + rewrite filter_cons_False by tauto. done.
    + intros Hin. destruct Hst0 as [Hlt _]. rewrite Forall_forall in Hlt.
      specialize (Hlt _ Hin). specialize (Hid id eq_refl). simpl in Hlt. lia.
  - rewrite (pause_None _ _ Ht). unfold timer_ok. cbn [fst snd]. by rewrite Ht.
  - rewrite (resume_Some _ _ _ _ Ht). unfold timer_ok. cbn [fst snd]. by rewrite Ht.
  - rewrite (resume_None _ _ _ Ht). unfold timer_ok. cbn [fst snd subscriptionId].
    split; [by apply fresh_symbols_add|].
    rewrite nextSymbol_add, symbols_add, Hsym.
    change (option_list (@None nat)) with (@nil nat).
    change (option_list (Some (nextSymbol st))) with [nextSymbol st].
    split; [lia|]. split; [by rewrite app_nil_r|]. intros id [= <-]. done.
Qed.

Lemma timer_ok_calls cb st0 calls x :
  fresh_symbols st0 -> timer_ok st0 x -> timer_ok st0 (foldl (call cb) x calls).
Proof.
  intros Hst0. revert x. induction calls as [|c calls IH]; intros x Hx; [done|].
  simpl. apply IH. by apply timer_ok_call.
Qed.

Lemma timer_ok_create cb immediate st0 :
  fresh_symbols st0 -> timer_ok st0 (createRafControls cb immediate st0).
Proof.
  intros Hst0.
  assert (Hresume : timer_ok st0
            (resume cb ({| subscriptionId := None; lastTimestamp := 0%float;
                           reported := [] |}, st0))).
  { rewrite resume_None by done. unfold timer_ok. cbn [fst snd subscriptionId].
    split; [by apply fresh_symbols_add|].
    rewrite nextSymbol_add, symbols_add.
    change (option_list (Some (nextSymbol st0))) with [nextSymbol st0].
    split; [lia|]. split; [done|]. intros id [= <-]. done. }
  unfold createRafControls. destruct immediate as [[]|]; try exact Hresume.
  unfold timer_ok. cbn [fst snd subscriptionId].
  change (option_list (@None nat)) with (@nil nat).
  split; [done|]. split; [done|]. split; [by rewrite app_nil_r|done].
Qed.

Lemma timer_size cb immediate st0 calls :
  fresh_symbols st0 ->
  let x := foldl (call cb) (createRafControls cb immediate st0) calls in
  size x.2 = (size st0 + held x.1)%nat.
Proof.
  intros Hst0 x.
  destruct (timer_ok_calls cb st0 calls _ Hst0 (timer_ok_create cb immediate st0 Hst0))
    as (_ & _ & Hsym & _).
  fold x in Hsym. unfold held.
  rewrite !size_symbols, Hsym, length_app. by destruct (subscriptionId x.1).
Qed.

(** A timer made by [createRafControls], whatever [pause()] and [resume()]
    calls follow in whatever order, holds at most one subscription: the clock
    has the subscribers it had before, none of them lost, plus one exactly
    while the timer is resumed, and the timer's symbol is then subscribed
    and is none of the earlier ones. *)
Theorem timer_holds_one_subscription cb immediate st0 calls :
  fresh_symbols st0 ->
  let x := foldl (call cb) (createRafControls cb immediate st0) calls in
  size x.2 = (size st0 + held x.1)%nat
  /\ (forall id, has id st0 = true -> has id x.2 = true)
  /\ (forall id, subscriptionId x.1 = Some id ->
        has id x.2 = true /\ has id st0 = false).
Proof.
  intros Hst0 x.
  destruct (timer_ok_calls cb st0 calls _ Hst0 (timer_ok_create cb immediate st0 Hst0))
    as (_ & _ & Hsym & Hid).
  fold x in Hsym, Hid. unfold held. split; [|split].
  - rewrite !size_symbols, Hsym, length_app. by destruct (subscriptionId x.1).
  - intros id Hhas. apply symbols_has. rewrite Hsym, elem_of_app. left.
    by apply symbols_has.
  - intros id Hsub. split.
    + apply symbols_has. rewrite Hsym, Hsub, elem_of_app. right. by left.
    + apply symbols_has_false. intros Hin. destruct Hst0 as [Hlt _].
      rewrite Forall_forall in Hlt. specialize (Hlt _ Hin).
      specialize (Hid id Hsub). simpl in Hlt. lia.
Qed.

Lemma fresh_symbols_initial : fresh_symbols initial.
Proof. split; constructor. Qed.

Lemma timer_holds_one_subscription_witness :
  let x := foldl (call (idle 1)) (createRafControls (idle 1) None initial)
                 [CallResume; CallPause; CallPause; CallResume] in
  size x.2 = (size initial + held x.1)%nat
  /\ (forall id, has id initial = true -> has id x.2 = true)
  /\ (forall id, subscriptionId x.1 = Some id ->
        has id x.2 = true /\ has id initial = false).
Proof.
  apply (timer_holds_one_subscription (idle 1) None initial
           [CallResume; CallPause; CallPause; CallResume]).
  exact fresh_symbols_initial.
Defined.

Lemma call_one_request cb x c :
  one_request x.2 -> one_request (call cb x c).2.
Proof.
  destruct x as [t st]. cbn [snd]. intros Hone.
  destruct c; cbn [call]; destruct (subscriptionId t) as [id|] eqn:Ht.
  - rewrite (pause_Some _ _ _ Ht). by apply RafFacts.one_request_remove.
  - by rewrite (pause_None _ _ Ht).
  - by rewrite (resume_Some _ _ _ _ Ht).
  - rewrite (resume_None _ _ _ Ht). by apply (RafFacts.one_request_add cb).
Qed.


(** The first frame after a [resume()] that took effect is reported with
    delta 0, whatever the timer saw before; the frame after it is reported
    with the difference of the two timestamps, unless the first timestamp is
    0 or NaN, which reads as "no frame yet" and gives delta 0 again. *)
Theorem timer_delta_after_resume cb c st first second :
  subscriptionId c = None ->
  let resumed := (resume cb (c, st)).1 in
  reported (wrappedCallback first resumed) = reported c ++ [(first, 0%float)]
  /\ reported (wrappedCallback second (wrappedCallback first resumed))
     = reported c ++ [(first, 0%float);
                      (second, if numberTruthy first
                               then PrimFloat.sub second first else 0%float)].
Proof.
  intros Hnone resumed. unfold resumed. rewrite (resume_None _ _ _ Hnone).
  unfold wrappedCallback. cbn [fst lastTimestamp reported subscriptionId].
  split; [done|]. by rewrite <- app_assoc.
Qed.

Lemma timer_delta_after_resume_witness :
  let c := {| subscriptionId := None; lastTimestamp := 500%float; reported := [] |} in
  let resumed := (resume (idle 1) (c, initial)).1 in
  reported (wrappedCallback 1000%float resumed) = reported c ++ [(1000%float, 0%float)]
  /\ reported (wrappedCallback 1016%float (wrappedCallback 1000%float resumed))
     = reported c ++ [(1000%float, 0%float);
                      (1016%float, if numberTruthy 1000%float
                                   then PrimFloat.sub 1016%float 1000%float
                                   else 0%float)].
Proof.
  apply (timer_delta_after_resume (idle 1)
           {| subscriptionId := None; lastTimestamp := 500%float; reported := [] |}
           initial 1000%float 1016%float).
  reflexivity.
Defined.

Lemma add_subscribes_fresh_symbol_witness :
  let st := (add (idle 1) initial).1 in
  has (add (idle 2) st).2 st = false
  /\ has (add (idle 2) st).2 (add (idle 2) st).1 = true
  /\ (forall id, has id st = true -> has id (add (idle 2) st).1 = true)
  /\ size (add (idle 2) st).1 = S (size st)
  /\ fresh_symbols (add (idle 2) st).1.
Proof.
  apply (add_subscribes_fresh_symbol (idle 2) (add (idle 1) initial).1).
  apply fresh_symbols_add, fresh_symbols_initial.
Defined.

Lemma remove_unsubscribes_witness :
  let st := (add (idle 2) (add (idle 1) initial).1).1 in
  has 0%nat (remove 0%nat st) = false
  /\ (forall j, j <> 0%nat -> has j (remove 0%nat st) = has j st)
  /\ (has 0%nat st = true -> S (size (remove 0%nat st)) = size st)
  /\ (has 0%nat st = false -> remove 0%nat st = st)
  /\ fresh_symbols (remove 0%nat st).
Proof.
  apply (remove_unsubscribes 0%nat (add (idle 2) (add (idle 1) initial).1).1).
  apply fresh_symbols_add, fresh_symbols_add, fresh_symbols_initial.
Defined.

End TimerFacts.

(** ** The event bus *)

Module EventBusFacts.
Import EventBus.

Lemma elem_of_setAdd h x hs : x ∈ setAdd h hs <-> x = h \/ x ∈ hs.
Proof.
  unfold setAdd. case_bool_decide as Hin.
  - split; [by right|]. by intros [->|?].
  - rewrite elem_of_app, list_elem_of_singleton. tauto.
Qed.

Lemma NoDup_setAdd h hs : NoDup hs -> NoDup (setAdd h hs).
Proof.
  unfold setAdd. case_bool_decide as Hin; [done|]. intros Hnd.
  apply NoDup_app. split; [done|]. split; [|apply NoDup_singleton].
  intros x Hx Hx'. apply list_elem_of_singleton in Hx' as ->. done.
Qed.

Lemma setAdd_not_nil h hs : setAdd h hs <> [].
Proof.
  unfold setAdd. case_bool_decide as Hin.
  - intros ->. by apply elem_of_nil in Hin.
  - by destruct hs.
Qed.

Lemma setAdd_again h hs : setAdd h (setAdd h hs) = setAdd h hs.
Proof.
  unfold setAdd at 1. rewrite bool_decide_eq_true_2; [done|].
  apply elem_of_setAdd. by left.
Qed.

Lemma setAdd_prefix h hs : hs `prefix_of` setAdd h hs.
Proof.
  unfold setAdd. case_bool_decide; [done|]. by apply prefix_app_r.
Qed.

Lemma setDelete_absent h hs : h ∉ hs -> setDelete h hs = hs.
Proof.
  induction hs as [|a hs IH]; [done|].
  intros [Hne Hin]%not_elem_of_cons. unfold setDelete.
  rewrite filter_cons_True by congruence. f_equal. by apply IH.
Qed.

Lemma setDelete_gone h hs : h ∉ setDelete h hs.
Proof. unfold setDelete. rewrite list_elem_of_filter. tauto. Qed.

Lemma setDelete_setAdd h hs : h ∉ hs -> setDelete h (setAdd h hs) = hs.
Proof.
  intros Hin. unfold setAdd. rewrite bool_decide_eq_false_2 by done.
  unfold setDelete. rewrite filter_app. fold (setDelete h hs).
  rewrite setDelete_absent by done.
  rewrite filter_cons_False by tauto. apply app_nil_r.
Qed.

Lemma NoDup_setDelete h hs : NoDup hs -> NoDup (setDelete h hs).
Proof. apply NoDup_filter. Qed.

Lemma tidy_on event h handlers : tidy handlers -> tidy (on event h handlers).
Proof.
  intros Htidy e hs. unfold on. rewrite lookup_insert. case_decide as He.
  - intros [= <-]. split; [|apply setAdd_not_nil]. apply NoDup_setAdd.
    destruct (handlers !! event) as [old|] eqn:Hold; simpl.
    + by apply (Htidy event).
    + constructor.
  - apply Htidy.
Qed.

Lemma tidy_off event h handlers : tidy handlers -> tidy (off event h handlers).
Proof.
  intros Htidy e hs. unfold off.
  destruct (handlers !! event) as [old|] eqn:Hold; [|apply Htidy].
  destruct (setDelete h old) as [|r rest] eqn:Hrest.
  - rewrite lookup_delete. case_decide; [done|apply Htidy].
  - rewrite lookup_insert. case_decide; [|apply Htidy].
    intros [= <-]. split; [|done]. rewrite <- Hrest.
    apply NoDup_setDelete. by apply (Htidy event).
Qed.

Lemma emit_on_other {P} event other h (p : P) handlers :
  other <> event -> emit other p (on event h handlers) = emit other p handlers.
Proof. intros Hne. unfold emit, on. by rewrite lookup_insert_ne. Qed.

Lemma fmap_setDelete {P} h (p : P) hs :
  (fun h' => (h', p)) <$> setDelete h hs
  = filter (fun c => c.1 <> h) ((fun h' => (h', p)) <$> hs).
Proof.
  induction hs as [|a hs IH]; [done|]. unfold setDelete. rewrite fmap_cons.
  destruct (decide (a = h)) as [->|Hne].
  - rewrite filter_cons_False by tauto.
    rewrite (filter_cons_False (fun c : nat * P => c.1 <> h)) by (simpl; tauto).
    exact IH.
  - rewrite filter_cons_True by done.
    rewrite (filter_cons_True (fun c : nat * P => c.1 <> h)) by done.
    rewrite fmap_cons. f_equal. exact IH.
Qed.

Lemma fst_paired {P} (p : P) (hs : list nat) :
  ((fun h' => (h', p)) <$> hs).*1 = hs.
Proof. induction hs as [|a hs IH]; [done|]. simpl. by f_equal. Qed.

(** [on]: afterwards every [emit] of the event calls the handler, exactly
    once even if it had been registered before; the handlers registered
    earlier are called first, in their order; registering the handler again
    changes nothing; the handlers of other events are not touched. *)
Theorem on_registers_once {P} event h (p : P) handlers :
  tidy handlers ->
  let handlers' := on event h handlers in
  tidy handlers'
  /\ (h, p) ∈ emit event p handlers'
  /\ NoDup (emit event p handlers').*1
  /\ emit event p handlers `prefix_of` emit event p handlers'
  /\ on event h handlers' = handlers'
  /\ (forall other, other <> event ->
        emit other p handlers' = emit other p handlers).
Proof.
  intros Htidy handlers'.
  pose proof (tidy_on event h handlers Htidy) as Htidy'.
  assert (Hget : handlers' !! event
                 = Some (setAdd h (default [] (handlers !! event))))
    by (unfold handlers', on; apply lookup_insert_eq).
  split; [done|]. split; [|split; [|split; [|split]]].
  - unfold emit. rewrite Hget. simpl.
    apply (list_elem_of_fmap_2 (fun h' => (h', p))).
    apply elem_of_setAdd. by left.
  - unfold emit. rewrite Hget. simpl.
    rewrite fst_paired. by apply (Htidy' event).
  - unfold emit. rewrite Hget. simpl.
    destruct (setAdd_prefix h (default [] (handlers !! event))) as [k Hk].
    exists ((fun h' => (h', p)) <$> k). rewrite <- fmap_app. by rewrite <- Hk.
  - unfold on at 1. rewrite Hget. simpl. rewrite setAdd_again.
    unfold handlers', on. apply insert_insert_eq.
  - intros other Hne. by apply emit_on_other.
Qed.

(** Registering a handler that is not yet registered for the event and then
    calling the function [on] returned leaves the bus as it was. *)
Theorem off_undoes_on event h handlers :
  tidy handlers ->
  h ∉ default [] (handlers !! event) ->
  off event h (on event h handlers) = handlers.
Proof.
  intros Htidy Hin. unfold off, on at 1. rewrite lookup_insert_eq.
  rewrite setDelete_setAdd by done.
  destruct (handlers !! event) as [old|] eqn:Hold; simpl.
  - destruct old as [|a old]; [by destruct (Htidy _ _ Hold)|].
    unfold on. rewrite insert_insert_eq. by apply insert_id.
  - unfold on. by apply delete_insert_id.
Qed.

(** The function returned by [on]: afterwards [emit] calls the other
    handlers of the event as before and no longer this one; the handlers of
    other events are not touched; calling it again changes nothing. *)
Theorem off_removes {P} event h (p : P) handlers :
  tidy handlers ->
  let handlers' := off event h handlers in
  tidy handlers'
  /\ emit event p handlers' = filter (fun c => c.1 <> h) (emit event p handlers)
  /\ (forall other, other <> event ->
        emit other p handlers' = emit other p handlers)
  /\ off event h handlers' = handlers'.
Proof.
  intros Htidy handlers'.
  split; [by apply tidy_off|]. unfold handlers', off, emit.
  destruct (handlers !! event) as [old|] eqn:Hold.
  - destruct (setDelete h old) as [|r rest] eqn:Hrest.
    + split; [|split].
      * rewrite lookup_delete_eq. simpl. by rewrite <- fmap_setDelete, Hrest.
      * intros other Hne. by rewrite lookup_delete_ne.
      * by rewrite lookup_delete_eq.
    + split; [|split].
      * rewrite lookup_insert_eq. simpl. by rewrite <- fmap_setDelete, Hrest.
      * intros other Hne. by rewrite lookup_insert_ne.
      * rewrite lookup_insert_eq. rewrite <- Hrest.
        rewrite (setDelete_absent h (setDelete h old)) by apply setDelete_gone.
        rewrite Hrest. apply insert_insert_eq.
  - split; [|split].
    + rewrite Hold. done.
    + done.
    + by rewrite Hold.
Qed.

Lemma tidy_empty : tidy ∅.
Proof. intros e hs H. by rewrite lookup_empty in H. Qed.

Lemma on_registers_once_witness :
  let handlers' := on "done" 1%nat (on "done" 0%nat ∅) in
  tidy handlers'
  /\ (1%nat, "x") ∈ emit "done" "x" handlers'
  /\ NoDup (emit "done" "x" handlers').*1
  /\ emit "done" "x" (on "done" 0%nat ∅) `prefix_of` emit "done" "x" handlers'
  /\ on "done" 1%nat handlers' = handlers'
  /\ (forall other, other <> "done" ->
        emit other "x" handlers' = emit other "x" (on "done" 0%nat ∅)).
Proof.
  apply (on_registers_once "done" 1%nat "x" (on "done" 0%nat ∅)).
  apply tidy_on, tidy_empty.
Defined.

Lemma off_undoes_on_witness :
  off "done" 1%nat (on "done" 1%nat (on "done" 0%nat ∅)) = on "done" 0%nat ∅.
Proof.
  apply (off_undoes_on "done" 1%nat (on "done" 0%nat ∅)).
  - apply tidy_on, tidy_empty.
  - apply (bool_decide_unpack _). vm_compute. exact I.
Defined.

Lemma off_removes_witness :
  let handlers' := off "done" 0%nat (on "done" 1%nat (on "done" 0%nat ∅)) in
  tidy handlers'
  /\ emit "done" "x" handlers'
     = filter (fun c => c.1 <> 0%nat)
         (emit "done" "x" (on "done" 1%nat (on "done" 0%nat ∅)))
  /\ (forall other, other <> "done" ->
        emit other "x" handlers'
        = emit other "x" (on "done" 1%nat (on "done" 0%nat ∅)))
  /\ off "done" 0%nat handlers' = handlers'.
Proof.
  apply (off_removes "done" 0%nat "x" (on "done" 1%nat (on "done" 0%nat ∅))).
  apply tidy_on, tidy_on, tidy_empty.
Defined.

End EventBusFacts.

(** ** Shared state and its consumers *)

Module SharedStateFacts.
Import Registry SharedState.

Lemma counted_empty : counted empty.
Proof. intros n. simpl. rewrite !lookup_empty. done. Qed.

Lemma counted_acquire stateName init id c :
  counted c -> counted (acquire stateName init id c).
Proof.
  intros Hc. unfold acquire, registerConsumer, seedState.
  destruct (named stateName) as [n|]; [|done].
  intros m. destruct (Hc m) as (H1 & H2 & H3).
  assert (Hne : forall cs : gset nat, Some ({[id]} ∪ cs) <> Some ∅).
  { intros cs [= Heq]. apply (not_elem_of_empty (C:=gset nat) id).
    rewrite <- Heq. apply elem_of_union_l. by apply elem_of_singleton. }
  destruct (stateCache c !! n) as [v|] eqn:Hv; simpl.
  - destruct (decide (n = m)) as [<-|Hnm].
    + rewrite lookup_insert_eq. rewrite Hv in *. split; [done|].
      split; [|apply Hne]. split; by eexists.
    + by rewrite lookup_insert_ne.
  - destruct (decide (n = m)) as [<-|Hnm].
    + rewrite !lookup_insert_eq. split; [split; by eexists|].
      split; [split; by eexists|apply Hne].
    + by rewrite !lookup_insert_ne.
Qed.

Lemma counted_release stateName id c :
  counted c -> counted (release stateName id c).
Proof.
  intros Hc. unfold release.
  destruct (named stateName) as [n|]; [|done].
  destruct (stateConsumers c !! n) as [cs|] eqn:Hcs; [|done].
  unfold cleanupSharedState. case_bool_decide as Hsz; intros m; simpl.
  - destruct (decide (n = m)) as [<-|Hnm].
    + rewrite !lookup_delete_eq. split; [done|]. split; done.
    + rewrite !lookup_delete_ne by done. rewrite lookup_insert_ne by done.
      apply Hc.
  - destruct (Hc m) as (H1 & H2 & H3).
    destruct (decide (n = m)) as [<-|Hnm].
    + rewrite lookup_insert_eq. split; [done|]. split.
      * rewrite H2, Hcs. split; by eexists.
      * intros [= Heq]. apply Hsz. rewrite Heq. apply size_empty.
    + by rewrite lookup_insert_ne.
Qed.

Lemma recheck_counted c n : counted c -> recheck c n = c.
Proof.
  intros Hc. destruct (Hc n) as (H1 & H2 & H3). unfold recheck.
  destruct (stateConsumers c !! n) as [cs|] eqn:Hcs.
  - case_bool_decide as Hsz; [|done].
    apply size_empty_inv in Hsz. apply leibniz_equiv in Hsz. by subst cs.
  - assert (Hcache : stateCache c !! n = None).
    { destruct (stateCache c !! n) eqn:Hv; [|done].
      destruct (proj1 H2) as [? ?]; [by eexists|done]. }
    assert (Hinit : initialStateCache c !! n = None).
    { destruct (initialStateCache c !! n) eqn:Hv; [|done].
      destruct (proj2 H1) as [? ?]; [by eexists|congruence]. }
    unfold dropState. rewrite !delete_id by done. by destruct c.
Qed.

Lemma tick_counted c :
  counted c ->
  tick c = {| stateCache := stateCache c;
              initialStateCache := initialStateCache c;
              stateConsumers := stateConsumers c; deferred := [] |}.
Proof.
  intros Hc. unfold tick.
  induction (deferred c) as [|n l IH]; [done|]. simpl.
  rewrite recheck_counted; [exact IH|]. exact Hc.
Qed.

Lemma counted_perform c op : counted c -> counted (perform c op).
Proof.
  intros Hc. destruct op as [n init id|n id|]; simpl.
  - by apply counted_acquire.
  - by apply counted_release.
  - by rewrite tick_counted.
Qed.

Lemma counted_performAll ops c : counted c -> counted (foldl perform c ops).
Proof.
  revert c. induction ops as [|op ops IH]; intros c Hc; [done|].
  simpl. apply IH. by apply counted_perform.
Qed.

(** Whatever sessions are created and cleaned up, in whatever order and
    whenever the deferred checks run: a state name has a cached state
    exactly if it has a cached initial state and exactly if it has
    consumers, and no empty set of consumers is kept. *)
Theorem cache_follows_consumers ops n :
  let c := foldl perform empty ops in
  (is_Some (stateCache c !! n) <-> is_Some (initialStateCache c !! n))
  /\ (is_Some (stateCache c !! n) <-> is_Some (stateConsumers c !! n))
  /\ stateConsumers c !! n <> Some ∅.
Proof. intros c. apply (counted_performAll ops empty counted_empty). Qed.

(** The checks that [cleanupSharedState] defers to the next tick never find
    anything to delete: when they run, the three maps stay as they are. *)
Theorem deferred_check_changes_nothing ops :
  let c := foldl perform empty ops in
  stateCache (tick c) = stateCache c
  /\ initialStateCache (tick c) = initialStateCache c
  /\ stateConsumers (tick c) = stateConsumers c
  /\ deferred (tick c) = [].
Proof.
  intros c. rewrite tick_counted; [done|].
  apply (counted_performAll ops empty counted_empty).
Qed.

Lemma acquire_consumers stateName n init id c :
  named stateName = Some n ->
  stateConsumers (acquire stateName init id c) !! n
  = Some ({[ id ]} ∪ default ∅ (stateConsumers c !! n)).
Proof.
  intros Hn. unfold acquire, registerConsumer, seedState. rewrite Hn.
  destruct (stateCache c !! n); simpl; by rewrite lookup_insert_eq.
Qed.

(** A new session with a state name: the cached state of the name is the
    one that was cached before, and only if there was none it is seeded from
    the session's [initialState]; the session is a consumer of the name
    afterwards, next to the consumers there were; other names are not
    touched. *)
Theorem acquire_seeds_once stateName n init id c :
  named stateName = Some n ->
  let c' := acquire stateName init id c in
  stateCache c' !! n = Some (default (resolve init) (stateCache c !! n))
  /\ stateConsumers c' !! n
     = Some ({[ id ]} ∪ default ∅ (stateConsumers c !! n))
  /\ (forall m, m <> n ->
        stateCache c' !! m = stateCache c !! m
        /\ initialStateCache c' !! m = initialStateCache c !! m
        /\ stateConsumers c' !! m = stateConsumers c !! m).
Proof.
  intros Hn c'. unfold c', acquire, registerConsumer, seedState. rewrite Hn.
  destruct (stateCache c !! n) as [v|] eqn:Hv; simpl.
  - rewrite Hv, lookup_insert_eq. split; [done|]. split; [done|].
    intros m Hm. by rewrite lookup_insert_ne.
  - rewrite !lookup_insert_eq. split; [done|]. split; [done|].
    intros m Hm. by rewrite !lookup_insert_ne.
Qed.

(** A session that is the first to use a state name and is cleaned up
    again leaves the three maps and the deferred checks as they were. *)
Theorem release_undoes_acquire stateName n init id c :
  counted c ->
  named stateName = Some n ->
  stateCache c !! n = None ->
  release stateName id (acquire stateName init id c) = c.
Proof.
  intros Hc Hn Hv. destruct (Hc n) as (H1 & H2 & H3).
  assert (Hinit : initialStateCache c !! n = None).
  { destruct (initialStateCache c !! n) eqn:Hi; [|done].
    destruct (proj2 H1) as [? ?]; [by eexists|congruence]. }
  assert (Hcs : stateConsumers c !! n = None).
  { destruct (stateConsumers c !! n) eqn:Hi; [|done].
    destruct (proj2 H2) as [? ?]; [by eexists|congruence]. }
  unfold release, acquire, registerConsumer, seedState. rewrite Hn, Hv. simpl.
  rewrite lookup_insert_eq, Hcs. simpl.
  unfold cleanupSharedState. rewrite bool_decide_eq_true_2.
  - unfold dropState. simpl. rewrite insert_insert_eq.
    rewrite !delete_insert_id by done. by destruct c.
  - apply size_empty_iff, elem_of_equiv_empty.
    intros x [Hx Hnx]%elem_of_difference.
    apply elem_of_union in Hx as [Hx|Hx]; [done|].
    by apply not_elem_of_empty in Hx.
Qed.

(** The cleanup of a session whose state name has consumers: if no other
    consumer is left, the state, its initial state and the set of consumers
    are deleted at once; otherwise the cached states stay, the session is
    taken out of the consumers, and one check is deferred. *)
Theorem release_drops_with_last_consumer stateName n id cs c :
  named stateName = Some n ->
  stateConsumers c !! n = Some cs ->
  let c' := release stateName id c in
  (cs ⊆ {[ id ]} ->
     stateCache c' !! n = None /\ initialStateCache c' !! n = None
     /\ stateConsumers c' !! n = None /\ deferred c' = deferred c)
  /\ (cs ⊈ {[ id ]} ->
        stateCache c' = stateCache c
        /\ initialStateCache c' = initialStateCache c
        /\ stateConsumers c' !! n = Some (cs ∖ {[ id ]})
        /\ deferred c' = deferred c ++ [n]).
Proof.
  intros Hn Hcs c'. unfold c', release. rewrite Hn, Hcs.
  unfold cleanupSharedState. split; intros Hsub.
  - rewrite bool_decide_eq_true_2.
    + simpl. by rewrite !lookup_delete_eq.
    + apply size_empty_iff, elem_of_equiv_empty.
      intros x [Hx Hnx]%elem_of_difference. by apply Hnx, Hsub.
  - rewrite bool_decide_eq_false_2.
    + simpl. by rewrite lookup_insert_eq.
    + intros Hsz. apply size_empty_iff in Hsz. apply Hsub. intros x Hx.
      destruct (decide (x ∈ ({[ id ]} : gset nat))) as [Hin|Hout]; [done|].
      exfalso. apply (proj1 (elem_of_equiv_empty _) Hsz x).
      by apply elem_of_difference.
Qed.

Lemma acquire_seeds_once_witness :
  let c := acquire (Some "hero") (VObject 7) 0%nat empty in
  let c' := acquire (Some "hero") (VNumber 1%float) 1%nat c in
  stateCache c' !! "hero"
  = Some (default (resolve (VNumber 1%float)) (stateCache c !! "hero"))
  /\ stateConsumers c' !! "hero"
     = Some ({[ 1%nat ]} ∪ default ∅ (stateConsumers c !! "hero"))
  /\ (forall m, m <> "hero" ->
        stateCache c' !! m = stateCache c !! m
        /\ initialStateCache c' !! m = initialStateCache c !! m
        /\ stateConsumers c' !! m = stateConsumers c !! m).
Proof.
  apply (acquire_seeds_once (Some "hero") "hero" (VNumber 1%float) 1%nat
           (acquire (Some "hero") (VObject 7) 0%nat empty)).
  reflexivity.
Defined.

Lemma release_undoes_acquire_witness :
  release (Some "hero") 0%nat (acquire (Some "hero") (VObject 7) 0%nat empty)
  = empty.
Proof.
  apply (release_undoes_acquire (Some "hero") "hero" (VObject 7) 0%nat empty).
  - exact counted_empty.
  - reflexivity.
  - apply lookup_empty.
Defined.

Lemma release_drops_with_last_consumer_witness :
  let c := acquire (Some "hero") VUndefined 1%nat
             (acquire (Some "hero") (VObject 7) 0%nat empty) in
  let c' := release (Some "hero") 0%nat c in
  (({[ 1%nat ]} ∪ ({[ 0%nat ]} ∪ ∅) : gset nat) ⊆ {[ 0%nat ]} ->
     stateCache c' !! "hero" = None /\ initialStateCache c' !! "hero" = None
     /\ stateConsumers c' !! "hero" = None /\ deferred c' = deferred c)
  /\ (({[ 1%nat ]} ∪ ({[ 0%nat ]} ∪ ∅) : gset nat) ⊈ {[ 0%nat ]} ->
        stateCache c' = stateCache c
        /\ initialStateCache c' = initialStateCache c
        /\ stateConsumers c' !! "hero"
           = Some (({[ 1%nat ]} ∪ ({[ 0%nat ]} ∪ ∅)) ∖ {[ 0%nat ]})
        /\ deferred c' = deferred c ++ ["hero"]).
Proof.
  apply (release_drops_with_last_consumer (Some "hero") "hero" 0%nat
           ({[ 1%nat ]} ∪ ({[ 0%nat ]} ∪ ∅))
           (acquire (Some "hero") VUndefined 1%nat
              (acquire (Some "hero") (VObject 7) 0%nat empty))).
  - reflexivity.
  - rewrite (acquire_consumers _ "hero") by reflexivity.
    rewrite (acquire_consumers _ "hero") by reflexivity.
    change (stateConsumers empty) with (∅ : gmap string (gset nat)).
    by rewrite lookup_empty.
Defined.

End SharedStateFacts.

(** ** Sequences of operations on a session *)

Module SessionOpsFacts.
Import Session SessionOps.

Lemma steady_initial handlers consumers : steady (initial handlers consumers).
Proof. split; simpl; [done|]. done. Qed.

Lemma steady_runPlay cfg reason s : steady s -> steady (runPlay cfg reason s).
Proof.
  intros [Hp Ho]. unfold runPlay, steady in *.
  destruct s as [pl pa ov hs cs tr]; simpl in *.
  destruct reason, ov as [[]|], pl; simpl; split; intros; try done;
    try (destruct Ho; done); try by apply Hp.
Qed.

Lemma steady_stop cfg reason s : steady s -> steady (stop cfg reason s).
Proof.
  intros [Hp Ho]. unfold stop, steady in *.
  destruct s as [pl pa ov hs cs tr]; simpl in *.
  destruct reason, ov as [[]|], pl, pa; simpl; split; intros; try done;
    try (destruct Ho; done); try by apply Hp.
Qed.

Lemma steady_pause cfg s : steady s -> steady (pause cfg s).
Proof.
  intros [Hp Ho]. unfold pause, steady in *.
  destruct s as [pl pa ov hs cs tr]; simpl in *.
  destruct ov as [[]|], pl, pa; simpl; split; intros; try done;
    try (destruct Ho; done); try by apply Hp.
Qed.

Lemma steady_resume cfg s : steady s -> steady (resume cfg s).
Proof.
  intros [Hp Ho]. unfold resume, steady in *.
  destruct s as [pl pa ov hs cs tr]; simpl in *.
  destruct ov as [[]|], pl, pa; simpl; split; intros; try done;
    try (destruct Ho; done); try by apply Hp.
Qed.

Lemma steady_playWhenChanged cfg b s :
  steady s -> steady (playWhenChanged cfg b s).
Proof.
  intros [Hp Ho]. unfold playWhenChanged, runPlay, stop, steady in *.
  destruct s as [pl pa ov hs cs tr]; simpl in *.
  destruct b, pl, pa; simpl; split; intros; try done; try by apply Hp.
Qed.

Lemma steady_cleanup cfg s : steady s -> steady (cleanup cfg s).
Proof. intros _. split; simpl; done. Qed.

Lemma steady_perform cfg s op : steady s -> steady (perform cfg s op).
Proof.
  intros Hs. destruct op as [| | | |pw| |b|]; cbn [perform].
  - by apply steady_runPlay.
  - by apply steady_stop.
  - by apply steady_pause.
  - by apply steady_resume.
  - unfold playAuto. destruct pw as [[]|]; try done; by apply steady_runPlay.
  - by apply steady_stop.
  - by apply steady_playWhenChanged.
  - by apply steady_cleanup.
Qed.

Lemma steady_performAll cfg ops s :
  steady s -> steady (foldl (perform cfg) s ops).
Proof.
  revert s. induction ops as [|op ops IH]; intros s Hs; [done|].
  simpl. apply IH. by apply steady_perform.
Qed.

(** Whatever is done to a session, in whatever order ([play], [stop],
    [pause], [resume], the automatic triggers, changes of [playWhen],
    [cleanup]): it is never paused without playing, and while the override
    is [stop] it neither plays nor is paused. *)
Theorem session_stays_steady cfg handlers consumers ops :
  let s := foldl (perform cfg) (initial handlers consumers) ops in
  (isPaused s = true -> isPlaying s = true)
  /\ (manualOverride s = Some OverrideStop ->
      isPlaying s = false /\ isPaused s = false).
Proof. intros s. apply steady_performAll, steady_initial. Qed.

(** After a change of [playWhen], whatever happened to the session before,
    the session plays exactly if the new value is true, and no override is
    left. *)
Theorem playWhen_decides_playing cfg handlers consumers ops shouldPlay :
  let s := foldl (perform cfg) (initial handlers consumers) ops in
  isPlaying (playWhenChanged cfg shouldPlay s) = shouldPlay
  /\ manualOverride (playWhenChanged cfg shouldPlay s) = None.
Proof.
  intros s.
  destruct (steady_performAll cfg ops _ (steady_initial handlers consumers))
    as [Hp _].
  fold s in Hp. unfold playWhenChanged, runPlay, stop.
  destruct s as [pl pa ov hs cs tr]; simpl in *.
  destruct shouldPlay, pl, pa; simpl; try done.
  by specialize (Hp eq_refl).
Qed.

End SessionOpsFacts.

(** ** The environment watcher *)

Module AutoPauseFacts.
Import Session AutoPause.

Lemma debounced_create critical s next :
  debounced (createAutoPauseWatcher critical s next).
Proof. split; done. Qed.

Lemma clearTimeout_only h : clearTimeout h [h] = [].
Proof. unfold clearTimeout. by rewrite filter_cons_False, filter_nil by tauto. Qed.

Lemma clearDebounce_debounced w :
  debounced w ->
  clearDebounce w
  = {| session := session w; watching := watching w; debounceHandle := None;
       timeouts := []; nextTimeout := nextTimeout w |}.
Proof.
  intros [Hts _]. unfold clearDebounce. destruct w as [s wa [h|] ts n]; simpl in *.
  - rewrite Hts. simpl. by rewrite clearTimeout_only.
  - by rewrite Hts.
Qed.

Lemma debounced_changed cfg shouldPause w :
  debounced w -> debounced (changed cfg shouldPause w).
Proof.
  intros Hw. unfold changed.
  destruct (watching w) eqn:Hwa; simpl; [|done].
  rewrite clearDebounce_debounced by done. simpl.
  destruct (shouldPause && isPlaying (session w)); [by split; simpl; rewrite ?Hwa|].
  destruct (negb shouldPause && isPaused (session w)); split; simpl; done.
Qed.

Lemma debounced_fired cfg h w : debounced w -> debounced (fired cfg h w).
Proof.
  intros Hw. unfold fired. case_bool_decide as Hin; [|done].
  destruct Hw as [Hts Hwa]. rewrite Hts in Hin.
  destruct (debounceHandle w) as [h'|] eqn:Hh; simpl in Hin.
  - apply list_elem_of_singleton in Hin as ->. split; simpl; [|done].
    rewrite Hts. simpl. apply clearTimeout_only.
  - by apply elem_of_nil in Hin.
Qed.

Lemma debounced_stopWatcher w : debounced w -> debounced (stopWatcher w).
Proof.
  intros Hw. unfold stopWatcher. rewrite clearDebounce_debounced by done.
  split; done.
Qed.

Lemma debounced_handle cfg w e : debounced w -> debounced (handle cfg w e).
Proof.
  intros Hw. destruct e as [b|h| |op]; cbn [handle].
  - by apply debounced_changed.
  - by apply debounced_fired.
  - by apply debounced_stopWatcher.
  - exact Hw.
Qed.

Lemma debounced_handleAll cfg events w :
  debounced w -> debounced (foldl (handle cfg) w events).
Proof.
  revert w. induction events as [|e events IH]; intros w Hw; [done|].
  simpl. apply IH. by apply debounced_handle.
Qed.

Lemma silent cfg w e :
  watching w = false -> debounced w -> environmental e = true ->
  handle cfg w e = w.
Proof.
  intros Hwa [Hts Hnone] He. destruct e as [b|h| |op]; try done; cbn [handle].
  - unfold changed. by rewrite Hwa.
  - unfold fired. by rewrite Hts, (Hnone Hwa).
Qed.

Lemma silentAll cfg events w :
  watching w = false -> debounced w ->
  forallb environmental events = true ->
  foldl (handle cfg) w events = w.
Proof.
  intros Hwa Hw. induction events as [|e events IH]; [done|].
  intros [He Hes]%andb_prop. simpl. rewrite silent by done. by apply IH.
Qed.

(** Whatever the environment and the session do, in whatever order, the
    watcher has at most one timeout set, the one whose handle it keeps, and
    none once it has been stopped. *)
Theorem autopause_one_timeout cfg critical s next events :
  let w := foldl (handle cfg) (createAutoPauseWatcher critical s next) events in
  timeouts w = option_list (debounceHandle w)
  /\ (watching w = false -> timeouts w = []).
Proof.
  intros w.
  destruct (debounced_handleAll cfg events _ (debounced_create critical s next))
    as [Hts Hwa].
  fold w in Hts, Hwa. split; [done|]. intros Hoff. by rewrite Hts, (Hwa Hoff).
Qed.

(** When [shouldPauseAnimations] turns false, the timeout of a pause that
    has not happened yet is cleared, and the session is not paused
    afterwards, whoever had paused it. *)
Theorem environment_recovery_resumes cfg w :
  watching w = true ->
  debounced w ->
  isPaused (session (changed cfg false w)) = false
  /\ isPlaying (session (changed cfg false w)) = isPlaying (session w)
  /\ timeouts (changed cfg false w) = []
  /\ debounceHandle (changed cfg false w) = None.
Proof.
  intros Hwa Hw. unfold changed. rewrite Hwa. simpl.
  rewrite clearDebounce_debounced by done. simpl.
  destruct (isPaused (session w)) eqn:Hp; simpl; [|done].
  unfold resume. rewrite Hp. simpl. done.
Qed.

(** A watcher that has been stopped, and the watcher of a critical
    animation, do nothing to the session any more: changes of the
    environment and timeouts that fire leave everything as it is. *)
Theorem stopped_watcher_is_silent cfg events :
  forallb environmental events = true ->
  (forall s next,
     foldl (handle cfg) (createAutoPauseWatcher true s next) events
     = createAutoPauseWatcher true s next)
  /\ (forall w,
        debounced w ->
        foldl (handle cfg) (stopWatcher w) events = stopWatcher w
        /\ session (stopWatcher w) = session w
        /\ timeouts (stopWatcher w) = []).
Proof.
  intros Hev. split.
  - intros s next. apply silentAll; [done|apply debounced_create|done].
  - intros w Hw. split; [|split].
    + apply silentAll; [done|by apply debounced_stopWatcher|done].
    + unfold stopWatcher. by rewrite clearDebounce_debounced.
    + unfold stopWatcher. by rewrite clearDebounce_debounced.
Qed.

Lemma environment_recovery_resumes_witness :
  let s := pause Examples.oneSystem (play Examples.oneSystem (initial [] None)) in
  let w := createAutoPauseWatcher false s 1 in
  isPaused (session (changed Examples.oneSystem false w)) = false
  /\ isPlaying (session (changed Examples.oneSystem false w)) = isPlaying (session w)
  /\ timeouts (changed Examples.oneSystem false w) = []
  /\ debounceHandle (changed Examples.oneSystem false w) = None.
Proof.
  apply (environment_recovery_resumes Examples.oneSystem
           (createAutoPauseWatcher false
              (pause Examples.oneSystem (play Examples.oneSystem (initial [] None))) 1)).
  - reflexivity.
  - apply debounced_create.
Defined.

Lemma stopped_watcher_is_silent_witness :
  (forall s next,
     foldl (handle Examples.oneSystem) (createAutoPauseWatcher true s next)
           [Changed true; Fired 1; Changed false]
     = createAutoPauseWatcher true s next)
  /\ (forall w,
        debounced w ->
        foldl (handle Examples.oneSystem) (stopWatcher w)
              [Changed true; Fired 1; Changed false] = stopWatcher w
        /\ session (stopWatcher w) = session w
        /\ timeouts (stopWatcher w) = []).
Proof.
  apply (stopped_watcher_is_silent Examples.oneSystem
           [Changed true; Fired 1; Changed false]).
  reflexivity.
Defined.

End AutoPauseFacts.

(** ** The pool of resize observations *)

Module ResizePoolFacts.
Import ResizePool.

Lemma pooled_initial : pooled initial.
Proof.
  split; [done|]. intros e cbs H. simpl in H. by rewrite lookup_empty in H.
Qed.

Lemma targets_observe element callback m :
  targets (observe element callback m)
  = <[ element := EventBus.setAdd callback (default [] (targets m !! element)) ]>
      (targets m).
Proof.
  unfold observe, ensureObserver.
  destruct (observer m) as [obs|]; simpl;
    destruct (targets m !! element) as [cbs|] eqn:Hel; simpl.
  - by rewrite Hel.
  - by rewrite lookup_insert_eq, insert_insert_eq.
  - by rewrite Hel.
  - by rewrite lookup_insert_eq, insert_insert_eq.
Qed.

Lemma observer_pooled m :
  pooled m -> targets m <> ∅ -> observer m = Some (dom (targets m)).
Proof. intros [Hobs _] Hne. by rewrite Hobs, bool_decide_eq_false_2. Qed.

Lemma observer_pooled_empty m : pooled m -> targets m = ∅ -> observer m = None.
Proof. intros [Hobs _] He. by rewrite Hobs, bool_decide_eq_true_2. Qed.

Lemma observer_observe element callback m :
  pooled m ->
  observer (observe element callback m)
  = Some (dom (targets (observe element callback m))).
Proof.
  intros Hm. rewrite targets_observe, dom_insert_L.
  unfold observe, ensureObserver.
  destruct (decide (targets m = ∅)) as [He|Hne].
  - rewrite (observer_pooled_empty m Hm He). simpl.
    rewrite He, lookup_empty. simpl. by rewrite dom_empty_L.
  - rewrite (observer_pooled m Hm Hne).
    destruct (targets m !! element) as [cbs|] eqn:Hel; simpl.
    + rewrite (observer_pooled m Hm Hne). f_equal. symmetry.
      apply subseteq_union_1_L, singleton_subseteq_l.
      apply elem_of_dom. by eexists.
    + by rewrite (observer_pooled m Hm Hne).
Qed.

Lemma pooled_observe element callback m :
  pooled m -> pooled (observe element callback m).
Proof.
  intros Hm. split.
  - rewrite observer_observe by done.
    rewrite bool_decide_eq_false_2; [done|].
    rewrite targets_observe. apply insert_non_empty.
  - intros e cbs. rewrite targets_observe, lookup_insert.
    case_decide as He; [|apply Hm].
    intros [= <-]. split; [|apply EventBusFacts.setAdd_not_nil].
    apply EventBusFacts.NoDup_setAdd.
    destruct (targets m !! element) as [old|] eqn:Hold; simpl; [|constructor].
    by apply (proj2 Hm element).
Qed.

Lemma pooled_unobserve element callback m :
  pooled m -> pooled (unobserve element callback m).
Proof.
  intros Hm. unfold unobserve.
  destruct (targets m !! element) as [cbs|] eqn:Hel; [|done].
  assert (Hne : targets m <> ∅) by (intros He; by rewrite He, lookup_empty in Hel).
  rewrite (observer_pooled m Hm Hne).
  destruct (EventBus.setDelete callback cbs) as [|r rest] eqn:Hrest; simpl.
  - rewrite andb_true_r. case_bool_decide as Hsz; simpl.
    + apply map_size_empty_iff in Hsz. split; simpl.
      * by rewrite bool_decide_eq_true_2.
      * intros e c. rewrite Hsz, lookup_empty. done.
    + split; simpl.
      * rewrite bool_decide_eq_false_2 by (by rewrite <- map_size_empty_iff).
        by rewrite dom_delete_L.
      * intros e c. rewrite lookup_delete. case_decide; [done|apply Hm].
  - rewrite andb_true_r. rewrite bool_decide_eq_false_2.
    + split; simpl.
      * rewrite bool_decide_eq_false_2 by apply insert_non_empty.
        rewrite dom_insert_lookup_L; [done|by eexists].
      * intros e c. rewrite lookup_insert. case_decide; [|apply Hm].
        intros [= <-]. split; [|done]. rewrite <- Hrest.
        apply EventBusFacts.NoDup_setDelete. by apply (proj2 Hm element).
    + rewrite map_size_empty_iff. apply insert_non_empty.
Qed.

Lemma pooled_perform m op : pooled m -> pooled (perform m op).
Proof.
  intros Hm. destruct op; cbn [perform];
    [by apply pooled_observe|by apply pooled_unobserve].
Qed.

Lemma pooled_performAll ops m : pooled m -> pooled (foldl perform m ops).
Proof.
  revert m. induction ops as [|op ops IH]; intros m Hm; [done|].
  simpl. apply IH. by apply pooled_perform.
Qed.

(** Whatever is observed and unobserved, in whatever order: the manager has
    a [ResizeObserver] exactly while it has targets, that observer observes
    exactly the targets, and every target has at least one callback, none
    of them twice. *)
Theorem pool_follows_callbacks ops :
  let m := foldl perform initial ops in
  observer m = (if bool_decide (targets m = ∅) then None
                else Some (dom (targets m)))
  /\ (forall element callbacks,
        targets m !! element = Some callbacks ->
        NoDup callbacks /\ callbacks <> [] /\ deliver element m = callbacks).
Proof.
  intros m. destruct (pooled_performAll ops initial pooled_initial) as [Hobs Ht].
  fold m in Hobs, Ht. split; [done|].
  intros element callbacks Hel. destruct (Ht _ _ Hel) as [Hnd Hne].
  split; [done|]. split; [done|]. unfold deliver. by rewrite Hel.
Qed.

(** Observing an element with a callback that is not yet registered for it
    and then calling the function [observe] returned leaves the manager as
    it was: the observer is disconnected again if it was made for this
    observation, and the element is unobserved again if it was not a target
    before. *)
Theorem unobserve_undoes_observe element callback m :
  pooled m ->
  callback ∉ default [] (targets m !! element) ->
  unobserve element callback (observe element callback m) = m.
Proof.
  intros Hm Hin.
  pose proof (observer_observe element callback m Hm) as Hobs.
  pose proof (targets_observe element callback m) as Htg.
  destruct (observe element callback m) as [obs' tg'].
  cbn [observer targets] in Hobs, Htg. subst obs' tg'.
  unfold unobserve. cbn [targets observer]. rewrite lookup_insert_eq.
  rewrite EventBusFacts.setDelete_setAdd by done.
  destruct (targets m !! element) as [old|] eqn:Hold.
  - change (default [] (Some old)) with old in *.
    destruct old as [|a old]; [by destruct (proj2 Hm _ _ Hold)|].
    cbn [targets observer].
    assert (Hne : targets m <> ∅) by (intros He; by rewrite He, lookup_empty in Hold).
    rewrite insert_insert_eq, (insert_id _ _ _ Hold).
    rewrite dom_insert_lookup_L by (by eexists).
    rewrite (bool_decide_eq_false_2 (size (targets m) = 0%nat))
      by (by rewrite map_size_empty_iff).
    cbn [andb]. rewrite <- (observer_pooled m Hm Hne). by destruct m.
  - change (default [] (@None (list nat))) with (@nil nat) in *.
    cbn [targets observer fmap option_fmap option_map].
    rewrite <- dom_delete_L. rewrite delete_insert_id by done.
    case_bool_decide as Hsz; cbn [andb bool_decide].
    + apply map_size_empty_iff in Hsz.
      rewrite bool_decide_eq_true_2 by (by eexists). cbn [targets].
      rewrite <- (observer_pooled_empty m Hm Hsz). by destruct m.
    + assert (Hne : targets m <> ∅) by (by rewrite <- map_size_empty_iff).
      rewrite <- (observer_pooled m Hm Hne). by destruct m.
Qed.

Lemma unobserve_undoes_observe_witness :
  unobserve 4 1 (observe 4 1 (observe 4 0 initial)) = observe 4 0 initial.
Proof.
  apply (unobserve_undoes_observe 4 1 (observe 4 0 initial)).
  - apply pooled_observe, pooled_initial.
  - apply (bool_decide_unpack _). vm_compute. exact I.
Defined.

End ResizePoolFacts.

(** ** The number of delays *)

Module StaggerCountFacts.
Import Stagger.

(** The result has one delay for each element, and with a [grid] the
    [ease] option has no effect on it. *)
Theorem delays_one_per_element count o :
  length (calculateStaggerDelays count o) = count
  /\ (is_Some (grid o) ->
      forall e,
        calculateStaggerDelays count
          {| delay := delay o; from := from o; ease := e; grid := grid o |}
        = calculateStaggerDelays count o).
Proof.
  unfold calculateStaggerDelays. split.
  - destruct (grid o) as [[cols rows]|]; by rewrite length_fmap, length_seq.
  - intros [[cols rows] Hg] e. simpl. by rewrite Hg.
Qed.

End StaggerCountFacts.
